(** * Survey trajectory engine: minimum curvature, accumulation, sanitising,
      path-segment interpolation and composition.

    Shallow embedding of [CoreApps/surveys/utils.py] and
    [CoreApps/surveys/visualizer.py].

    Number model.  A Python [float] (and a numpy [float64]) is modelled by
    [pyfloat]: a finite value carried by a real number, the two infinities
    and NaN.  Rounding, overflow of finite results and the sign of zero are
    not modelled: arithmetic on finite values is exact real arithmetic.
    What IS modelled is everything the control flow of the source can see:
    comparisons with NaN are false, arithmetic propagates NaN and the
    infinities as IEEE 754 does, [math.sin]/[math.cos]/[math.acos] raise
    [ValueError] exactly where CPython does, and a Python float division by
    zero raises [ZeroDivisionError].  Two places where rounding decides
    what the source does are modelled apart: line 19 of utils.py has a
    version with an explicit error term ([cos_beta_computed]), for the
    guards of lines 22-23, and [np.tan] has its float value at a right
    angle ([tan_half_pi]).

    Libraries.  [float] on a text follows CPython ([float_of_chars]);
    [df.sort_values] may return rows of equal depth in any order
    ([depth_ordering]); [bulk_create] refuses a NaN in a column that takes
    no NULL ([station_storable], [geometry_storable]); plotly refuses a
    marker colour that is no colour ([scatter3d]). *)

From Stdlib Require Import Reals Lra Lia List Bool ZArith String Ascii.
From Stdlib Require Import Permutation Sorted.
Import ListNotations.

Open Scope R_scope.

(** ** Python floats *)

Inductive pyfloat : Type :=
| Fin (x : R)          (* a finite value *)
| Inf (negative : bool) (* [Inf false] is +inf, [Inf true] is -inf *)
| NaN.

Definition is_finite (a : pyfloat) : bool :=
  match a with Fin _ => true | _ => false end.

Definition is_inf (a : pyfloat) : bool :=
  match a with Inf _ => true | _ => false end.

Definition is_nan (a : pyfloat) : bool :=
  match a with NaN => true | _ => false end.

Definition Rltb (x y : R) : bool := if Rlt_dec x y then true else false.
Definition Rleb (x y : R) : bool := if Rle_dec x y then true else false.
Definition Reqb (x y : R) : bool := if Req_dec_T x y then true else false.

(** [a < b]; false as soon as one side is NaN. *)
Definition flt (a b : pyfloat) : bool :=
  match a, b with
  | NaN, _ | _, NaN => false
  | Fin x, Fin y => Rltb x y
  | Inf true, Inf true => false
  | Inf true, _ => true
  | _, Inf false => negb (is_inf a)
  | _, _ => false
  end.

Definition fgt (a b : pyfloat) : bool := flt b a.

(** [a == b]. *)
Definition feq (a b : pyfloat) : bool :=
  match a, b with
  | Fin x, Fin y => Reqb x y
  | Inf s, Inf t => Bool.eqb s t
  | _, _ => false
  end.

(** [a <= b]. *)
Definition fle (a b : pyfloat) : bool := flt a b || feq a b.
Definition fge (a b : pyfloat) : bool := fle b a.

Definition fneg (a : pyfloat) : pyfloat :=
  match a with
  | Fin x => Fin (- x)
  | Inf s => Inf (negb s)
  | NaN => NaN
  end.

Definition fadd (a b : pyfloat) : pyfloat :=
  match a, b with
  | NaN, _ | _, NaN => NaN
  | Fin x, Fin y => Fin (x + y)
  | Inf s, Inf t => if Bool.eqb s t then Inf s else NaN
  | Inf s, Fin _ => Inf s
  | Fin _, Inf t => Inf t
  end.

Definition fsub (a b : pyfloat) : pyfloat := fadd a (fneg b).

(** Sign of a finite value times an infinity. *)
Definition scale_inf (x : R) (s : bool) : pyfloat :=
  if Reqb x 0 then NaN else Inf (xorb (Rltb x 0) s).

Definition fmul (a b : pyfloat) : pyfloat :=
  match a, b with
  | NaN, _ | _, NaN => NaN
  | Fin x, Fin y => Fin (x * y)
  | Inf s, Inf t => Inf (xorb s t)
  | Inf s, Fin y => scale_inf y s
  | Fin x, Inf t => scale_inf x t
  end.

(** IEEE division, as numpy performs it (no exception on a zero divisor). *)
Definition fdiv (a b : pyfloat) : pyfloat :=
  match a, b with
  | NaN, _ | _, NaN => NaN
  | Fin x, Fin y =>
      if Reqb y 0
      then (if Reqb x 0 then NaN else Inf (Rltb x 0))
      else Fin (x / y)
  | Inf _, Inf _ => NaN
  | Inf s, Fin y => Inf (xorb s (Rltb y 0))
  | Fin _, Inf _ => Fin 0
  end.

(** ** Exceptions *)

Inductive exn : Type := ValueError | TypeError | ZeroDivisionError.

Inductive result (A : Type) : Type :=
| Ok (a : A)
| Raise (e : exn).
Arguments Ok {A} a.
Arguments Raise {A} e.

Definition bind {A B : Type} (m : result A) (k : A -> result B) : result B :=
  match m with
  | Ok a => k a
  | Raise e => Raise e
  end.

Notation "x <- m ;; k" := (bind m (fun x => k))
  (at level 61, m at next level, right associativity).

Definition is_ok {A : Type} (m : result A) : bool :=
  match m with Ok _ => true | Raise _ => false end.

(** Python's [/] on two floats. *)
Definition py_div (a b : pyfloat) : result pyfloat :=
  if feq b (Fin 0) then Raise ZeroDivisionError else Ok (fdiv a b).

(** ** The [math] module *)

Definition radians (a : pyfloat) : pyfloat := fmul a (Fin (PI / 180)).
Definition degrees (a : pyfloat) : pyfloat := fmul a (Fin (180 / PI)).

(** [math.sin] and [math.cos]: NaN in, NaN out; an infinite argument is a
    "math domain error". *)
Definition py_sin (a : pyfloat) : result pyfloat :=
  match a with
  | Fin x => Ok (Fin (sin x))
  | Inf _ => Raise ValueError
  | NaN => Ok NaN
  end.

Definition py_cos (a : pyfloat) : result pyfloat :=
  match a with
  | Fin x => Ok (Fin (cos x))
  | Inf _ => Raise ValueError
  | NaN => Ok NaN
  end.

(** [math.acos]: defined on [-1, 1], a "math domain error" elsewhere. *)
Definition py_acos (a : pyfloat) : result pyfloat :=
  match a with
  | Fin x => if Rleb (-1) x && Rleb x 1 then Ok (Fin (acos x))
             else Raise ValueError
  | Inf _ => Raise ValueError
  | NaN => Ok NaN
  end.

(** A float is never an odd multiple of PI/2, so the tangent has no pole on
    floats: at the float nearest to PI/2 it is this finite number. *)
Definition tan_half_pi : R := 16331239353195370.

(** [numpy.tan]: never raises; an infinite argument gives NaN.  At PI/2,
    the one pole line 31 can reach (beta is at most PI), the value is that
    of the nearest float. *)
Definition np_tan (a : pyfloat) : pyfloat :=
  match a with
  | Fin x => Fin (if Reqb x (PI / 2) then tan_half_pi else tan x)
  | _ => NaN
  end.

(** ** utils.py: [minimum_curvature] *)

(** Line 19: the cosine of the dogleg angle, before clamping. *)
Definition cos_beta_raw (i1 a1 i2 a2 : pyfloat) : result pyfloat :=
  c21 <- py_cos (fsub i2 i1) ;;
  s1 <- py_sin i1 ;;
  s2 <- py_sin i2 ;;
  ca <- py_cos (fsub a2 a1) ;;
  Ok (fsub c21 (fmul (fmul s1 s2) (fsub (Fin 1) ca))).

(** Lines 22-23: the two guards against numerical overshoot. *)
Definition clamp (cos_beta : pyfloat) : pyfloat :=
  let cos_beta := if fgt cos_beta (Fin 1) then Fin 1 else cos_beta in
  let cos_beta := if flt cos_beta (Fin (-1)) then Fin (-1) else cos_beta in
  cos_beta.

(** Lines 28-31: the ratio factor. *)
Definition ratio_factor (beta : pyfloat) : result pyfloat :=
  if flt beta (Fin (1 / 10000)) then Ok (Fin 1)
  else q <- py_div (Fin 2) beta ;;
       Ok (fmul q (np_tan (fdiv beta (Fin 2)))).

(** Lines 39-42: dogleg severity, degrees per 30 m. *)
Definition dogleg_severity (beta delta_md : pyfloat) : result pyfloat :=
  if feq delta_md (Fin 0) then Ok (Fin 0)
  else py_div (fmul (degrees beta) (Fin 30)) delta_md.

(** Lines 34-36: the three displacements. *)
Definition displacements (i1 a1 i2 a2 delta_md rf : pyfloat)
  : result (pyfloat * pyfloat * pyfloat) :=
  let half := fdiv delta_md (Fin 2) in
  (* line 34 *)
  si1 <- py_sin i1 ;; ca1 <- py_cos a1 ;;
  si2 <- py_sin i2 ;; ca2 <- py_cos a2 ;;
  let delta_north :=
    fmul (fmul half (fadd (fmul si1 ca1) (fmul si2 ca2))) rf in
  (* line 35 *)
  si1' <- py_sin i1 ;; sa1 <- py_sin a1 ;;
  si2' <- py_sin i2 ;; sa2 <- py_sin a2 ;;
  let delta_east :=
    fmul (fmul half (fadd (fmul si1' sa1) (fmul si2' sa2))) rf in
  (* line 36 *)
  ci1 <- py_cos i1 ;; ci2 <- py_cos i2 ;;
  let delta_tvd := fmul (fmul half (fadd ci1 ci2)) rf in
  Ok (delta_north, delta_east, delta_tvd).

Definition minimum_curvature (md1 inc1 azi1 md2 inc2 azi2 : pyfloat)
  : result (pyfloat * pyfloat * pyfloat * pyfloat) :=
  let i1 := radians inc1 in
  let a1 := radians azi1 in
  let i2 := radians inc2 in
  let a2 := radians azi2 in
  let delta_md := fsub md2 md1 in
  cos_beta <- cos_beta_raw i1 a1 i2 a2 ;;
  beta <- py_acos (clamp cos_beta) ;;
  rf <- ratio_factor beta ;;
  d <- displacements i1 a1 i2 a2 delta_md rf ;;
  let '(delta_north, delta_east, delta_tvd) := d in
  dls <- dogleg_severity beta delta_md ;;
  Ok (delta_north, delta_east, delta_tvd, dls).

(** *** The solver with the rounding of line 19

    On floats the value line 19 computes is not the exact one: it is off by
    the rounding of the four calls and the five operations, and it can
    leave [-1, 1] by a few units in the last place; the guards of lines
    22-23 are there for that.  [err] is the error of the evaluation, any
    real number; with no error the solver is [minimum_curvature]. *)
Definition cos_beta_computed (err : R) (i1 a1 i2 a2 : pyfloat)
  : result pyfloat :=
  cos_beta <- cos_beta_raw i1 a1 i2 a2 ;;
  Ok (fadd cos_beta (Fin err)).

Definition minimum_curvature_rounded (err : R)
  (md1 inc1 azi1 md2 inc2 azi2 : pyfloat)
  : result (pyfloat * pyfloat * pyfloat * pyfloat) :=
  let i1 := radians inc1 in
  let a1 := radians azi1 in
  let i2 := radians inc2 in
  let a2 := radians azi2 in
  let delta_md := fsub md2 md1 in
  cos_beta <- cos_beta_computed err i1 a1 i2 a2 ;;
  beta <- py_acos (clamp cos_beta) ;;
  rf <- ratio_factor beta ;;
  d <- displacements i1 a1 i2 a2 delta_md rf ;;
  let '(delta_north, delta_east, delta_tvd) := d in
  dls <- dogleg_severity beta delta_md ;;
  Ok (delta_north, delta_east, delta_tvd, dls).

(** What line 19 computes, and what line 25 hands to [acos], from the four
    angles in degrees. *)
Definition cos_beta_value (err : R) (inc1 azi1 inc2 azi2 : pyfloat)
  : result pyfloat :=
  cos_beta_computed err (radians inc1) (radians azi1)
                        (radians inc2) (radians azi2).

Definition acos_argument (err : R) (inc1 azi1 inc2 azi2 : pyfloat)
  : result pyfloat :=
  cos_beta <- cos_beta_value err inc1 azi1 inc2 azi2 ;;
  Ok (clamp cos_beta).

(** Is one of the four angles infinite? *)
Definition any_inf (inc1 azi1 inc2 azi2 : pyfloat) : bool :=
  is_inf inc1 || is_inf azi1 || is_inf inc2 || is_inf azi2.

(** *** The solver on finite numbers *)

(** Line 19 on real numbers (angles in radians). *)
Definition cos_beta_real (i1 a1 i2 a2 : R) : R :=
  cos (i2 + - i1) + - (sin i1 * sin i2 * (1 + - cos (a2 + - a1))).

(** Lines 22-23 on a real number. *)
Definition clamp_real (x : R) : R :=
  if Rltb 1 x then 1 else if Rltb x (-1) then -1 else x.

(** Lines 28-31 on a real number. *)
Definition ratio_real (beta : R) : R :=
  if Rltb beta (1 / 10000) then 1
  else 2 / beta * (if Reqb (beta / 2) (PI / 2) then tan_half_pi
                   else tan (beta / 2)).

(** The dogleg angle of two finite measurements (angles in degrees). *)
Definition beta_real (inc1 azi1 inc2 azi2 : R) : R :=
  acos (clamp_real (cos_beta_real (inc1 * (PI / 180)) (azi1 * (PI / 180))
                                  (inc2 * (PI / 180)) (azi2 * (PI / 180)))).

(** ** models.py: the rows the engine reads and writes *)

(** One row of the 'Survey' sheet, after [float(row[...])]. *)
Record Measurement : Type := mkMeasurement {
  m_md : pyfloat;
  m_inc : pyfloat;
  m_azi : pyfloat
}.

(** [TrajectoryStation]: the raw input and the computed position. *)
Record TrajectoryStation : Type := mkStation {
  md : pyfloat;
  inclination : pyfloat;
  azimuth : pyfloat;
  tvd : pyfloat;
  north : pyfloat;
  east : pyfloat;
  dls : pyfloat
}.

(** ** utils.py: the survey part of [process_survey_file] *)

(** A row of the data frame: its index label and its cells.  The label is
    the position of the row in the sheet; [sort_values] moves the rows and
    keeps their labels. *)
Definition Row : Type := (nat * Measurement)%type.

Fixpoint enumerate_from {A : Type} (k : nat) (l : list A) : list (nat * A) :=
  match l with
  | [] => []
  | x :: l' => (k, x) :: enumerate_from (S k) l'
  end.

(** [pd.read_excel]: rows labelled 0, 1, 2, ... *)
Definition read_rows (ms : list Measurement) : list Row := enumerate_from 0 ms.

Definition row_md (r : Row) : pyfloat := m_md (snd r).

(** Stable insertion of a row that precedes, in the sheet, all the rows of
    [l]: it passes the rows of strictly smaller depth and stops before the
    first row of equal or greater depth. *)
Fixpoint insert_row (r : Row) (l : list Row) : list Row :=
  match l with
  | [] => [r]
  | r' :: l' => if flt (row_md r') (row_md r) then r' :: insert_row r l'
                else r :: r' :: l'
  end.

Fixpoint insertion_sort (l : list Row) : list Row :=
  match l with
  | [] => []
  | r :: l' => insert_row r (insertion_sort l')
  end.

(** [df.sort_values('MD')]: ascending by depth, rows with a NaN depth last
    (pandas' [na_position='last']).  Rows of equal depth are kept in sheet
    order here; whatever order the sort gives them, it sees only the depth
    column, so it treats two sheets with the same column of depths
    alike. *)
Definition sort_values (l : list Row) : list Row :=
  insertion_sort (filter (fun r => negb (is_nan (row_md r))) l)
  ++ filter (fun r => is_nan (row_md r)) l.

(** The loop state of lines 79-84. *)
Record LoopState : Type := mkLoop {
  current_n : pyfloat;
  current_e : pyfloat;
  current_tvd : pyfloat;
  prev_md : pyfloat;
  prev_inc : pyfloat;
  prev_azi : pyfloat;
  stations_to_create : list TrajectoryStation
}.

Definition initial_state : LoopState :=
  mkLoop (Fin 0) (Fin 0) (Fin 0) (Fin 0) (Fin 0) (Fin 0) [].

(** One iteration of the loop of lines 86-106. *)
Definition loop_body (st : LoopState) (r : Row) : result LoopState :=
  let index := fst r in
  let md := m_md (snd r) in
  let inc := m_inc (snd r) in
  let azi := m_azi (snd r) in
  if Nat.eqb index 0 && feq md (Fin 0) then
    (* tie-in at surface: the totals are left alone *)
    Ok (mkLoop (current_n st) (current_e st) (current_tvd st) md inc azi
          (stations_to_create st ++
           [mkStation md inc azi (current_tvd st) (current_n st) (current_e st)
              (Fin 0)]))
  else
    d <- minimum_curvature (prev_md st) (prev_inc st) (prev_azi st) md inc azi ;;
    let '(d_n, d_e, d_tvd, dls) := d in
    let n := fadd (current_n st) d_n in
    let e := fadd (current_e st) d_e in
    let t := fadd (current_tvd st) d_tvd in
    Ok (mkLoop n e t md inc azi
          (stations_to_create st ++ [mkStation md inc azi t n e dls])).

Fixpoint run_loop (st : LoopState) (rows : list Row) : result LoopState :=
  match rows with
  | [] => Ok st
  | r :: rows' => st' <- loop_body st r ;; run_loop st' rows'
  end.

(** Lines 76-108: sort, iterate, and hand the stations to [bulk_create]. *)
Definition accumulate (ms : list Measurement) : result (list TrajectoryStation) :=
  st <- run_loop initial_state (sort_values (read_rows ms)) ;;
  Ok (stations_to_create st).

(** Does the row carry an infinite inclination or azimuth? *)
Definition infinite_angle (m : Measurement) : bool :=
  is_inf (m_inc m) || is_inf (m_azi m).

(** *** The accumulation, as the specification tells it *)

(** The test of line 91 on a row. *)
Definition is_tie_in (r : Row) : bool :=
  Nat.eqb (fst r) 0 && feq (m_md (snd r)) (Fin 0).

(** The implicit datum the first solver call starts from (line 80). *)
Definition zero_datum : Measurement := mkMeasurement (Fin 0) (Fin 0) (Fin 0).

(** The station of a tie-in: zero offsets, zero dogleg severity. *)
Definition tie_in_station (m : Measurement) : TrajectoryStation :=
  mkStation (m_md m) (m_inc m) (m_azi m) (Fin 0) (Fin 0) (Fin 0) (Fin 0).

(** Every measurement is solved against the one before it, [prev] for the
    first, and the increments are added to the running totals [n], [e],
    [t]; the dogleg severity is that of the segment. *)
Fixpoint solve_from (prev : Measurement) (n e t : pyfloat)
  (ms : list Measurement) : result (list TrajectoryStation) :=
  match ms with
  | [] => Ok []
  | m :: ms' =>
      d <- minimum_curvature (m_md prev) (m_inc prev) (m_azi prev)
                             (m_md m) (m_inc m) (m_azi m) ;;
      let '(d_n, d_e, d_tvd, dls) := d in
      let n' := fadd n d_n in
      let e' := fadd e d_e in
      let t' := fadd t d_tvd in
      rest <- solve_from m n' e' t' ms' ;;
      Ok (mkStation (m_md m) (m_inc m) (m_azi m) t' n' e' dls :: rest)
  end.

(** Strictly increasing depths, measurement after measurement. *)
Definition lt_depth (a b : Measurement) : Prop :=
  flt (m_md a) (m_md b) = true.

Definition strictly_deeper (ms : list Measurement) : Prop :=
  Sorted lt_depth ms.

(** Depths are not negative. *)
Definition from_surface (ms : list Measurement) : Prop :=
  Forall (fun m => fle (Fin 0) (m_md m) = true) ms.

(** A measurement at depth zero has a finite inclination and azimuth. *)
Definition surface_angles_finite (ms : list Measurement) : Prop :=
  Forall (fun m => feq (m_md m) (Fin 0) = true ->
                   is_finite (m_inc m) && is_finite (m_azi m) = true) ms.

(** Not deeper: the order [sort_values] leaves the rows in. *)
Definition le_depth (a b : Measurement) : Prop :=
  flt (m_md b) (m_md a) = false.

Definition le_row (a b : Row) : Prop := le_depth (snd a) (snd b).

(** The dogleg severity of the [k]-th station of a result, if any. *)
Definition dls_of_station (k : nat) (r : result (list TrajectoryStation))
  : option pyfloat :=
  match r with
  | Ok sts => option_map dls (nth_error sts k)
  | Raise _ => None
  end.

(** ** Cells of a sheet, and [float(...)] on them *)

(** What pandas hands over for one cell: text, a number (an empty cell is
    the number NaN), a truth value, or an object [float] rejects with
    [TypeError] (a date, [None]), of which only its [str] matters here.  A
    text is held as its UTF-8 encoding. *)
Inductive cell : Type :=
| CellStr (s : string)
| CellNum (x : pyfloat)
| CellBool (b : bool)
| CellOther (text : string).

Definition chars : Type := list ascii.

Definition digit_of (c : ascii) : option Z :=
  let n := nat_of_ascii c in
  if (48 <=? n)%nat && (n <=? 57)%nat then Some (Z.of_nat (n - 48)) else None.

(** The code points of a text.  Bytes that are not the UTF-8 encoding of
    a text stand for U+FFFD, which [float] rejects, and end the decoding. *)
Definition continuation (c : ascii) : option N :=
  let n := N_of_ascii c in
  if ((128 <=? n) && (n <? 192))%N then Some (n - 128)%N else None.

Fixpoint code_points (s : chars) : list N :=
  match s with
  | [] => []
  | b0 :: s1 =>
      let n0 := N_of_ascii b0 in
      if (n0 <? 128)%N then n0 :: code_points s1
      else if (n0 <? 192)%N then [65533%N]
      else
        match s1 with
        | b1 :: s2 =>
            match continuation b1 with
            | Some n1 =>
                if (n0 <? 224)%N
                then ((n0 - 192) * 64 + n1)%N :: code_points s2
                else
                  match s2 with
                  | b2 :: s3 =>
                      match continuation b2 with
                      | Some n2 =>
                          if (n0 <? 240)%N
                          then ((n0 - 224) * 4096 + n1 * 64 + n2)%N
                               :: code_points s3
                          else
                            match s3 with
                            | b3 :: s4 =>
                                match continuation b3 with
                                | Some n3 =>
                                    ((n0 - 240) * 262144 + n1 * 4096
                                     + n2 * 64 + n3)%N :: code_points s4
                                | None => [65533%N]
                                end
                            | [] => [65533%N]
                            end
                      | None => [65533%N]
                      end
                  | [] => [65533%N]
                  end
            | None => [65533%N]
            end
        | [] => [65533%N]
        end
  end.

(** The white space beyond ASCII ([str.isspace]): next line, no-break
    space, and the spaces of U+1680, U+2000 to U+200A, U+2028, U+2029,
    U+202F, U+205F and U+3000. *)
Definition unicode_space (c : N) : bool :=
  ((c =? 133) || (c =? 160) || (c =? 5760)
   || ((8192 <=? c) && (c <=? 8202))
   || (c =? 8232) || (c =? 8233) || (c =? 8239) || (c =? 8287)
   || (c =? 12288))%N.

(** The zero of every run of ten decimal digits beyond ASCII (Unicode 14:
    Arabic-Indic, Devanagari, fullwidth, ...). *)
Definition decimal_zeros : list N :=
  [1632; 1776; 1984; 2406; 2534; 2662; 2790; 2918; 3046; 3174; 3302; 3430;
   3558; 3664; 3792; 3872; 4160; 4240; 6112; 6160; 6470; 6608; 6784; 6800;
   6992; 7088; 7232; 7248; 42528; 43216; 43264; 43472; 43504; 43600; 44016;
   65296; 66720; 68912; 69734; 69872; 69942; 70096; 70384; 70736; 70864;
   71248; 71360; 71472; 71904; 72016; 72784; 73040; 73120; 92768; 92864;
   93008; 120782; 120792; 120802; 120812; 120822; 123200; 123632; 125264;
   130032]%N.

Definition decimal_of (c : N) : option N :=
  match find (fun z => ((z <=? c) && (c <? z + 10))%N) decimal_zeros with
  | Some z => Some (c - z)%N
  | None => None
  end.

(** What [float] does to a text that is not pure ASCII before it parses
    it: white space becomes a blank, a decimal digit of any script the
    ASCII digit, and the first other character beyond ASCII a question
    mark that ends the text. *)
Fixpoint to_ascii (l : list N) : chars :=
  match l with
  | [] => []
  | c :: l' =>
      if (c <? 127)%N then ascii_of_N c :: to_ascii l'
      else if unicode_space c then " "%char :: to_ascii l'
      else
        match decimal_of c with
        | Some d => ascii_of_N (48 + d) :: to_ascii l'
        | None => ["?"%char]
        end
  end.

Definition ascii_text (s : chars) : chars :=
  let l := code_points s in
  if forallb (fun c => (c <? 128)%N) l then s else to_ascii l.

(** The white space [float] strips from the ends: the ASCII blanks. *)
Definition is_space (c : ascii) : bool :=
  let n := nat_of_ascii c in
  (n =? 32)%nat || ((9 <=? n)%nat && (n <=? 13)%nat).

Definition lower (c : ascii) : ascii :=
  let n := nat_of_ascii c in
  if (65 <=? n)%nat && (n <=? 90)%nat then ascii_of_nat (n + 32) else c.

Fixpoint lstrip (s : chars) : chars :=
  match s with
  | c :: s' => if is_space c then lstrip s' else s
  | [] => []
  end.

Definition strip (s : chars) : chars := rev (lstrip (rev (lstrip s))).

(** The digits after the first one of a digit part; one underscore is
    allowed between two digits.  Returns the accumulated value, the number
    of digits read and the rest of the text. *)
Fixpoint digits_tail (acc : Z) (cnt : nat) (s : chars) : Z * nat * chars :=
  match s with
  | c :: s' =>
      match digit_of c with
      | Some d => digits_tail (10 * acc + d)%Z (S cnt) s'
      | None =>
          if Ascii.eqb c "_"%char then
            match s' with
            | c2 :: s'' =>
                match digit_of c2 with
                | Some d => digits_tail (10 * acc + d)%Z (S cnt) s''
                | None => (acc, cnt, s)
                end
            | [] => (acc, cnt, s)
            end
          else (acc, cnt, s)
      end
  | [] => (acc, cnt, s)
  end.

Definition digitpart (acc : Z) (s : chars) : option (Z * nat * chars) :=
  match s with
  | c :: s' =>
      match digit_of c with
      | Some d => Some (digits_tail (10 * acc + d)%Z 1 s')
      | None => None
      end
  | [] => None
  end.

(** [sign]: true for a leading minus. *)
Definition read_sign (s : chars) : bool * chars :=
  match s with
  | c :: s' =>
      if Ascii.eqb c "-"%char then (true, s')
      else if Ascii.eqb c "+"%char then (false, s')
      else (false, s)
  | [] => (false, s)
  end.

(** [number]: mantissa as an integer and the count of fraction digits. *)
Definition read_number (s : chars) : option (Z * nat * chars) :=
  match digitpart 0 s with
  | Some (m, _, rest) =>
      match rest with
      | c :: rest' =>
          if Ascii.eqb c "."%char then
            match digitpart m rest' with
            | Some r => Some r
            | None => Some (m, 0%nat, rest')
            end
          else Some (m, 0%nat, rest)
      | [] => Some (m, 0%nat, rest)
      end
  | None =>
      match s with
      | c :: s' => if Ascii.eqb c "."%char then digitpart 0 s' else None
      | [] => None
      end
  end.

(** [exponent]: absent, or a well-formed [e[sign]digits]. *)
Definition read_exponent (s : chars) : option (Z * chars) :=
  match s with
  | c :: s' =>
      if Ascii.eqb (lower c) "e"%char then
        let (neg, s'') := read_sign s' in
        match digitpart 0 s'' with
        | Some (e, _, rest) => Some (if neg then (- e)%Z else e, rest)
        | None => None
        end
      else Some (0%Z, s)
  | [] => Some (0%Z, s)
  end.

Definition chars_eqb (a b : chars) : bool :=
  String.eqb (string_of_list_ascii a) (string_of_list_ascii b).

(** What a well-formed float literal denotes. *)
Inductive literal : Type :=
| LitInf (negative : bool)
| LitNaN
| LitDec (negative : bool) (mantissa exponent : Z).

(** The grammar of [float(s)] in the language reference: surrounding white
    space, a sign, then [inf], [infinity], [nan] (any case) or a decimal
    number with an optional exponent. *)
Definition read_literal (s : chars) : option literal :=
  let (neg, body) := read_sign (strip s) in
  let word := map lower body in
  if chars_eqb word (list_ascii_of_string "inf")
     || chars_eqb word (list_ascii_of_string "infinity") then Some (LitInf neg)
  else if chars_eqb word (list_ascii_of_string "nan") then Some LitNaN
  else
    match read_number body with
    | Some (m, nfrac, rest) =>
        match read_exponent rest with
        | Some (e, []) => Some (LitDec neg m (e - Z.of_nat nfrac))
        | _ => None
        end
    | None => None
    end.

(** The least magnitude that rounds to infinity: the largest float plus
    half a unit in its last place, 2^1024 - 2^970. *)
Definition overflow_threshold : R := IZR (2 ^ 1024 - 2 ^ 970).

(** The value of a literal: a decimal number too large for a float is an
    infinity.  (The mantissa is not negative: the sign is apart.) *)
Definition literal_value (l : literal) : pyfloat :=
  match l with
  | LitInf neg => Inf neg
  | LitNaN => NaN
  | LitDec neg m e =>
      let v := IZR m * powerRZ 10 e in
      if Rleb overflow_threshold v then Inf neg
      else Fin (if neg then - v else v)
  end.

(** [float(s)] for a string. *)
Definition float_of_chars (s : chars) : result pyfloat :=
  match read_literal (ascii_text s) with
  | Some l => Ok (literal_value l)
  | None => Raise ValueError
  end.

Definition py_float (raw : cell) : result pyfloat :=
  match raw with
  | CellStr s => float_of_chars (list_ascii_of_string s)
  | CellNum x => Ok x
  | CellBool b => Ok (Fin (if b then 1 else 0))
  | CellOther _ => Raise TypeError
  end.

(** Two texts beyond ASCII: a no-break space (bytes 194 160), then 12.5; *)
Definition nbsp_12_5 : string :=
  String (ascii_of_nat 194) (String (ascii_of_nat 160) "12.5").

(** the Arabic-Indic digits one and two (bytes 217 161 and 217 162). *)
Definition arabic_12 : string :=
  String (ascii_of_nat 217) (String (ascii_of_nat 161)
    (String (ascii_of_nat 217) (String (ascii_of_nat 162) EmptyString))).

(** [s.replace(',', '.')] *)
Definition replace_comma (s : string) : string :=
  string_of_list_ascii
    (map (fun c => if Ascii.eqb c ","%char then "."%char else c)
         (list_ascii_of_string s)).

(** ** utils.py: the 'Mechanical' part of [process_survey_file] *)

(** Lines 123-124: a text cell gets its commas turned into points. *)
Definition decimal_point (raw_diameter : cell) : cell :=
  match raw_diameter with
  | CellStr s => CellStr (replace_comma s)
  | other => other
  end.

(** Lines 123-131: the body of the [try]. *)
Definition parse_diameter (raw_diameter : cell) : result pyfloat :=
  let raw_diameter := decimal_point raw_diameter in
  diameter_val <- py_float raw_diameter ;;
  if fgt diameter_val (Fin 100) then py_div diameter_val (Fin 1000)
  else Ok diameter_val.

(** Lines 121-134: [except (ValueError, TypeError)] gives the fallback,
    anything else is not caught here. *)
Definition sanitize_diameter (raw_diameter : cell) : result pyfloat :=
  match parse_diameter raw_diameter with
  | Raise ValueError | Raise TypeError => Ok (Fin (85 / 10))
  | other => other
  end.

Record MechRow : Type := mkMechRow {
  Item : string;
  Top_MD : pyfloat;
  Bottom_MD : pyfloat;
  Diameter : cell;
  Color : cell
}.

(** [BoreholeGeometry] of models.py. *)
Record BoreholeGeometry : Type := mkGeometry {
  item_type : string;
  start_md : pyfloat;
  end_md : pyfloat;
  diameter : pyfloat;
  color : string
}.

(** models.py, line 132: the default of the [color] field, used when a
    [BoreholeGeometry] is built without a colour. *)
Definition color_field_default : string := "#808080".

Inductive Status : Type := PENDING | PROCESSED | ERROR.

(** The workbook, as [process_survey_file] sees it.  [Survey] is [None]
    when the sheet is absent or lacks one of the columns MD, Inc, Azi:
    lines 68-74 raise [ValueError] either way.  [Mechanical] is [None]
    when the sheet is absent or lacks one of its five columns: lines 112
    and 116 skip it either way. *)
Record Workbook : Type := mkWorkbook {
  Survey : option (list Measurement);
  Mechanical : option (list MechRow)
}.

(** [bulk_create] binds a NaN as NULL, and the insert fails on a column
    that does not take NULL.  models.py, lines 96-104: [md], [inclination]
    and [azimuth] do not, the four computed fields do. *)
Definition station_storable (s : TrajectoryStation) : bool :=
  negb (is_nan (md s)) && negb (is_nan (inclination s))
  && negb (is_nan (azimuth s)).

(** models.py, lines 129-131: no float column of a geometry record takes
    NULL. *)
Definition geometry_storable (g : BoreholeGeometry) : bool :=
  negb (is_nan (start_md g)) && negb (is_nan (end_md g))
  && negb (is_nan (diameter g)).

(** What one call of [process_survey_file] leaves behind. *)
Record ImportOutcome : Type := mkOutcome {
  returned : bool;
  status : Status;
  stations_saved : list TrajectoryStation;
  geometry_saved : list BoreholeGeometry
}.

Section Formatting.

(** The text Python prints for a finite float ([repr]); the engine only
    passes it along. *)
Variable repr_finite : R -> string.

Definition str_float (x : pyfloat) : string :=
  match x with
  | Fin r => repr_finite r
  | Inf false => "inf"
  | Inf true => "-inf"
  | NaN => "nan"
  end.

(** [str(row['Color'])] *)
Definition py_str (c : cell) : string :=
  match c with
  | CellStr s => s
  | CellNum x => str_float x
  | CellBool true => "True"
  | CellBool false => "False"
  | CellOther text => text
  end.

(** Lines 118-143: one row of the 'Mechanical' sheet. *)
Definition sanitize_row (row : MechRow) : result BoreholeGeometry :=
  diameter_val <- sanitize_diameter (Diameter row) ;;
  Ok (mkGeometry (Item row) (Top_MD row) (Bottom_MD row) diameter_val
        (py_str (Color row))).

Fixpoint sanitize_rows (rows : list MechRow) : result (list BoreholeGeometry) :=
  match rows with
  | [] => Ok []
  | row :: rows' =>
      g <- sanitize_row row ;;
      gs <- sanitize_rows rows' ;;
      Ok (g :: gs)
  end.

(** Lines 108-158, for the result of the loop: the two [bulk_create] and
    the outcome of the [try] block and its [except Exception].  The
    stations are saved (line 108) before the 'Mechanical' sheet is read;
    each [bulk_create] saves all its objects or, when one of them cannot
    be stored, none and raises. *)
Definition outcome_of_loop (loop : result (list TrajectoryStation))
  (mech : option (list MechRow)) : ImportOutcome :=
  match loop with
  | Raise _ => mkOutcome false ERROR [] []
  | Ok stations =>
      if forallb station_storable stations then
        match mech with
        | None => mkOutcome true PROCESSED stations []
        | Some df_mech =>
            match sanitize_rows df_mech with
            | Raise _ => mkOutcome false ERROR stations []
            | Ok geometries =>
                if forallb geometry_storable geometries
                then mkOutcome true PROCESSED stations geometries
                else mkOutcome false ERROR stations []        (* line 144 *)
            end
        end
      else mkOutcome false ERROR [] []                       (* line 108 *)
  end.

(** [process_survey_file] *)
Definition process_survey_file (xls : Workbook) : ImportOutcome :=
  match Survey xls with
  | None => mkOutcome false ERROR [] []           (* lines 68-74 *)
  | Some df_survey => outcome_of_loop (accumulate df_survey) (Mechanical xls)
  end.

End Formatting.

(** ** visualizer.py: [get_path_segment] *)

(** One entry of the four parallel lists [final_e], [final_n], [final_t],
    [final_m]. *)
Record Point : Type := mkPoint {
  p_e : pyfloat;
  p_n : pyfloat;
  p_t : pyfloat;
  p_m : pyfloat
}.

Definition station_point (s : TrajectoryStation) : Point :=
  mkPoint (east s) (north s) (tvd s) (md s).

(** The order numpy sorts and searches floats by: NaN after everything. *)
Definition np_lt (a b : pyfloat) : bool :=
  flt a b || (is_nan b && negb (is_nan a)).

(** [np.searchsorted(a, v)] on an ascending array: the index [i] with
    [a[i-1] < v <= a[i]], that is the length of the run of leading
    elements below [v]. *)
Fixpoint searchsorted (a : list pyfloat) (v : pyfloat) : nat :=
  match a with
  | x :: a' => if np_lt x v then S (searchsorted a' v) else 0%nat
  | [] => 0%nat
  end.

Fixpoint last_error {A : Type} (l : list A) : option A :=
  match l with
  | [] => None
  | [x] => Some x
  | _ :: l' => last_error l'
  end.

(** [a + (b - a) * factor] *)
Definition lerp (a b factor : pyfloat) : pyfloat :=
  fadd a (fmul (fsub b a) factor).

(** Lines 76-85 and 95-103: the point to add at depth [depth], if the
    station before it has a successor. *)
Definition interpolated (stations : list TrajectoryStation) (depth : pyfloat)
  : list Point :=
  let idx_prev := (Z.of_nat (searchsorted (map md stations) depth) - 1)%Z in
  if (0 <=? idx_prev)%Z && (idx_prev <? Z.of_nat (List.length stations) - 1)%Z then
    match nth_error stations (Z.to_nat idx_prev),
          nth_error stations (Z.to_nat (idx_prev + 1)) with
    | Some s0, Some s1 =>
        let m0 := md s0 in
        let m1 := md s1 in
        let factor :=
          if fgt m1 m0 then fdiv (fsub depth m0) (fsub m1 m0) else Fin 0 in
        [mkPoint (lerp (east s0) (east s1) factor)
                 (lerp (north s0) (north s1) factor)
                 (lerp (tvd s0) (tvd s1) factor)
                 depth]
    | _, _ => []   (* not reached: both indices are inside the array *)
    end
  else [].

(** Line 64: the mask. *)
Definition in_range (start_md end_md : pyfloat) (s : TrajectoryStation) : bool :=
  fge (md s) start_md && fle (md s) end_md.

(** Lines 64-68: the stations inside the range. *)
Definition segment (stations : list TrajectoryStation)
  (start_md end_md : pyfloat) : list Point :=
  map station_point (filter (in_range start_md end_md) stations).

(** Lines 71-91: the four lists after steps 2 and 3, zipped. *)
Definition path_start (stations : list TrajectoryStation)
  (start_md end_md : pyfloat) : list Point :=
  let seg := segment stations start_md end_md in
  let first :=
    match seg with
    | [] => interpolated stations start_md
    | p :: _ => if fgt (p_m p) start_md then interpolated stations start_md
                else []
    end in
  first ++ seg.

(** The four lists at line 105, zipped. *)
Definition path_points (stations : list TrajectoryStation)
  (start_md end_md : pyfloat) : list Point :=
  let final := path_start stations start_md end_md in
  let last :=
    match last_error final with
    | Some p => if flt (p_m p) end_md then interpolated stations end_md else []
    | None => []
    end in
  final ++ last.

Definition get_path_segment (stations : list TrajectoryStation)
  (start_md end_md : pyfloat)
  : list pyfloat * list pyfloat * list pyfloat :=
  let final := path_points stations start_md end_md in
  (map p_e final, map p_n final, map p_t final).

(** The polyline as a sequence of (east, north, tvd). *)
Definition polyline (arrays : list pyfloat * list pyfloat * list pyfloat)
  : list (pyfloat * pyfloat * pyfloat) :=
  let '(e, n, t) := arrays in
  map (fun ent => (fst (fst ent), snd (fst ent), snd ent))
      (combine (combine e n) t).

(** *** What the interpolator is meant to return at a depth *)

Definition position (s : TrajectoryStation) : pyfloat * pyfloat * pyfloat :=
  (east s, north s, tvd s).

(** The linear interpolation of two stations at [depth], with the fraction
    [(depth - depth_lo) / (depth_hi - depth_lo)]. *)
Definition interpolation (s0 s1 : TrajectoryStation) (depth : pyfloat)
  : pyfloat * pyfloat * pyfloat :=
  let fraction := fdiv (fsub depth (md s0)) (fsub (md s1) (md s0)) in
  (lerp (east s0) (east s1) fraction,
   lerp (north s0) (north s1) fraction,
   lerp (tvd s0) (tvd s1) fraction).

(** The position on the station path at [depth]: the interpolation of the
    first pair of consecutive stations that brackets it. *)
Fixpoint position_at (sts : list TrajectoryStation) (depth : pyfloat)
  : option (pyfloat * pyfloat * pyfloat) :=
  match sts with
  | [] => None
  | s0 :: rest =>
      match rest with
      | [] => if feq (md s0) depth then Some (position s0) else None
      | s1 :: _ =>
          if fle (md s0) depth && fle depth (md s1)
          then Some (interpolation s0 s1 depth)
          else position_at rest depth
      end
  end.

(** [p] is the position of the path at [depth]: it is what [position_at]
    finds, and it is the interpolation of any two consecutive stations
    that bracket [depth]. *)
Definition interpolates (sts : list TrajectoryStation) (depth : pyfloat)
  (p : pyfloat * pyfloat * pyfloat) : Prop :=
  position_at sts depth = Some p
  /\ forall pre s0 s1 post,
       sts = pre ++ s0 :: s1 :: post ->
       fle (md s0) depth = true -> fle depth (md s1) = true ->
       p = interpolation s0 s1 depth.

(** Depth and position of the station are finite numbers. *)
Definition finite_position (s : TrajectoryStation) : bool :=
  is_finite (md s) && is_finite (east s) && is_finite (north s)
  && is_finite (tvd s).

Definition lt_md (s t : TrajectoryStation) : Prop :=
  flt (md s) (md t) = true.

(** Strictly increasing depths, station after station. *)
Definition increasing_depths (sts : list TrajectoryStation) : Prop :=
  Sorted lt_md sts.

(** A position, tagged with the depth it belongs to. *)
Definition point_of (pos : pyfloat * pyfloat * pyfloat) (depth : pyfloat)
  : Point :=
  let '(e, n, t) := pos in mkPoint e n t depth.

(** Every station of the list has a finite depth and position. *)
Definition all_finite (sts : list TrajectoryStation) : Prop :=
  Forall (fun x => finite_position x = true) sts.

(** The last station lies at or beyond depth [e]. *)
Definition covered (sts : list TrajectoryStation) (e : R) : Prop :=
  exists l, last_error sts = Some l /\ fle (Fin e) (md l) = true.

Definition coords (p : Point) : pyfloat * pyfloat * pyfloat :=
  (p_e p, p_n p, p_t p).

(** ** visualizer.py: [generate_3d_plot] *)

(** The rows of the two tables that belong to the trajectory, in the order
    they were stored. *)
Record Trajectory : Type := mkTrajectory {
  name : string;
  stations : list TrajectoryStation;
  geometry : list BoreholeGeometry
}.

(** [.order_by(column)]: ascending in the column.  Rows that are equal in
    the column come in an order of the database's choosing; this sort
    keeps them in storage order. *)
Fixpoint insert_by {A : Type} (key : A -> pyfloat) (x : A) (l : list A)
  : list A :=
  match l with
  | [] => [x]
  | y :: l' => if flt (key y) (key x) then y :: insert_by key x l'
               else x :: y :: l'
  end.

Fixpoint sort_by {A : Type} (key : A -> pyfloat) (l : list A) : list A :=
  match l with
  | [] => []
  | x :: l' => insert_by key x (sort_by key l')
  end.

(** Line 12 and line 13. *)
Definition order_by_md : list TrajectoryStation -> list TrajectoryStation :=
  sort_by md.

Definition order_by_start_md : list BoreholeGeometry -> list BoreholeGeometry :=
  sort_by start_md.

(** A trace of the figure.  A [Surface] is kept as what
    [create_3d_cylinder] is called with: centre line, radius, colour values
    and name; the mesh it spans around the centre line is rendering. *)
Inductive Trace : Type :=
| Surface (x y z : list pyfloat) (r : pyfloat) (color_vals : list pyfloat)
    (label : string)
| Scatter3d (label : string) (marker_size : nat) (marker_color : string).

Inductive Plot : Type :=
| NoData                         (* the "Sin datos de survey" message *)
| Figure (traces : list Trace).

Definition VISUAL_EXAGGERATION_FACTOR : pyfloat := Fin 50.

Definition create_3d_cylinder (x y z : list pyfloat) (r : pyfloat)
  (color_vals : list pyfloat) (label : string) : Trace :=
  Surface x y z r color_vals label.

Definition quote : string := String "034"%char EmptyString.

Section Compose.

Variable repr_finite : R -> string.

(** Does plotly take the text for a colour?  (A hex code, an rgb or hsl
    form, a CSS colour name.) *)
Variable plotly_colour : string -> bool.

(** [go.Scatter3d(..., marker=dict(size=..., color=...))]: plotly
    validates the colour and raises [ValueError] for a text that is none. *)
Definition scatter3d (label : string) (marker_size : nat)
  (marker_color : string) : result Trace :=
  if plotly_colour marker_color then Ok (Scatter3d label marker_size marker_color)
  else Raise ValueError.

(** Line 131: the item type, then the diameter and an inch mark in
    parentheses. *)
Definition item_label (item : BoreholeGeometry) : string :=
  (item_type item ++ " (" ++ str_float repr_finite (diameter item)
   ++ quote ++ ")")%string.

(** Line 142: the colour of the legend marker. *)
Definition marker_colour (item : BoreholeGeometry) : string :=
  if String.eqb (color item) EmptyString then "blue" else color item.

Definition mem_string (s : string) (l : list string) : bool :=
  existsb (String.eqb s) l.

(** Lines 124-144: the body of [for item in geometry], on the traces added
    so far and the set [legend_items]. *)
Definition add_item (sts : list TrajectoryStation)
  (acc : list Trace * list string) (item : BoreholeGeometry)
  : result (list Trace * list string) :=
  let (traces, legend_items) := acc in
  let '(s_e, s_n, s_t) := get_path_segment sts (start_md item) (end_md item) in
  if (1 <? List.length s_e)%nat then
    let radius_ft := fdiv (fdiv (diameter item) (Fin 2)) (Fin 12) in
    let r_viz := fmul radius_ft VISUAL_EXAGGERATION_FACTOR in
    let label := item_label item in
    let cyl := create_3d_cylinder s_e s_n s_t r_viz s_t label in
    let traces := traces ++ [cyl] in
    if negb (mem_string label legend_items) then
      marker <- scatter3d label 12 (marker_colour item) ;;
      Ok (traces ++ [marker], label :: legend_items)
    else Ok (traces, legend_items)
  else Ok (traces, legend_items).

(** Lines 122-144: the loop; an exception ends it. *)
Fixpoint add_items (sts : list TrajectoryStation)
  (acc : list Trace * list string) (geom : list BoreholeGeometry)
  : result (list Trace * list string) :=
  match geom with
  | [] => Ok acc
  | item :: geom' => acc' <- add_item sts acc item ;; add_items sts acc' geom'
  end.

Definition generate_3d_plot (trajectory : Trajectory) : result Plot :=
  let sts := order_by_md (stations trajectory) in
  let geom := order_by_start_md (geometry trajectory) in
  match sts with
  | [] => Ok NoData
  | _ :: _ =>
      match geom with
      | [] =>
          let r_viz :=
            fmul (fdiv (fdiv (Fin (85 / 10)) (Fin 2)) (Fin 12))
                 VISUAL_EXAGGERATION_FACTOR in
          let cyl :=
            create_3d_cylinder (map east sts) (map north sts) (map tvd sts)
              r_viz (map tvd sts) "Open Hole" in
          marker <- scatter3d ("Open Hole 8.5" ++ quote) 15 "#1f77b4" ;;
          Ok (Figure [cyl; marker])
      | _ :: _ =>
          acc <- add_items sts ([], []) geom ;;
          Ok (Figure (fst acc))
      end
  end.

(** The descriptor a record is drawn with: its cylinder. *)
Definition cylinder_of (sts : list TrajectoryStation) (item : BoreholeGeometry)
  : Trace :=
  let '(s_e, s_n, s_t) := get_path_segment sts (start_md item) (end_md item) in
  create_3d_cylinder s_e s_n s_t
    (fmul (fdiv (fdiv (diameter item) (Fin 2)) (Fin 12))
          VISUAL_EXAGGERATION_FACTOR)
    s_t (item_label item).

End Compose.

(** A validator for the examples: it takes three colours plotly takes and,
    like plotly, rejects the text [nan]; the examples use no other colour
    text. *)
Definition three_colours (c : string) : bool :=
  String.eqb c "red" || String.eqb c "blue" || String.eqb c "#1f77b4".

(** Does the sub-path of the record have at least two points? *)
Definition has_path (sts : list TrajectoryStation) (item : BoreholeGeometry)
  : bool :=
  (1 <? List.length (path_points sts (start_md item) (end_md item)))%nat.

Definition is_surface (t : Trace) : bool :=
  match t with
  | Surface _ _ _ _ _ _ => true
  | Scatter3d _ _ _ => false
  end.

(** The cylinders of a figure, in the order they were added. *)
Definition surfaces (p : Plot) : list Trace :=
  match p with
  | NoData => []
  | Figure traces => filter is_surface traces
  end.

(** ** Further notions used in the statements *)

(** The measurement a station was computed from. *)
Definition raw_of (s : TrajectoryStation) : Measurement :=
  mkMeasurement (md s) (inclination s) (azimuth s).

(** Stations in ascending depth order: none is shallower than one before
    it. *)
Definition ascending (sts : list TrajectoryStation) : Prop :=
  StronglySorted (fun a b => flt (md b) (md a) = false) sts.

(** A finite measurement of a vertical hole: inclination zero. *)
Definition vertical (m : Measurement) : bool :=
  match m_md m, m_inc m, m_azi m with
  | Fin _, Fin i, Fin _ => Reqb i 0
  | _, _, _ => false
  end.

(** The station of a vertical hole at that measurement: the true vertical
    depth is the measured depth, nothing moves sideways. *)
Definition vertical_station (m : Measurement) : TrajectoryStation :=
  mkStation (m_md m) (m_inc m) (m_azi m) (m_md m) (Fin 0) (Fin 0) (Fin 0).

(** The traces of a figure, in the order [fig.add_trace] got them. *)
Definition traces_of (p : Plot) : list Trace :=
  match p with
  | NoData => []
  | Figure traces => traces
  end.

(** The names of the legend markers among the traces, and the names of the
    cylinders. *)
Definition legend_names (traces : list Trace) : list string :=
  flat_map (fun t => match t with
                     | Scatter3d label _ _ => [label]
                     | Surface _ _ _ _ _ _ => []
                     end) traces.

Definition cylinder_names (traces : list Trace) : list string :=
  flat_map (fun t => match t with
                     | Surface _ _ _ _ _ label => [label]
                     | Scatter3d _ _ _ => []
                     end) traces.

(** What the loop of lines 122-144 keeps true of the traces added so far
    and of the set [legend_items]. *)
Definition legend_invariant (acc : list Trace * list string) : Prop :=
  NoDup (legend_names (fst acc))
  /\ (forall l, In l (snd acc) <-> In l (legend_names (fst acc)))
  /\ (forall l, In l (cylinder_names (fst acc))
                <-> In l (legend_names (fst acc))).

(** Line 52: the outer diameter, in inches, that the hover text of a
    cylinder of radius [r] shows. *)
Definition hover_od (r : pyfloat) : pyfloat :=
  fmul (fmul (fdiv r VISUAL_EXAGGERATION_FACTOR) (Fin 12)) (Fin 2).

Definition trace_od (t : Trace) : option pyfloat :=
  match t with
  | Surface _ _ _ r _ _ => Some (hover_od r)
  | Scatter3d _ _ _ => None
  end.

(** *** The mesh of [create_3d_cylinder] *)

Definition RADIAL_RESOLUTION : nat := 20.

(** [np.linspace(start, stop, num)]: [num] evenly spaced values, the two
    ends included. *)
Definition linspace (start stop : R) (num : nat) : list R :=
  map (fun j => start + INR j * ((stop - start) / INR (num - 1)))
      (seq 0 num).

(** Line 36. *)
Definition theta : list R := linspace 0 (2 * PI) RADIAL_RESOLUTION.

(** Lines 38 and 39: one row of [x_grid] and of [y_grid], the ring around
    the point [(xi, yi)] of the centre line. *)
Definition ring_x (xi r : pyfloat) : list pyfloat :=
  map (fun th => fadd xi (fmul r (Fin (cos th)))) theta.

Definition ring_y (yi r : pyfloat) : list pyfloat :=
  map (fun th => fadd yi (fmul r (Fin (sin th)))) theta.

Definition x_grid (x : list pyfloat) (r : pyfloat) : list (list pyfloat) :=
  map (fun xi => ring_x xi r) x.

Definition y_grid (y : list pyfloat) (r : pyfloat) : list (list pyfloat) :=
  map (fun yi => ring_y yi r) y.

(** A row of finite numbers. *)
Definition finite_measurement (m : Measurement) : bool :=
  is_finite (m_md m) && is_finite (m_inc m) && is_finite (m_azi m).

(** The station is no farther from the wellhead, in a straight line, than
    its measured depth. *)
Definition within_measured_depth (s : TrajectoryStation) : Prop :=
  exists n e t m,
    north s = Fin n /\ east s = Fin e /\ tvd s = Fin t /\ md s = Fin m
    /\ n * n + e * e + t * t <= m * m.

(** Lines 79-108 on the frame line 76 returned: [accumulate] is this on
    [sort_values (read_rows ms)]. *)
Definition survey_stations (rows : list Row)
  : result (list TrajectoryStation) :=
  st <- run_loop initial_state rows ;;
  Ok (stations_to_create st).

(** The depth [a] may come before the depth [b] in ascending order with
    the missing values last. *)
Definition depth_before (a b : pyfloat) : Prop :=
  is_nan b = true \/ (is_nan a = false /\ flt b a = false).

(** What [df.sort_values('MD')] may return for a frame: its rows, with
    their labels, in ascending depth order, the rows with a NaN depth last.
    The default sort of pandas is not stable, so rows of equal depth come
    in an order of its choosing; [sort_values] above is one such order. *)
Definition depth_ordering (frame sorted : list Row) : Prop :=
  Permutation sorted frame
  /\ StronglySorted (fun r r' => depth_before (row_md r) (row_md r')) sorted.

(** Angles as a survey has them, in degrees. *)
Definition survey_angles (inc azi : R) : Prop :=
  0 <= inc <= 180 /\ 0 <= azi <= 360.

(** Two directions of a survey whose dogleg is at most a right angle: far
    from the dogleg of 180 degrees, where the ratio factor of line 31 is
    of the order of 1e16 and multiplies rounding errors. *)
Definition gentle (inc1 azi1 inc2 azi2 : R) : Prop :=
  survey_angles inc1 azi1 /\ survey_angles inc2 azi2
  /\ beta_real inc1 azi1 inc2 azi2 <= PI / 2.

Definition gentle_turn (a b : Measurement) : Prop :=
  match m_inc a, m_azi a, m_inc b, m_azi b with
  | Fin i1, Fin a1, Fin i2, Fin a2 => gentle i1 a1 i2 a2
  | _, _, _, _ => False
  end.

(** Every measurement turns gently from the one before it, [prev] for the
    first. *)
Fixpoint gentle_turns (prev : Measurement) (ms : list Measurement) : Prop :=
  match ms with
  | [] => True
  | m :: ms' => gentle_turn prev m /\ gentle_turns m ms'
  end.



(** Strictly increasing start depths, record after record. *)
Definition increasing_starts (geom : list BoreholeGeometry) : Prop :=
  Sorted (fun a b => flt (start_md a) (start_md b) = true) geom.

(** ** A small well, for the examples *)

(** Two stations of a vertical hole, a casing over the upper half, a plug
    of no length whose colour cell was empty, and a liner without colour
    over the lower part. *)
Definition well_top : TrajectoryStation :=
  mkStation (Fin 0) (Fin 0) (Fin 0) (Fin 0) (Fin 0) (Fin 0) (Fin 0).

Definition well_bottom : TrajectoryStation :=
  mkStation (Fin 100) (Fin 0) (Fin 0) (Fin 100) (Fin 0) (Fin 0) (Fin 0).

Definition casing : BoreholeGeometry :=
  mkGeometry "Casing" (Fin 0) (Fin 50) (Fin 9) "red".

Definition plug : BoreholeGeometry :=
  mkGeometry "Plug" (Fin 60) (Fin 60) (Fin 5) "nan".

Definition liner : BoreholeGeometry :=
  mkGeometry "Liner" (Fin 70) (Fin 100) (Fin 7) EmptyString.


(** A [repr] for the examples. *)
Definition repr_sample (x : R) : string := "d".

(** * Properties *)

(** ** Comparisons *)

Lemma Rltb_true (x y : R) : Rltb x y = true <-> x < y.
Proof. unfold Rltb; destruct (Rlt_dec x y); split; intros; try easy; lra. Qed.

Lemma Rltb_false (x y : R) : Rltb x y = false <-> y <= x.
Proof. unfold Rltb; destruct (Rlt_dec x y); split; intros; try easy; lra. Qed.

Lemma Rleb_true (x y : R) : Rleb x y = true <-> x <= y.
Proof. unfold Rleb; destruct (Rle_dec x y); split; intros; try easy; lra. Qed.

Lemma Rleb_false (x y : R) : Rleb x y = false <-> y < x.
Proof. unfold Rleb; destruct (Rle_dec x y); split; intros; try easy; lra. Qed.

Lemma Reqb_true (x y : R) : Reqb x y = true <-> x = y.
Proof. unfold Reqb; destruct (Req_dec_T x y); split; intros; easy. Qed.

Lemma Reqb_false (x y : R) : Reqb x y = false <-> x <> y.
Proof. unfold Reqb; destruct (Req_dec_T x y); split; intros; easy. Qed.

Lemma Reqb_refl (x : R) : Reqb x x = true.
Proof. now apply Reqb_true. Qed.

Lemma flt_Fin (x y : R) : flt (Fin x) (Fin y) = true <-> x < y.
Proof. apply Rltb_true. Qed.

Lemma flt_Fin_false (x y : R) : flt (Fin x) (Fin y) = false <-> y <= x.
Proof. apply Rltb_false. Qed.

Lemma feq_Fin (x y : R) : feq (Fin x) (Fin y) = true <-> x = y.
Proof. apply Reqb_true. Qed.

Lemma fle_Fin (x y : R) : fle (Fin x) (Fin y) = true <-> x <= y.
Proof.
  unfold fle. rewrite orb_true_iff, flt_Fin, feq_Fin. lra.
Qed.

Lemma fle_Fin_false (x y : R) : fle (Fin x) (Fin y) = false <-> y < x.
Proof.
  unfold fle. rewrite orb_false_iff, flt_Fin_false, (Reqb_false x y : _ <-> _).
  lra.
Qed.

(** Decide the boolean real tests of a goal from the hypotheses. *)
Ltac rbool :=
  repeat match goal with
  | |- context [Rltb ?x ?y] =>
      let H := fresh "Hlt" in
      destruct (Rltb x y) eqn:H;
      [apply Rltb_true in H | apply Rltb_false in H]
  | |- context [Rleb ?x ?y] =>
      let H := fresh "Hle" in
      destruct (Rleb x y) eqn:H;
      [apply Rleb_true in H | apply Rleb_false in H]
  | |- context [Reqb ?x ?y] =>
      let H := fresh "Heq" in
      destruct (Reqb x y) eqn:H;
      [apply Reqb_true in H | apply Reqb_false in H]
  end.

(** ** The clamp and the inverse cosine *)

Lemma clamp_Fin (x : R) :
  exists c, clamp (Fin x) = Fin c /\ -1 <= c <= 1.
Proof.
  unfold clamp, fgt. cbn [flt].
  destruct (Rltb 1 x) eqn:H1.
  - exists 1. cbn [flt]. rbool; [lra | split; [reflexivity | lra]].
  - apply Rltb_false in H1. cbn [flt].
    destruct (Rltb x (-1)) eqn:H2.
    + exists (-1). split; [reflexivity | lra].
    + apply Rltb_false in H2. exists x. split; [reflexivity | lra].
Qed.

Lemma clamp_not_inf (x : pyfloat) : is_inf (clamp x) = false.
Proof.
  destruct x as [r | [] | ].
  - destruct (clamp_Fin r) as (c & -> & _). reflexivity.
  - unfold clamp, fgt; cbn. rbool; try lra; reflexivity.
  - unfold clamp, fgt; cbn. rbool; try lra; reflexivity.
  - reflexivity.
Qed.

Lemma py_acos_in_range (c : R) :
  -1 <= c <= 1 -> py_acos (Fin c) = Ok (Fin (acos c)).
Proof.
  intros [Hl Hu]. unfold py_acos.
  rewrite (proj2 (Rleb_true _ _) Hl), (proj2 (Rleb_true _ _) Hu). reflexivity.
Qed.

(** Whatever line 19 produced, line 25 does not raise. *)
Lemma py_acos_clamp_ok (x : pyfloat) :
  exists beta, py_acos (clamp x) = Ok beta
               /\ (beta = NaN \/ exists b, beta = Fin b /\ 0 <= b <= PI).
Proof.
  destruct x as [r | [] | ].
  - destruct (clamp_Fin r) as (c & -> & Hc).
    exists (Fin (acos c)). split; [now apply py_acos_in_range |].
    right. exists (acos c). split; [reflexivity | apply acos_bound].
  - exists (Fin (acos (-1))). replace (clamp (Inf true)) with (Fin (-1)).
    + split; [apply py_acos_in_range; lra |].
      right; eexists; split; [reflexivity | apply acos_bound].
    + unfold clamp, fgt; cbn. reflexivity.
  - exists (Fin (acos 1)). replace (clamp (Inf false)) with (Fin 1).
    + split; [apply py_acos_in_range; lra |].
      right; eexists; split; [reflexivity | apply acos_bound].
    + unfold clamp, fgt; cbn. rbool; [lra | reflexivity].
  - exists NaN. split; [reflexivity | now left].
Qed.

(** ** The station solver, piece by piece *)

Lemma radians_Fin (x : R) : radians (Fin x) = Fin (x * (PI / 180)).
Proof. reflexivity. Qed.

Lemma radians_Inf (s : bool) : radians (Inf s) = Inf s.
Proof.
  unfold radians, fmul, scale_inf. pose proof PI_RGT_0.
  rbool; try lra. reflexivity.
Qed.

Lemma radians_NaN : radians NaN = NaN.
Proof. reflexivity. Qed.

Lemma is_inf_radians (a : pyfloat) : is_inf (radians a) = is_inf a.
Proof. destruct a; [reflexivity | now rewrite radians_Inf | reflexivity]. Qed.

Lemma ratio_factor_ok (beta : pyfloat) : exists rf, ratio_factor beta = Ok rf.
Proof.
  unfold ratio_factor. destruct (flt beta (Fin (1 / 10000))) eqn:H.
  - now eexists.
  - unfold py_div. destruct (feq beta (Fin 0)) eqn:H0; [| now eexists].
    destruct beta as [b | s | ]; try discriminate.
    apply feq_Fin in H0. apply flt_Fin_false in H. lra.
Qed.

Lemma ratio_factor_Fin (b : R) : exists rf, ratio_factor (Fin b) = Ok (Fin rf).
Proof.
  unfold ratio_factor. destruct (flt (Fin b) (Fin (1 / 10000))) eqn:H.
  - now eexists.
  - apply flt_Fin_false in H. unfold py_div, fdiv; cbn.
    rbool; try lra. cbn. now eexists.
Qed.

Lemma dogleg_severity_ok (beta delta_md : pyfloat) :
  exists dls, dogleg_severity beta delta_md = Ok dls.
Proof.
  unfold dogleg_severity, py_div.
  destruct (feq delta_md (Fin 0)); now eexists.
Qed.

Lemma dogleg_severity_Fin (b d : R) :
  dogleg_severity (Fin b) (Fin d)
  = Ok (Fin (if Req_dec_T d 0 then 0 else b * (180 / PI) * 30 / d)).
Proof.
  unfold dogleg_severity, py_div, fdiv, degrees; cbn. unfold Reqb.
  destruct (Req_dec_T d 0); reflexivity.
Qed.

(** Lines 34-36 raise exactly when one of the four angles is infinite. *)
Lemma displacements_raise (i1 a1 i2 a2 delta_md rf : pyfloat) :
  is_inf i1 || is_inf a1 || is_inf i2 || is_inf a2 = true ->
  displacements i1 a1 i2 a2 delta_md rf = Raise ValueError.
Proof.
  unfold displacements.
  destruct i1, a1, i2, a2; cbn; intros H; try reflexivity; discriminate.
Qed.

Lemma displacements_ok (i1 a1 i2 a2 delta_md rf : pyfloat) :
  is_inf i1 || is_inf a1 || is_inf i2 || is_inf a2 = false ->
  exists d, displacements i1 a1 i2 a2 delta_md rf = Ok d.
Proof.
  unfold displacements.
  destruct i1, a1, i2, a2; cbn; intros H; try discriminate; now eexists.
Qed.

Lemma cos_beta_raw_raise (i1 a1 i2 a2 : pyfloat) (e : exn) :
  cos_beta_raw i1 a1 i2 a2 = Raise e -> e = ValueError.
Proof.
  unfold cos_beta_raw.
  destruct i1 as [? | [] | ], a1 as [? | [] | ], i2 as [? | [] | ],
           a2 as [? | [] | ]; cbn; intros H; congruence.
Qed.

Lemma cos_beta_raw_ok (i1 a1 i2 a2 : pyfloat) :
  is_inf i1 || is_inf a1 || is_inf i2 || is_inf a2 = false ->
  exists c, cos_beta_raw i1 a1 i2 a2 = Ok c.
Proof.
  unfold cos_beta_raw.
  destruct i1, a1, i2, a2; cbn; intros H; try discriminate; now eexists.
Qed.

Lemma any_inf_radians (inc1 azi1 inc2 azi2 : pyfloat) :
  is_inf (radians inc1) || is_inf (radians azi1)
  || is_inf (radians inc2) || is_inf (radians azi2)
  = any_inf inc1 azi1 inc2 azi2.
Proof. unfold any_inf. now rewrite !is_inf_radians. Qed.

Lemma minimum_curvature_raises (md1 inc1 azi1 md2 inc2 azi2 : pyfloat) :
  any_inf inc1 azi1 inc2 azi2 = true ->
  minimum_curvature md1 inc1 azi1 md2 inc2 azi2 = Raise ValueError.
Proof.
  intros H. rewrite <- any_inf_radians in H. unfold minimum_curvature.
  destruct (cos_beta_raw _ _ _ _) as [c | e] eqn:Hc; cbn.
  - destruct (py_acos_clamp_ok c) as (beta & -> & _); cbn.
    destruct (ratio_factor_ok beta) as (rf & ->); cbn.
    now rewrite displacements_raise.
  - now rewrite (cos_beta_raw_raise _ _ _ _ _ Hc).
Qed.

Lemma minimum_curvature_returns (md1 inc1 azi1 md2 inc2 azi2 : pyfloat) :
  any_inf inc1 azi1 inc2 azi2 = false ->
  exists r, minimum_curvature md1 inc1 azi1 md2 inc2 azi2 = Ok r.
Proof.
  intros H. rewrite <- any_inf_radians in H. unfold minimum_curvature.
  destruct (cos_beta_raw_ok _ _ _ _ H) as (c & ->); cbn.
  destruct (py_acos_clamp_ok c) as (beta & -> & _); cbn.
  destruct (ratio_factor_ok beta) as (rf & ->); cbn.
  destruct (displacements_ok _ _ _ _ (fsub md2 md1) rf H) as ([[dn de] dt] & ->).
  cbn. destruct (dogleg_severity_ok beta (fsub md2 md1)) as (dls & ->); cbn.
  now eexists.
Qed.

Lemma clamp_real_range (x : R) : -1 <= clamp_real x <= 1.
Proof. unfold clamp_real. rbool; lra. Qed.

Lemma clamp_Fin_real (x : R) : clamp (Fin x) = Fin (clamp_real x).
Proof.
  unfold clamp, clamp_real, fgt. cbn [flt].
  destruct (Rltb 1 x) eqn:H1; cbn [flt].
  - apply Rltb_true in H1. rewrite (proj2 (Rltb_false 1 (-1))) by lra.
    reflexivity.
  - destruct (Rltb x (-1)); reflexivity.
Qed.

Lemma ratio_factor_real (b : R) : ratio_factor (Fin b) = Ok (Fin (ratio_real b)).
Proof.
  unfold ratio_factor, ratio_real. cbn [flt].
  destruct (Rltb b (1 / 10000)) eqn:H; [reflexivity |].
  apply Rltb_false in H. unfold py_div, fdiv; cbn.
  rewrite (proj2 (Reqb_false b 0)) by lra.
  rewrite (proj2 (Reqb_false 2 0)) by lra. reflexivity.
Qed.

(** On finite measurements the solver returns finite values, given by the
    textbook formulas. *)
Lemma minimum_curvature_finite (md1 inc1 azi1 md2 inc2 azi2 : R) :
  let i1 := inc1 * (PI / 180) in
  let a1 := azi1 * (PI / 180) in
  let i2 := inc2 * (PI / 180) in
  let a2 := azi2 * (PI / 180) in
  let delta_md := md2 + - md1 in
  let beta := beta_real inc1 azi1 inc2 azi2 in
  let rf := ratio_real beta in
  minimum_curvature (Fin md1) (Fin inc1) (Fin azi1)
                    (Fin md2) (Fin inc2) (Fin azi2)
  = Ok (Fin (delta_md / 2 * (sin i1 * cos a1 + sin i2 * cos a2) * rf),
        Fin (delta_md / 2 * (sin i1 * sin a1 + sin i2 * sin a2) * rf),
        Fin (delta_md / 2 * (cos i1 + cos i2) * rf),
        Fin (if Req_dec_T delta_md 0 then 0
             else beta * (180 / PI) * 30 / delta_md)).
Proof.
  intros i1 a1 i2 a2 delta_md beta rf.
  unfold minimum_curvature, cos_beta_raw. rewrite !radians_Fin. cbn.
  rewrite clamp_Fin_real.
  rewrite (py_acos_in_range _ (clamp_real_range _)). cbn.
  fold (cos_beta_real i1 a1 i2 a2). fold (beta_real inc1 azi1 inc2 azi2).
  fold beta. rewrite ratio_factor_real. fold rf. cbn.
  unfold displacements, fdiv; cbn.
  replace (Reqb 2 0) with false by (symmetry; apply Reqb_false; lra).
  rewrite dogleg_severity_Fin. cbn. reflexivity.
Qed.

Lemma beta_real_bound (inc1 azi1 inc2 azi2 : R) :
  0 <= beta_real inc1 azi1 inc2 azi2 <= PI.
Proof. apply acos_bound. Qed.

(** ** The claims about the station solver *)

Lemma fadd_0_r (a : pyfloat) : fadd a (Fin 0) = a.
Proof. destruct a as [x | s |]; cbn; [now rewrite Rplus_0_r | |]; reflexivity. Qed.

(** With no rounding error the solver is [minimum_curvature]. *)
Lemma minimum_curvature_rounded_exact (md1 inc1 azi1 md2 inc2 azi2 : pyfloat) :
  minimum_curvature_rounded 0 md1 inc1 azi1 md2 inc2 azi2
  = minimum_curvature md1 inc1 azi1 md2 inc2 azi2.
Proof.
  unfold minimum_curvature_rounded, minimum_curvature, cos_beta_computed.
  destruct (cos_beta_raw _ _ _ _) as [c | e]; cbn [bind]; [| reflexivity].
  now rewrite fadd_0_r.
Qed.

(** What line 19 computes on finite angles: the exact value, off by the
    rounding error. *)
Lemma cos_beta_value_Fin (err inc1 azi1 inc2 azi2 : R) :
  cos_beta_value err (Fin inc1) (Fin azi1) (Fin inc2) (Fin azi2)
  = Ok (Fin (cos_beta_real (inc1 * (PI / 180)) (azi1 * (PI / 180))
                           (inc2 * (PI / 180)) (azi2 * (PI / 180)) + err)).
Proof. reflexivity. Qed.

Lemma acos_argument_Fin (err inc1 azi1 inc2 azi2 : R) :
  acos_argument err (Fin inc1) (Fin azi1) (Fin inc2) (Fin azi2)
  = Ok (Fin (clamp_real
               (cos_beta_real (inc1 * (PI / 180)) (azi1 * (PI / 180))
                              (inc2 * (PI / 180)) (azi2 * (PI / 180)) + err))).
Proof.
  unfold acos_argument. rewrite cos_beta_value_Fin. cbn [bind].
  now rewrite clamp_Fin_real.
Qed.

(** The solver is the inverse cosine of [acos_argument], and then the
    rest. *)
Lemma minimum_curvature_acos_step (err : R)
  (md1 inc1 azi1 md2 inc2 azi2 : pyfloat) :
  minimum_curvature_rounded err md1 inc1 azi1 md2 inc2 azi2
  = (x <- acos_argument err inc1 azi1 inc2 azi2 ;;
     beta <- py_acos x ;;
     rf <- ratio_factor beta ;;
     d <- displacements (radians inc1) (radians azi1) (radians inc2)
            (radians azi2) (fsub md2 md1) rf ;;
     let '(delta_north, delta_east, delta_tvd) := d in
     dls <- dogleg_severity beta (fsub md2 md1) ;;
     Ok (delta_north, delta_east, delta_tvd, dls)).
Proof.
  unfold minimum_curvature_rounded, acos_argument, cos_beta_value.
  now destruct (cos_beta_computed _ _ _ _ _).
Qed.

Lemma cos_beta_computed_ok (err : R) (i1 a1 i2 a2 : pyfloat) :
  is_inf i1 || is_inf a1 || is_inf i2 || is_inf a2 = false ->
  exists c, cos_beta_computed err i1 a1 i2 a2 = Ok c.
Proof.
  intros H. unfold cos_beta_computed.
  destruct (cos_beta_raw_ok _ _ _ _ H) as (c & ->). now eexists.
Qed.

Lemma minimum_curvature_rounded_returns (err : R)
  (md1 inc1 azi1 md2 inc2 azi2 : pyfloat) :
  any_inf inc1 azi1 inc2 azi2 = false ->
  exists r, minimum_curvature_rounded err md1 inc1 azi1 md2 inc2 azi2 = Ok r.
Proof.
  intros H. rewrite <- any_inf_radians in H. unfold minimum_curvature_rounded.
  destruct (cos_beta_computed_ok err _ _ _ _ H) as (c & ->); cbn.
  destruct (py_acos_clamp_ok c) as (beta & -> & _); cbn.
  destruct (ratio_factor_ok beta) as (rf & ->); cbn.
  destruct (displacements_ok _ _ _ _ (fsub md2 md1) rf H) as ([[dn de] dt] & ->).
  cbn. destruct (dogleg_severity_ok beta (fsub md2 md1)) as (dls & ->); cbn.
  now eexists.
Qed.

(** On finite measurements the solver with rounding returns finite values;
    its dogleg angle is the inverse cosine of the clamped value. *)
Lemma minimum_curvature_rounded_finite (err md1 inc1 azi1 md2 inc2 azi2 : R) :
  let i1 := inc1 * (PI / 180) in
  let a1 := azi1 * (PI / 180) in
  let i2 := inc2 * (PI / 180) in
  let a2 := azi2 * (PI / 180) in
  let delta_md := md2 + - md1 in
  let beta := acos (clamp_real (cos_beta_real i1 a1 i2 a2 + err)) in
  let rf := ratio_real beta in
  minimum_curvature_rounded err (Fin md1) (Fin inc1) (Fin azi1)
                                (Fin md2) (Fin inc2) (Fin azi2)
  = Ok (Fin (delta_md / 2 * (sin i1 * cos a1 + sin i2 * cos a2) * rf),
        Fin (delta_md / 2 * (sin i1 * sin a1 + sin i2 * sin a2) * rf),
        Fin (delta_md / 2 * (cos i1 + cos i2) * rf),
        Fin (if Req_dec_T delta_md 0 then 0
             else beta * (180 / PI) * 30 / delta_md)).
Proof.
  intros i1 a1 i2 a2 delta_md beta rf.
  rewrite minimum_curvature_acos_step, acos_argument_Fin. cbn [bind].
  rewrite (py_acos_in_range _ (clamp_real_range _)). cbn [bind].
  fold i1 a1 i2 a2. fold beta. rewrite ratio_factor_real. fold rf.
  cbn [bind]. rewrite !radians_Fin.
  unfold displacements, fdiv; cbn.
  replace (Reqb 2 0) with false by (symmetry; apply Reqb_false; lra).
  rewrite dogleg_severity_Fin. cbn. reflexivity.
Qed.

(** The inverse cosine rejects what lies outside [-1, 1]. *)
Lemma py_acos_out_of_range (v : R) :
  v < -1 \/ 1 < v -> py_acos (Fin v) = Raise ValueError.
Proof.
  intros H. unfold py_acos.
  destruct (Rleb (-1) v) eqn:H1; destruct (Rleb v 1) eqn:H2; try reflexivity.
  apply Rleb_true in H1. apply Rleb_true in H2. lra.
Qed.

(** An overshoot at work.  The directions (19, 0) and (161, 180) are
    opposite, the exact value of line 19 is -1; with a rounding error of
    one unit in the last place below it, the inverse cosine would reject
    the value of line 19, and accepts the clamped one. *)
Lemma overshoot_is_clamped :
  let err := - (1 / 4503599627370496) in
  cos_beta_value err (Fin 19) (Fin 0) (Fin 161) (Fin 180) = Ok (Fin (-1 + err))
  /\ py_acos (Fin (-1 + err)) = Raise ValueError
  /\ acos_argument err (Fin 19) (Fin 0) (Fin 161) (Fin 180) = Ok (Fin (-1))
  /\ py_acos (Fin (-1)) = Ok (Fin PI).
Proof.
  intros err.
  assert (Hexact : cos_beta_real (19 * (PI / 180)) (0 * (PI / 180))
                                 (161 * (PI / 180)) (180 * (PI / 180)) = -1).
  { unfold cos_beta_real.
    replace (161 * (PI / 180) + - (19 * (PI / 180)))
      with (PI - 2 * (19 * (PI / 180))) by field.
    replace (161 * (PI / 180)) with (PI - 19 * (PI / 180)) by field.
    replace (180 * (PI / 180) + - (0 * (PI / 180))) with PI by field.
    rewrite cos_minus, sin_PI_x, cos_PI, sin_PI, cos_2a_sin. ring. }
  assert (Herr : err < 0) by (unfold err; lra).
  split; [| split; [| split]].
  - rewrite cos_beta_value_Fin, Hexact. reflexivity.
  - apply py_acos_out_of_range. lra.
  - rewrite acos_argument_Fin, Hexact. unfold clamp_real.
    rewrite (proj2 (Rltb_false 1 (-1 + err))) by lra.
    rewrite (proj2 (Rltb_true (-1 + err) (-1))) by lra. reflexivity.
  - rewrite py_acos_in_range by lra. do 2 f_equal.
    replace (-1) with (- (1)) by lra. rewrite acos_opp, acos_1. lra.
Qed.

(** C2.  Whatever the rounding error of line 19, for every pair of
    measurements with finite inclinations and azimuths the value handed to
    the inverse cosine is, after the two guards, a finite number of
    [-1, 1]: the upper bound when line 19 gave more than 1, the lower one
    when it gave less than -1, and the value itself otherwise.  The
    inverse cosine accepts it, where it rejects every value outside
    [-1, 1]; so no domain error is raised, and the solver returns whatever
    the two depths are. *)
Theorem acos_argument_clamped (err inc1 azi1 inc2 azi2 : R) :
  (exists v c,
     cos_beta_value err (Fin inc1) (Fin azi1) (Fin inc2) (Fin azi2)
     = Ok (Fin v)
     /\ acos_argument err (Fin inc1) (Fin azi1) (Fin inc2) (Fin azi2)
        = Ok (Fin c)
     /\ c = (if Rltb 1 v then 1 else if Rltb v (-1) then -1 else v)
     /\ -1 <= c <= 1
     /\ py_acos (Fin c) = Ok (Fin (acos c)))
  /\ (forall v, v < -1 \/ 1 < v -> py_acos (Fin v) = Raise ValueError)
  /\ (forall md1 md2,
        exists r,
          minimum_curvature_rounded err md1 (Fin inc1) (Fin azi1)
                                        md2 (Fin inc2) (Fin azi2)
          = Ok r).
Proof.
  split; [| split].
  - rewrite cos_beta_value_Fin, acos_argument_Fin. do 2 eexists.
    split; [reflexivity |]. split; [reflexivity |].
    split; [reflexivity |].
    split; [apply clamp_real_range |].
    apply py_acos_in_range, clamp_real_range.
  - apply py_acos_out_of_range.
  - intros md1 md2. now apply minimum_curvature_rounded_returns.
Qed.

(** C10.  Whatever the rounding error of line 19, for finite measurements
    with [md2 >= md1] the solver returns.  Its dogleg angle is the inverse
    cosine of the clamped value [c] of [-1, 1], so it lies in [0, PI]; its
    dogleg severity is that angle in degrees times 30 over [md2 - md1], a
    finite non-negative number, and it is zero when the two depths are
    equal. *)
Theorem dls_nonnegative (err md1 inc1 azi1 md2 inc2 azi2 : R) :
  md1 <= md2 ->
  exists d_n d_e d_tvd dls c,
    acos_argument err (Fin inc1) (Fin azi1) (Fin inc2) (Fin azi2)
    = Ok (Fin c)
    /\ -1 <= c <= 1
    /\ 0 <= acos c <= PI
    /\ minimum_curvature_rounded err (Fin md1) (Fin inc1) (Fin azi1)
                                     (Fin md2) (Fin inc2) (Fin azi2)
       = Ok (d_n, d_e, d_tvd, Fin dls)
    /\ (md1 < md2 -> dls = acos c * (180 / PI) * 30 / (md2 - md1))
    /\ (md1 = md2 -> dls = 0)
    /\ 0 <= dls.
Proof.
  intros Hmd.
  rewrite minimum_curvature_rounded_finite, acos_argument_Fin.
  set (c := clamp_real _).
  pose proof (clamp_real_range
                (cos_beta_real (inc1 * (PI / 180)) (azi1 * (PI / 180))
                   (inc2 * (PI / 180)) (azi2 * (PI / 180)) + err)) as Hc.
  fold c in Hc. pose proof (acos_bound c) as Hb.
  do 4 eexists. exists c. split; [reflexivity |]. split; [exact Hc |].
  split; [exact Hb |]. split; [reflexivity |].
  pose proof PI_RGT_0 as Hpi.
  destruct (Req_dec_T (md2 + - md1) 0) as [E | E].
  - split; [intros; lra |]. split; [reflexivity | lra].
  - split; [intros _; reflexivity |]. split; [intros ->; lra |].
    assert (0 < md2 + - md1) by lra.
    assert (0 <= acos c * (180 / PI) * 30).
    { apply Rmult_le_pos; [| lra]. apply Rmult_le_pos; [lra |].
      apply Rlt_le, Rdiv_lt_0_compat; lra. }
    apply Rmult_le_pos; [assumption |]. apply Rlt_le, Rinv_0_lt_compat. lra.
Qed.

Lemma dls_nonnegative_witness :
  exists d_n d_e d_tvd dls c,
    acos_argument (- (1 / 4503599627370496))
      (Fin 19) (Fin 0) (Fin 161) (Fin 180) = Ok (Fin c)
    /\ -1 <= c <= 1
    /\ 0 <= acos c <= PI
    /\ minimum_curvature_rounded (- (1 / 4503599627370496))
         (Fin 100) (Fin 19) (Fin 0) (Fin 200) (Fin 161) (Fin 180)
       = Ok (d_n, d_e, d_tvd, Fin dls)
    /\ (100 < 200 -> dls = acos c * (180 / PI) * 30 / (200 - 100))
    /\ (100 = 200 -> dls = 0)
    /\ 0 <= dls.
Proof.
  apply (dls_nonnegative (- (1 / 4503599627370496)) 100 19 0 200 161 180).
  lra.
Defined.

Arguments minimum_curvature : simpl never.

(** ** Sorting the data frame *)

Lemma insert_row_perm (r : Row) (l : list Row) :
  Permutation (insert_row r l) (r :: l).
Proof.
  induction l as [| r' l IH]; cbn; [reflexivity |].
  destruct (flt (row_md r') (row_md r)); [| reflexivity].
  rewrite IH. apply perm_swap.
Qed.

Lemma insertion_sort_perm (l : list Row) : Permutation (insertion_sort l) l.
Proof.
  induction l as [| r l IH]; cbn; [reflexivity |].
  rewrite insert_row_perm. now constructor.
Qed.

Lemma filter_split_perm {A : Type} (f : A -> bool) (l : list A) :
  Permutation (filter (fun x => negb (f x)) l ++ filter f l) l.
Proof.
  induction l as [| x l IH]; cbn; [reflexivity |].
  destruct (f x); cbn.
  - rewrite <- Permutation_middle. now constructor.
  - now constructor.
Qed.

Lemma sort_values_perm (l : list Row) : Permutation (sort_values l) l.
Proof.
  unfold sort_values. rewrite insertion_sort_perm. apply filter_split_perm.
Qed.

Lemma enumerate_from_snd {A : Type} (k : nat) (l : list A) :
  map snd (enumerate_from k l) = l.
Proof.
  revert k; induction l as [| x l IH]; intros k; cbn; [reflexivity |].
  now rewrite IH.
Qed.

Lemma sort_values_rows_perm (ms : list Measurement) :
  Permutation (map snd (sort_values (read_rows ms))) ms.
Proof.
  rewrite (Permutation_map snd (sort_values_perm (read_rows ms))).
  unfold read_rows. now rewrite enumerate_from_snd.
Qed.

(** ** The accumulator can only fail the way the solver does *)

Lemma loop_body_raise (st : LoopState) (r : Row) (e : exn) :
  loop_body st r = Raise e ->
  e = ValueError
  /\ any_inf (prev_inc st) (prev_azi st) (m_inc (snd r)) (m_azi (snd r)) = true.
Proof.
  unfold loop_body.
  destruct (Nat.eqb (fst r) 0 && feq (m_md (snd r)) (Fin 0)); [discriminate |].
  destruct (any_inf (prev_inc st) (prev_azi st) (m_inc (snd r)) (m_azi (snd r)))
    eqn:H.
  - rewrite (minimum_curvature_raises _ _ _ _ _ _ H). cbn.
    intros [= <-]. now split.
  - destruct (minimum_curvature_returns (prev_md st) _ _ (m_md (snd r)) _ _ H)
      as ([[[dn de] dt] dls] & ->).
    cbn. discriminate.
Qed.

Lemma loop_body_prev (st st' : LoopState) (r : Row) :
  loop_body st r = Ok st' ->
  prev_md st' = m_md (snd r) /\ prev_inc st' = m_inc (snd r)
  /\ prev_azi st' = m_azi (snd r).
Proof.
  unfold loop_body.
  destruct (Nat.eqb (fst r) 0 && feq (m_md (snd r)) (Fin 0)).
  - intros [= <-]. cbn. auto.
  - destruct (minimum_curvature _ _ _ _ _ _) as [[[[dn de] dt] dls] | e]; cbn;
      [| discriminate].
    intros [= <-]. cbn. auto.
Qed.

Lemma run_loop_raise (rows : list Row) (st : LoopState) (e : exn) :
  run_loop st rows = Raise e ->
  e = ValueError
  /\ (is_inf (prev_inc st) || is_inf (prev_azi st)
      || existsb (fun r => infinite_angle (snd r)) rows = true).
Proof.
  revert st; induction rows as [| r rows IH]; intros st; cbn; [discriminate |].
  destruct (loop_body st r) as [st' | e'] eqn:Hb; cbn.
  - intros H. destruct (IH _ H) as [-> Hex]. split; [reflexivity |].
    destruct (loop_body_prev _ _ _ Hb) as (_ & Hi & Ha).
    rewrite Hi, Ha in Hex. unfold infinite_angle at 1.
    apply orb_true_iff in Hex. apply orb_true_iff. right.
    apply orb_true_iff. destruct Hex as [Hex | Hex]; [left | right]; assumption.
  - intros [= ->]. destruct (loop_body_raise _ _ _ Hb) as [-> Hinf].
    split; [reflexivity |]. unfold any_inf in Hinf. unfold infinite_angle.
    repeat rewrite orb_true_iff in *. tauto.
Qed.

Lemma accumulate_raise (ms : list Measurement) (e : exn) :
  accumulate ms = Raise e ->
  e = ValueError /\ existsb infinite_angle ms = true.
Proof.
  unfold accumulate.
  destruct (run_loop initial_state (sort_values (read_rows ms))) as [st | e']
    eqn:H; cbn; [discriminate |].
  intros [= ->]. destruct (run_loop_raise _ _ _ H) as [-> Hex].
  split; [reflexivity |]. cbn in Hex.
  apply existsb_exists in Hex. destruct Hex as (r & Hin & Hr).
  apply existsb_exists. exists (snd r). split; [| assumption].
  apply (Permutation_in _ (sort_values_rows_perm ms)). now apply in_map.
Qed.

(** ** Claims about failures of the solver and the accumulator *)

(** C3, the claim refuted: an empty 'Survey' sheet is not rejected. *)
Lemma empty_survey_not_rejected : ~ (exists e, accumulate [] = Raise e).
Proof. intros [e H]. discriminate H. Qed.

(** C3, as the code has it.  On an empty measurement sequence the loop
    does not run: the accumulator returns an empty station list, and the
    import ends with the value [True] and the status PROCESSED. *)
Theorem empty_survey_succeeds :
  accumulate [] = Ok []
  /\ forall repr_finite,
       process_survey_file repr_finite (mkWorkbook (Some []) None)
       = mkOutcome true PROCESSED [] [].
Proof. split; [reflexivity | intros; reflexivity]. Qed.

Lemma Reqb_neq (x y : R) : x <> y -> Reqb x y = false.
Proof. apply Reqb_false. Qed.

(** C4, the claim refuted: a NaN inclination (an empty cell) raises
    nothing; the solver returns NaN displacements and the accumulator stores
    a station whose position is NaN. *)
Lemma nan_not_rejected :
  minimum_curvature (Fin 0) (Fin 0) (Fin 0) (Fin 100) NaN (Fin 0)
  = Ok (NaN, NaN, NaN, NaN)
  /\ accumulate [mkMeasurement (Fin 100) NaN (Fin 0)]
     = Ok [mkStation (Fin 100) NaN (Fin 0) NaN NaN NaN NaN].
Proof.
  assert (H : minimum_curvature (Fin 0) (Fin 0) (Fin 0) (Fin 100) NaN (Fin 0)
              = Ok (NaN, NaN, NaN, NaN)).
  { unfold minimum_curvature, cos_beta_raw, displacements, ratio_factor,
      dogleg_severity, py_div, fdiv. cbn.
    rewrite (Reqb_neq 2 0) by lra. rewrite (Reqb_neq (100 + - 0) 0) by lra.
    reflexivity. }
  split; [exact H |].
  unfold accumulate, read_rows, sort_values. cbn. unfold loop_body. cbn.
  rewrite (Reqb_neq 100 0) by lra. cbn. rewrite H. reflexivity.
Qed.

(** C4, as the code has it.  The solver raises exactly when one of the two
    inclinations or azimuths is infinite, and the error is the
    [ValueError] of the sine or cosine; a NaN anywhere, or a non-finite
    depth, is not rejected.  The accumulator can fail only with that error,
    and only when some measurement has an infinite inclination or
    azimuth. *)
Theorem raises_only_on_infinite_angles :
  (forall md1 inc1 azi1 md2 inc2 azi2,
     match minimum_curvature md1 inc1 azi1 md2 inc2 azi2 with
     | Ok _ => any_inf inc1 azi1 inc2 azi2 = false
     | Raise e => e = ValueError /\ any_inf inc1 azi1 inc2 azi2 = true
     end)
  /\ (forall ms,
        match accumulate ms with
        | Ok _ => True
        | Raise e => e = ValueError /\ existsb infinite_angle ms = true
        end).
Proof.
  split.
  - intros md1 inc1 azi1 md2 inc2 azi2.
    destruct (any_inf inc1 azi1 inc2 azi2) eqn:H.
    + rewrite (minimum_curvature_raises _ _ _ _ _ _ H). now split.
    + destruct (minimum_curvature_returns md1 _ _ md2 _ _ H) as (r & ->).
      reflexivity.
  - intros ms. destruct (accumulate ms) as [sts | e] eqn:H; [exact I |].
    now apply accumulate_raise.
Qed.

(** ** The sanitizer *)





Lemma powerRZ_10_m1 : powerRZ 10 (-1) = / 10.
Proof.
  unfold powerRZ. replace (Pos.to_nat 1) with 1%nat by reflexivity.
  simpl. f_equal. lra.
Qed.

(** A number of everyday size is far from the overflow. *)
Lemma no_overflow (v : R) : v < 1000000 -> Rleb overflow_threshold v = false.
Proof.
  intros H. apply Rleb_false. unfold overflow_threshold.
  assert (IZR 1000000 < IZR (2 ^ 1024 - 2 ^ 970))
    by (apply IZR_lt; vm_compute; reflexivity).
  lra.
Qed.

(** A number of 400 digits is an infinity. *)
Lemma overflow_1e400 : literal_value (LitDec false 1 400) = Inf false.
Proof.
  unfold literal_value. rewrite Rmult_1_l.
  replace (Rleb overflow_threshold (powerRZ 10 400)) with true; [reflexivity |].
  symmetry. apply Rleb_true. unfold overflow_threshold.
  replace (powerRZ 10 400) with (IZR (10 ^ 400)).
  - apply IZR_le. vm_compute. discriminate.
  - change (IZR (10 ^ Z.of_nat 400) = powerRZ 10 (Z.of_nat 400)).
    now rewrite <- pow_powerRZ, pow_IZR.
Qed.

Lemma read_nbsp :
  read_literal (ascii_text (list_ascii_of_string nbsp_12_5))
  = Some (LitDec false 125 (-1)).
Proof. vm_compute. reflexivity. Qed.

Lemma read_arabic :
  read_literal (ascii_text (list_ascii_of_string arabic_12))
  = Some (LitDec false 12 0).
Proof. vm_compute. reflexivity. Qed.

Lemma read_1e400 :
  read_literal (ascii_text (list_ascii_of_string "1e400"))
  = Some (LitDec false 1 400).
Proof. vm_compute. reflexivity. Qed.

(** The model of [float] on three texts plain ASCII parsing gets wrong: a
    leading no-break space is stripped, digits of another script are
    read, and a number too large for a float is an infinity. *)
Lemma float_of_text_examples :
  py_float (CellStr nbsp_12_5) = Ok (Fin 12.5)
  /\ py_float (CellStr arabic_12) = Ok (Fin 12)
  /\ py_float (CellStr "1e400") = Ok (Inf false).
Proof.
  split; [| split].
  - unfold py_float, float_of_chars. rewrite read_nbsp.
    unfold literal_value. rewrite powerRZ_10_m1.
    rewrite no_overflow by lra. do 2 f_equal.
  - unfold py_float, float_of_chars. rewrite read_arabic.
    unfold literal_value. replace (powerRZ 10 0) with 1 by reflexivity.
    rewrite no_overflow by lra. do 2 f_equal. lra.
  - unfold py_float, float_of_chars. rewrite read_1e400.
    now rewrite overflow_1e400.
Qed.



(** C8, on the code: a 'Mechanical' row with an empty Color cell (pandas
    reads it as NaN) is stored with the colour text [nan], which is not the
    neutral gray the [color] field of the model defaults to. *)
Theorem absent_color_becomes_nan (repr_finite : R -> string) :
  sanitize_row repr_finite
    (mkMechRow "Open Hole" (Fin 1500) (Fin 3500) (CellNum (Fin (85 / 10)))
       (CellNum NaN))
  = Ok (mkGeometry "Open Hole" (Fin 1500) (Fin 3500) (Fin (85 / 10)) "nan")
  /\ "nan"%string <> color_field_default.
Proof.
  split; [| discriminate].
  unfold sanitize_row, sanitize_diameter, parse_diameter; cbn.
  rbool; [lra | reflexivity].
Qed.

(** ** The path-segment interpolator *)

Lemma np_lt_Fin (a : pyfloat) (d : R) : np_lt a (Fin d) = flt a (Fin d).
Proof. unfold np_lt. cbn. now rewrite orb_false_r. Qed.

(** [interpolated] in terms of the place [searchsorted] finds. *)
Lemma interpolated_index (sts : list TrajectoryStation) (depth : pyfloat) :
  interpolated sts depth
  = match searchsorted (map md sts) depth with
    | O => []
    | S j =>
        match nth_error sts j, nth_error sts (S j) with
        | Some s0, Some s1 =>
            let factor :=
              if fgt (md s1) (md s0)
              then fdiv (fsub depth (md s0)) (fsub (md s1) (md s0))
              else Fin 0 in
            [mkPoint (lerp (east s0) (east s1) factor)
                     (lerp (north s0) (north s1) factor)
                     (lerp (tvd s0) (tvd s1) factor)
                     depth]
        | _, _ => []
        end
    end.
Proof.
  unfold interpolated.
  destruct (searchsorted (map md sts) depth) as [| j] eqn:Hk.
  - reflexivity.
  - replace (Z.of_nat (S j) - 1)%Z with (Z.of_nat j) by lia.
    replace (Z.of_nat j + 1)%Z with (Z.of_nat (S j)) by lia.
    rewrite !Nat2Z.id.
    replace (0 <=? Z.of_nat j)%Z with true by (symmetry; apply Z.leb_le; lia).
    cbn [andb].
    destruct (Z.of_nat j <? Z.of_nat (List.length sts) - 1)%Z eqn:Hb.
    + reflexivity.
    + apply Z.ltb_ge in Hb.
      assert (Hn : nth_error sts (S j) = None) by (apply nth_error_None; lia).
      rewrite Hn. now destruct (nth_error sts j).
Qed.

Lemma interpolated_above (x : TrajectoryStation) (l : list TrajectoryStation)
  (d : R) :
  flt (md x) (Fin d) = false -> interpolated (x :: l) (Fin d) = [].
Proof.
  intros H. rewrite interpolated_index. cbn. now rewrite np_lt_Fin, H.
Qed.

Lemma interpolated_skip (x y : TrajectoryStation) (l : list TrajectoryStation)
  (d : R) :
  flt (md x) (Fin d) = true -> flt (md y) (Fin d) = true ->
  interpolated (x :: y :: l) (Fin d) = interpolated (y :: l) (Fin d).
Proof.
  intros Hx Hy. rewrite !interpolated_index. cbn [map searchsorted].
  rewrite !np_lt_Fin, Hx, Hy. reflexivity.
Qed.

Lemma interpolated_here (x y : TrajectoryStation) (l : list TrajectoryStation)
  (d : R) :
  flt (md x) (Fin d) = true -> flt (md y) (Fin d) = false ->
  flt (md x) (md y) = true ->
  interpolated (x :: y :: l) (Fin d)
  = [point_of (interpolation x y (Fin d)) (Fin d)].
Proof.
  intros Hx Hy Hxy. rewrite interpolated_index. cbn [map searchsorted].
  rewrite !np_lt_Fin, Hx, Hy. cbn [nth_error]. unfold fgt. rewrite Hxy.
  reflexivity.
Qed.

Lemma flt_trans (a b c : pyfloat) :
  flt a b = true -> flt b c = true -> flt a c = true.
Proof.
  destruct a as [x | [] | ], b as [y | [] | ], c as [z | [] | ]; cbn;
    try discriminate; try reflexivity.
  rewrite !Rltb_true. lra.
Qed.

Lemma increasing_strong (sts : list TrajectoryStation) :
  increasing_depths sts -> StronglySorted lt_md sts.
Proof.
  apply Sorted_StronglySorted. intros a b c. apply flt_trans.
Qed.

Lemma finite_position_inv (s : TrajectoryStation) :
  finite_position s = true ->
  exists m e n t,
    md s = Fin m /\ east s = Fin e /\ north s = Fin n /\ tvd s = Fin t.
Proof.
  unfold finite_position. rewrite !andb_true_iff. intros [[[Hm He] Hn] Ht].
  destruct (md s), (east s), (north s), (tvd s); try discriminate.
  now do 4 eexists.
Qed.

Lemma in_range_Fin (s e m : R) (x : TrajectoryStation) :
  md x = Fin m -> in_range (Fin s) (Fin e) x = true <-> s <= m <= e.
Proof.
  intros H. unfold in_range, fge. rewrite H, andb_true_iff, !fle_Fin. tauto.
Qed.

Lemma in_range_below (s e m : R) (x : TrajectoryStation) :
  md x = Fin m -> m < s -> in_range (Fin s) (Fin e) x = false.
Proof.
  intros H Hlt. destruct (in_range (Fin s) (Fin e) x) eqn:E; [| reflexivity].
  apply (in_range_Fin s e m x H) in E. lra.
Qed.

(** The interpolation of two finite stations at the depth of the first is
    the first, at the depth of the second the second. *)
Lemma interpolation_at_lower (x y : TrajectoryStation) (m : R) :
  finite_position x = true -> finite_position y = true ->
  md x = Fin m -> lt_md x y ->
  interpolation x y (Fin m) = position x.
Proof.
  intros Fx Fy Hm Hlt.
  destruct (finite_position_inv x Fx) as (mx & ex & nx & tx & Hx1 & Hx2 & Hx3 & Hx4).
  destruct (finite_position_inv y Fy) as (my & ey & ny & ty & Hy1 & Hy2 & Hy3 & Hy4).
  unfold lt_md in Hlt. rewrite Hx1, Hy1 in Hlt. apply flt_Fin in Hlt.
  rewrite Hx1 in Hm. injection Hm as <-.
  unfold interpolation, position, lerp.
  rewrite Hx1, Hx2, Hx3, Hx4, Hy1, Hy2, Hy3, Hy4. cbn.
  rewrite Reqb_neq by lra. cbn.
  repeat f_equal; field; lra.
Qed.

Lemma interpolation_at_upper (x y : TrajectoryStation) (m : R) :
  finite_position x = true -> finite_position y = true ->
  md y = Fin m -> lt_md x y ->
  interpolation x y (Fin m) = position y.
Proof.
  intros Fx Fy Hm Hlt.
  destruct (finite_position_inv x Fx) as (mx & ex & nx & tx & Hx1 & Hx2 & Hx3 & Hx4).
  destruct (finite_position_inv y Fy) as (my & ey & ny & ty & Hy1 & Hy2 & Hy3 & Hy4).
  unfold lt_md in Hlt. rewrite Hx1, Hy1 in Hlt. apply flt_Fin in Hlt.
  rewrite Hy1 in Hm. injection Hm as <-.
  unfold interpolation, position, lerp.
  rewrite Hx1, Hx2, Hx3, Hx4, Hy1, Hy2, Hy3, Hy4. cbn.
  rewrite Reqb_neq by lra. cbn.
  repeat f_equal; field; lra.
Qed.

Lemma segment_cons_below (x : TrajectoryStation) (l : list TrajectoryStation)
  (s e m : R) :
  md x = Fin m -> m < s ->
  segment (x :: l) (Fin s) (Fin e) = segment l (Fin s) (Fin e).
Proof.
  intros H Hlt. unfold segment. cbn [filter].
  now rewrite (in_range_below s e m x H Hlt).
Qed.

Lemma segment_cons_inside (x : TrajectoryStation) (l : list TrajectoryStation)
  (s e m : R) :
  md x = Fin m -> s <= m <= e ->
  segment (x :: l) (Fin s) (Fin e)
  = station_point x :: segment l (Fin s) (Fin e).
Proof.
  intros H Hin. unfold segment. cbn [filter].
  now rewrite (proj2 (in_range_Fin s e m x H) Hin).
Qed.

(** When every station lies beyond the start, step 2 interpolates. *)
Lemma first_when_above {A : Type} (l : list TrajectoryStation) (s e : R)
  (yes no : A) :
  Forall (fun t => flt (Fin s) (md t) = true) l ->
  match segment l (Fin s) (Fin e) with
  | [] => yes
  | p :: _ => if fgt (p_m p) (Fin s) then yes else no
  end = yes.
Proof.
  unfold segment. induction 1 as [| t l Ht Hl IH]; cbn [filter map].
  - reflexivity.
  - destruct (in_range (Fin s) (Fin e) t); [| exact IH].
    cbn [map p_m station_point]. unfold fgt. now rewrite Ht.
Qed.

Lemma station_point_of (x : TrajectoryStation) (d : pyfloat) :
  md x = d -> point_of (position x) d = station_point x.
Proof. intros <-. reflexivity. Qed.

(** The first point of the path: it sits at [s], at the position the
    station path has there. *)
Lemma path_start_head (sts : list TrajectoryStation) (s e : R) :
  StronglySorted lt_md sts -> all_finite sts -> s <= e ->
  (exists x rest, sts = x :: rest /\ fle (md x) (Fin s) = true) ->
  covered sts e ->
  exists pos,
    position_at sts (Fin s) = Some pos
    /\ hd_error (path_start sts (Fin s) (Fin e)) = Some (point_of pos (Fin s)).
Proof.
  intros Hsort; induction Hsort as [| x rest Hrest IH Hx];
    intros Hfin Hse (x0 & rest0 & Heq & Hlo) Hcov; [discriminate |].
  injection Heq as <- <-.
  inversion Hfin as [| ? ? Fx Frest]; subst.
  destruct (finite_position_inv x Fx) as (mx & ? & ? & ? & Hmx & _).
  rewrite Hmx in Hlo. apply fle_Fin in Hlo.
  destruct (Rle_lt_or_eq_dec _ _ Hlo) as [Hlt | <-].
  - (* the first station lies before the start *)
    destruct rest as [| y rest'].
    { destruct Hcov as (l & [= <-] & Hl). rewrite Hmx in Hl.
      apply fle_Fin in Hl. lra. }
    inversion Frest as [| ? ? Fy _]; subst.
    destruct (finite_position_inv y Fy) as (my & ? & ? & ? & Hmy & _).
    assert (Hxy : lt_md x y) by (inversion Hx; assumption).
    assert (Hmxy : mx < my).
    { unfold lt_md in Hxy. rewrite Hmx, Hmy in Hxy. now apply flt_Fin. }
    assert (Hbelow : flt (md x) (Fin s) = true).
    { rewrite Hmx. now apply flt_Fin. }
    unfold path_start. rewrite (segment_cons_below x _ s e mx Hmx Hlt).
    destruct (Rtotal_order my s) as [Hys | [-> | Hys]].
    + (* the next one too: same as without the first *)
      rewrite interpolated_skip;
        [| assumption | rewrite Hmy; now apply flt_Fin].
      assert (Hhead : exists x1 rest1,
                 y :: rest' = x1 :: rest1 /\ fle (md x1) (Fin s) = true).
      { exists y, rest'. split; [reflexivity |].
        rewrite Hmy. apply fle_Fin. lra. }
      assert (Hcov' : covered (y :: rest') e).
      { destruct Hcov as (l & Hl & Hle). now exists l. }
      destruct (IH Frest Hse Hhead Hcov') as (pos & Hpos & Hhd).
      exists pos. split; [| exact Hhd].
      cbn [position_at]. rewrite Hmy.
      replace (fle (Fin s) (Fin my)) with false
        by (symmetry; apply fle_Fin_false; lra).
      rewrite andb_false_r. rewrite <- Hmy. exact Hpos.
    + (* the next station sits at the start *)
      exists (position y). split.
      * cbn [position_at]. rewrite Hmx, Hmy.
        rewrite (proj2 (fle_Fin mx s)) by lra.
        rewrite (proj2 (fle_Fin s s)) by lra. cbn [andb].
        f_equal. now apply interpolation_at_upper.
      * rewrite (segment_cons_inside y _ s e s Hmy) by lra.
        cbn [p_m station_point]. unfold fgt. rewrite Hmy.
        rewrite (proj2 (flt_Fin_false s s)) by lra. cbn.
        f_equal. symmetry. now apply station_point_of.
    + (* the start lies strictly between the two *)
      exists (interpolation x y (Fin s)). split.
      * cbn [position_at]. rewrite Hmx, Hmy.
        rewrite (proj2 (fle_Fin mx s)) by lra.
        rewrite (proj2 (fle_Fin s my)) by lra. reflexivity.
      * rewrite first_when_above.
        -- rewrite interpolated_here; try assumption; [reflexivity |].
           rewrite Hmy. apply flt_Fin_false. lra.
        -- constructor; [rewrite Hmy; now apply flt_Fin |].
           inversion Hrest as [| ? ? _ Hy]; subst.
           eapply Forall_impl; [| exact Hy]. intros t Ht.
           eapply flt_trans; [| exact Ht]. rewrite Hmy. now apply flt_Fin.
  - (* the first station sits at the start *)
    exists (position x). split.
    + destruct rest as [| y rest']; cbn [position_at].
      * rewrite Hmx. unfold feq. now rewrite Reqb_refl.
      * inversion Frest as [| ? ? Fy _]; subst.
        destruct (finite_position_inv y Fy) as (my & ? & ? & ? & Hmy & _).
        assert (Hxy : lt_md x y) by (inversion Hx; assumption).
        assert (Hmxy : mx < my).
        { unfold lt_md in Hxy. rewrite Hmx, Hmy in Hxy. now apply flt_Fin. }
        rewrite Hmx, Hmy.
        rewrite (proj2 (fle_Fin mx mx)) by lra.
        rewrite (proj2 (fle_Fin mx my)) by lra. cbn [andb].
        f_equal. now apply interpolation_at_lower.
    + unfold path_start. rewrite (segment_cons_inside x _ mx e mx Hmx) by lra.
      cbn [p_m station_point]. unfold fgt. rewrite Hmx.
      rewrite (proj2 (flt_Fin_false mx mx)) by lra. cbn.
      f_equal. symmetry. now apply station_point_of.
Qed.

(** The point step 4 adds, when the first station lies before [e]. *)
Lemma interpolated_position (sts : list TrajectoryStation) (e : R) :
  StronglySorted lt_md sts -> all_finite sts ->
  (exists x rest, sts = x :: rest /\ flt (md x) (Fin e) = true) ->
  covered sts e ->
  exists pos,
    position_at sts (Fin e) = Some pos
    /\ interpolated sts (Fin e) = [point_of pos (Fin e)].
Proof.
  intros Hsort; induction Hsort as [| x rest Hrest IH Hx];
    intros Hfin (x0 & rest0 & Heq & Hlo) Hcov; [discriminate |].
  injection Heq as <- <-.
  inversion Hfin as [| ? ? Fx Frest]; subst.
  destruct (finite_position_inv x Fx) as (mx & ? & ? & ? & Hmx & _).
  assert (Hlt : mx < e) by (rewrite Hmx in Hlo; now apply flt_Fin).
  destruct rest as [| y rest'].
  { destruct Hcov as (l & [= <-] & Hl). rewrite Hmx in Hl.
    apply fle_Fin in Hl. lra. }
  inversion Frest as [| ? ? Fy _]; subst.
  destruct (finite_position_inv y Fy) as (my & ? & ? & ? & Hmy & _).
  assert (Hxy : lt_md x y) by (inversion Hx; assumption).
  destruct (Rlt_le_dec my e) as [Hye | Hye].
  - assert (Hhead : exists x1 rest1,
               y :: rest' = x1 :: rest1 /\ flt (md x1) (Fin e) = true).
    { exists y, rest'. split; [reflexivity |]. rewrite Hmy. now apply flt_Fin. }
    assert (Hcov' : covered (y :: rest') e).
    { destruct Hcov as (l & Hl & Hle). now exists l. }
    destruct (IH Frest Hhead Hcov') as (pos & Hpos & Hint).
    exists pos. split.
    + cbn [position_at]. rewrite Hmy.
      replace (fle (Fin e) (Fin my)) with false
        by (symmetry; apply fle_Fin_false; lra).
      rewrite andb_false_r. rewrite <- Hmy. exact Hpos.
    + rewrite interpolated_skip; [exact Hint | exact Hlo |].
      rewrite Hmy. now apply flt_Fin.
  - exists (interpolation x y (Fin e)). split.
    + cbn [position_at]. rewrite Hmx, Hmy.
      rewrite (proj2 (fle_Fin mx e)) by lra.
      rewrite (proj2 (fle_Fin e my)) by lra. reflexivity.
    + apply interpolated_here; try assumption.
      rewrite Hmy. now apply flt_Fin_false.
Qed.

(** At the depth of a station the path is at that station. *)
Lemma position_at_station (sts : list TrajectoryStation)
  (st : TrajectoryStation) (e : R) :
  StronglySorted lt_md sts -> all_finite sts ->
  In st sts -> md st = Fin e ->
  position_at sts (Fin e) = Some (position st).
Proof.
  intros Hsort; induction Hsort as [| x rest Hrest IH Hx];
    intros Hfin Hin Hst; [contradiction |].
  inversion Hfin as [| ? ? Fx Frest]; subst.
  destruct (finite_position_inv x Fx) as (mx & ? & ? & ? & Hmx & _).
  destruct rest as [| y rest'].
  { destruct Hin as [<- | []]. cbn. rewrite Hst. unfold feq.
    now rewrite Reqb_refl. }
  inversion Frest as [| ? ? Fy _]; subst.
  destruct (finite_position_inv y Fy) as (my & ? & ? & ? & Hmy & _).
  assert (Hxy : lt_md x y) by (inversion Hx; assumption).
  assert (Hmxy : mx < my).
  { unfold lt_md in Hxy. rewrite Hmx, Hmy in Hxy. now apply flt_Fin. }
  cbn [position_at].
  destruct Hin as [<- | Hin].
  - rewrite Hmx in Hst. injection Hst as <-. rewrite Hmx, Hmy.
    rewrite (proj2 (fle_Fin mx mx)) by lra.
    rewrite (proj2 (fle_Fin mx my)) by lra. cbn [andb].
    f_equal. now apply interpolation_at_lower.
  - assert (Hye : my <= e).
    { destruct Hin as [<- | Hin].
      - rewrite Hmy in Hst. injection Hst as <-. lra.
      - inversion Hrest as [| ? ? _ Hy]; subst.
        rewrite Forall_forall in Hy. specialize (Hy st Hin).
        unfold lt_md in Hy. rewrite Hmy, Hst in Hy. apply flt_Fin in Hy. lra. }
    destruct (Rle_lt_or_eq_dec _ _ Hye) as [Hlt | <-].
    + rewrite Hmy.
      replace (fle (Fin e) (Fin my)) with false
        by (symmetry; apply fle_Fin_false; lra).
      rewrite andb_false_r. rewrite <- Hmy. now apply IH.
    + assert (st = y).
      { destruct Hin as [<- | Hin]; [reflexivity |].
        inversion Hrest as [| ? ? _ Hy]; subst.
        rewrite Forall_forall in Hy. specialize (Hy st Hin).
        unfold lt_md in Hy. rewrite Hmy, Hst in Hy. apply flt_Fin in Hy. lra. }
      subst st. rewrite Hmx, Hmy.
      rewrite (proj2 (fle_Fin mx my)) by lra.
      rewrite (proj2 (fle_Fin my my)) by lra. cbn [andb].
      f_equal. now apply interpolation_at_upper.
Qed.

Lemma last_error_app_single {A : Type} (l : list A) (x : A) :
  last_error (l ++ [x]) = Some x.
Proof.
  induction l as [| a l IH]; [reflexivity |].
  cbn [app last_error]. destruct (l ++ [x]) eqn:E; [| exact IH].
  now destruct l.
Qed.

Lemma last_error_In {A : Type} (l : list A) (x : A) :
  last_error l = Some x -> In x l.
Proof.
  induction l as [| a l IH]; [discriminate |].
  destruct l as [| b l].
  - intros [= <-]. now left.
  - intros H. right. now apply IH.
Qed.

Lemma last_error_some {A : Type} (l : list A) :
  l <> [] -> exists x, last_error l = Some x.
Proof.
  induction l as [| a l IH]; [congruence |]. intros _.
  destruct l as [| b l]; [now exists a |].
  destruct IH as [x Hx]; [discriminate |]. now exists x.
Qed.

Lemma interpolated_short (sts : list TrajectoryStation) (d : pyfloat) :
  (List.length (interpolated sts d) <= 1)%nat.
Proof.
  rewrite interpolated_index.
  destruct (searchsorted (map md sts) d) as [| j]; [cbn; lia |].
  destruct (nth_error sts j), (nth_error sts (S j)); cbn; lia.
Qed.

Lemma segment_In (sts : list TrajectoryStation) (s e : pyfloat) (p : Point) :
  In p (segment sts s e) ->
  exists st, In st sts /\ in_range s e st = true /\ p = station_point st.
Proof.
  unfold segment. rewrite in_map_iff. intros (st & <- & Hin).
  apply filter_In in Hin. now exists st.
Qed.

(** The last point of the path: it sits at [e], at the position the
    station path has there. *)
Lemma path_points_last (sts : list TrajectoryStation) (s e : R) :
  StronglySorted lt_md sts -> all_finite sts -> s <= e ->
  (exists x rest, sts = x :: rest /\ fle (md x) (Fin s) = true) ->
  covered sts e ->
  exists pos,
    position_at sts (Fin e) = Some pos
    /\ last_error (path_points sts (Fin s) (Fin e))
       = Some (point_of pos (Fin e)).
Proof.
  intros Hsort Hfin Hse Hhead Hcov.
  destruct (path_start_head sts s e Hsort Hfin Hse Hhead Hcov)
    as (pos_s & Hpos_s & Hhd).
  unfold path_points.
  set (final := path_start sts (Fin s) (Fin e)) in *.
  assert (Hne : final <> []) by (intros E; rewrite E in Hhd; discriminate).
  destruct (last_error_some final Hne) as (p & Hp). rewrite Hp.
  (* where the last point of [final] comes from *)
  assert (Horigin :
    (exists st, In st sts /\ in_range (Fin s) (Fin e) st = true
                /\ p = station_point st)
    \/ p = point_of pos_s (Fin s)).
  { unfold final, path_start in Hp, Hhd.
    destruct (segment sts (Fin s) (Fin e)) as [| p1 seg] eqn:Hseg.
    - right. rewrite app_nil_r in Hp, Hhd.
      pose proof (interpolated_short sts (Fin s)) as Hlen.
      destruct (interpolated sts (Fin s)) as [| a [| b l]];
        cbn in Hp, Hhd, Hlen; try discriminate; try lia. congruence.
    - left. apply (segment_In sts (Fin s) (Fin e)). rewrite Hseg.
      apply last_error_In.
      destruct (if fgt (p_m p1) (Fin s) then interpolated sts (Fin s) else [])
        as [| a l] eqn:Hf; [exact Hp |].
      pose proof (interpolated_short sts (Fin s)) as Hlen.
      destruct (fgt (p_m p1) (Fin s)); [| discriminate].
      rewrite Hf in Hlen. destruct l; cbn in Hlen; [| lia].
      exact Hp. }
  destruct Hhead as (x & rest & -> & Hlo).
  inversion Hfin as [| ? ? Fx Frest]; subst.
  destruct (finite_position_inv x Fx) as (mx & ? & ? & ? & Hmx & _).
  rewrite Hmx in Hlo. apply fle_Fin in Hlo.
  assert (Hm : exists m, p_m p = Fin m /\ s <= m <= e).
  { destruct Horigin as [(st & Hin & Hr & ->) | ->].
    - assert (Fst : finite_position st = true).
      { unfold all_finite in Hfin. rewrite Forall_forall in Hfin. auto. }
      destruct (finite_position_inv st Fst) as (m & ? & ? & ? & Hmst & _).
      exists m. split; [exact Hmst |]. now apply (in_range_Fin s e m st Hmst).
    - exists s. split; [| lra]. now destruct pos_s as [[? ?] ?]. }
  destruct Hm as (m & Hpm & Hrange). rewrite Hpm.
  destruct (Rlt_le_dec m e) as [Hlt | Hge].
  - (* step 4 interpolates *)
    rewrite (proj2 (flt_Fin m e) Hlt).
    destruct (interpolated_position (x :: rest) e Hsort Hfin) as (pos & Hpos & Hint).
    + exists x, rest. split; [reflexivity |]. rewrite Hmx. apply flt_Fin. lra.
    + exact Hcov.
    + exists pos. split; [exact Hpos |]. rewrite Hint.
      apply last_error_app_single.
  - (* the path already ends at [e] *)
    rewrite (proj2 (flt_Fin_false m e) Hge). rewrite app_nil_r, Hp.
    assert (m = e) by lra. subst m.
    destruct Horigin as [(st & Hin & Hr & ->) | ->].
    + exists (position st). split.
      * now apply position_at_station.
      * f_equal. symmetry. now apply station_point_of.
    + assert (s = e).
      { destruct pos_s as [[? ?] ?]. cbn in Hpm. injection Hpm. lra. }
      subst s. now exists pos_s.
Qed.

Lemma polyline_points (sts : list TrajectoryStation) (s e : pyfloat) :
  polyline (get_path_segment sts s e) = map coords (path_points sts s e).
Proof.
  unfold get_path_segment, polyline.
  induction (path_points sts s e) as [| p l IH]; cbn; [reflexivity |].
  now rewrite IH.
Qed.

Lemma hd_error_map {A B : Type} (f : A -> B) (l : list A) :
  hd_error (map f l) = option_map f (hd_error l).
Proof. now destruct l. Qed.

Lemma last_error_map {A B : Type} (f : A -> B) (l : list A) :
  last_error (map f l) = option_map f (last_error l).
Proof.
  induction l as [| a l IH]; [reflexivity |].
  destruct l as [| b l]; [reflexivity |]. exact IH.
Qed.

Lemma coords_point_of (pos : pyfloat * pyfloat * pyfloat) (d : pyfloat) :
  coords (point_of pos d) = pos.
Proof. now destruct pos as [[? ?] ?]. Qed.


(** ** [position_at] does not depend on the pair it picks *)

(** Whichever two consecutive stations bracket the depth, the position of
    the path there is their interpolation. *)
Lemma position_at_any_bracket (pre post : list TrajectoryStation)
  (s0 s1 : TrajectoryStation) (d : R) :
  StronglySorted lt_md (pre ++ s0 :: s1 :: post) ->
  all_finite (pre ++ s0 :: s1 :: post) ->
  fle (md s0) (Fin d) = true -> fle (Fin d) (md s1) = true ->
  position_at (pre ++ s0 :: s1 :: post) (Fin d)
  = Some (interpolation s0 s1 (Fin d)).
Proof.
  intros Hs Hf H0 H1.
  assert (F0 : finite_position s0 = true).
  { unfold all_finite in Hf. rewrite Forall_forall in Hf. apply Hf.
    apply in_or_app. right. now left. }
  assert (F1 : finite_position s1 = true).
  { unfold all_finite in Hf. rewrite Forall_forall in Hf. apply Hf.
    apply in_or_app. right. right. now left. }
  destruct (finite_position_inv s0 F0) as (m0 & e0 & n0 & t0 & Hm0 & _).
  destruct (finite_position_inv s1 F1) as (m1 & e1 & n1 & t1 & Hm1 & _).
  assert (H01 : lt_md s0 s1).
  { clear - Hs. induction pre as [| x pre IH]; cbn in Hs.
    - inversion Hs as [| ? ? _ Hall]; subst. now inversion Hall.
    - inversion Hs; subst. now apply IH. }
  pose proof H0 as H0'. pose proof H1 as H1'.
  rewrite Hm0 in H0'. rewrite Hm1 in H1'.
  apply fle_Fin in H0'. apply fle_Fin in H1'.
  induction pre as [| x pre IH].
  - cbn [app position_at]. now rewrite H0, H1.
  - cbn [app] in Hs, Hf.
    inversion Hs as [| ? ? Hs' Hx]; subst.
    inversion Hf as [| ? ? Fx Hf']; subst.
    specialize (IH Hs' Hf').
    destruct (finite_position_inv x Fx) as (mx & ex & nx & tx & Hmx & _).
    assert (Hx0 : lt_md x s0).
    { rewrite Forall_forall in Hx. apply Hx. apply in_or_app. right. now left. }
    assert (Hmx0 : mx < m0).
    { unfold lt_md in Hx0. rewrite Hmx, Hm0 in Hx0. now apply flt_Fin. }
    destruct pre as [| y pre'].
    + cbn [app position_at] in *. rewrite Hmx, Hm0.
      rewrite (proj2 (fle_Fin mx d)) by lra. cbn [andb].
      destruct (fle (Fin d) (Fin m0)) eqn:E.
      * apply fle_Fin in E. assert (d = m0) by lra. subst d.
        rewrite (interpolation_at_upper x s0 m0 Fx F0 Hm0 Hx0).
        now rewrite (interpolation_at_lower s0 s1 m0 F0 F1 Hm0 H01).
      * rewrite <- Hm0. exact IH.
    + cbn [app] in *.
      inversion Hf' as [| ? ? Fy _]; subst.
      destruct (finite_position_inv y Fy) as (my & ey & ny & ty & Hmy & _).
      assert (Hy0 : lt_md y s0).
      { inversion Hs' as [| ? ? _ Hy]; subst.
        rewrite Forall_forall in Hy. apply Hy. apply in_or_app. right.
        now left. }
      assert (Hmy0 : my < m0).
      { unfold lt_md in Hy0. rewrite Hmy, Hm0 in Hy0. now apply flt_Fin. }
      cbn [position_at]. rewrite Hmy.
      replace (fle (Fin d) (Fin my)) with false
        by (symmetry; apply fle_Fin_false; lra).
      rewrite andb_false_r. rewrite <- Hmy. exact IH.
Qed.

Lemma interpolates_position_at (sts : list TrajectoryStation) (d : R)
  (p : pyfloat * pyfloat * pyfloat) :
  StronglySorted lt_md sts -> all_finite sts ->
  position_at sts (Fin d) = Some p -> interpolates sts (Fin d) p.
Proof.
  intros Hs Hf Hp. split; [exact Hp |].
  intros pre s0 s1 post -> H0 H1.
  rewrite (position_at_any_bracket pre post s0 s1 d Hs Hf H0 H1) in Hp.
  congruence.
Qed.

(** C1.  For stations with strictly increasing depths (and finite depths
    and positions) and a depth range [start, end] inside the depths
    covered, the polyline returned by [get_path_segment] is not empty, its
    first point is the linear interpolation of the bracketing stations at
    [start] and its last point the one at [end]; no station needs to sit at
    either depth. *)
Theorem path_endpoints_interpolated (sts : list TrajectoryStation)
  (first last : TrajectoryStation) (start_depth end_depth : R) :
  increasing_depths sts ->
  all_finite sts ->
  hd_error sts = Some first ->
  last_error sts = Some last ->
  fle (md first) (Fin start_depth) = true ->
  start_depth <= end_depth ->
  fle (Fin end_depth) (md last) = true ->
  exists p q,
    interpolates sts (Fin start_depth) p
    /\ interpolates sts (Fin end_depth) q
    /\ hd_error (polyline (get_path_segment sts (Fin start_depth)
                             (Fin end_depth))) = Some p
    /\ last_error (polyline (get_path_segment sts (Fin start_depth)
                               (Fin end_depth))) = Some q.
Proof.
  intros Hinc Hfin Hfirst Hlast Hlo Hse Hhi.
  apply increasing_strong in Hinc.
  assert (Hhead : exists x rest, sts = x :: rest
                                 /\ fle (md x) (Fin start_depth) = true).
  { destruct sts as [| x rest]; [discriminate |].
    injection Hfirst as ->. now exists first, rest. }
  assert (Hcov : covered sts end_depth) by now exists last.
  destruct (path_start_head sts _ _ Hinc Hfin Hse Hhead Hcov)
    as (p & Hp & Hhd).
  destruct (path_points_last sts _ _ Hinc Hfin Hse Hhead Hcov)
    as (q & Hq & Hlst).
  exists p, q. rewrite polyline_points, hd_error_map, last_error_map, Hlst.
  split; [now apply interpolates_position_at |].
  split; [now apply interpolates_position_at |].
  split.
  - unfold path_points.
    destruct (path_start sts (Fin start_depth) (Fin end_depth)) as [| a l];
      [discriminate |].
    cbn in Hhd |- *. injection Hhd as ->. now rewrite coords_point_of.
  - cbn. now rewrite coords_point_of.
Qed.

Lemma path_endpoints_interpolated_witness :
  let sts := [mkStation (Fin 0) (Fin 0) (Fin 0) (Fin 0) (Fin 0) (Fin 0) (Fin 0);
              mkStation (Fin 1000) (Fin 2) (Fin 90) (Fin 999) (Fin 3) (Fin 17)
                        (Fin 0);
              mkStation (Fin 2000) (Fin 4) (Fin 90) (Fin 1997) (Fin 5) (Fin 69)
                        (Fin 0)] in
  exists p q,
    interpolates sts (Fin 500) p
    /\ interpolates sts (Fin 1500) q
    /\ hd_error (polyline (get_path_segment sts (Fin 500) (Fin 1500))) = Some p
    /\ last_error (polyline (get_path_segment sts (Fin 500) (Fin 1500)))
       = Some q.
Proof.
  intros sts.
  apply (path_endpoints_interpolated sts
           (mkStation (Fin 0) (Fin 0) (Fin 0) (Fin 0) (Fin 0) (Fin 0) (Fin 0))
           (mkStation (Fin 2000) (Fin 4) (Fin 90) (Fin 1997) (Fin 5) (Fin 69)
                      (Fin 0))).
  - repeat constructor; unfold lt_md; cbn [md]; apply flt_Fin; lra.
  - repeat constructor.
  - reflexivity.
  - reflexivity.
  - cbn [md]. apply fle_Fin. lra.
  - lra.
  - cbn [md]. apply fle_Fin. lra.
Defined.

(** ** The accumulator against the accumulation of the specification *)

Lemma loop_body_solve (st : LoopState) (r : Row) :
  is_tie_in r = false ->
  loop_body st r
  = (d <- minimum_curvature (prev_md st) (prev_inc st) (prev_azi st)
                            (m_md (snd r)) (m_inc (snd r)) (m_azi (snd r)) ;;
     let '(d_n, d_e, d_tvd, dls) := d in
     let n := fadd (current_n st) d_n in
     let e := fadd (current_e st) d_e in
     let t := fadd (current_tvd st) d_tvd in
     Ok (mkLoop n e t (m_md (snd r)) (m_inc (snd r)) (m_azi (snd r))
           (stations_to_create st
            ++ [mkStation (m_md (snd r)) (m_inc (snd r)) (m_azi (snd r))
                          t n e dls]))).
Proof.
  unfold is_tie_in, loop_body. intros ->. reflexivity.
Qed.

Lemma loop_body_tie_in (st : LoopState) (r : Row) :
  is_tie_in r = true ->
  loop_body st r
  = Ok (mkLoop (current_n st) (current_e st) (current_tvd st)
          (m_md (snd r)) (m_inc (snd r)) (m_azi (snd r))
          (stations_to_create st
           ++ [mkStation (m_md (snd r)) (m_inc (snd r)) (m_azi (snd r))
                         (current_tvd st) (current_n st) (current_e st)
                         (Fin 0)])).
Proof.
  unfold is_tie_in, loop_body. intros ->. reflexivity.
Qed.

(** Rows that are not tie-ins are solved one against the other. *)
Lemma run_loop_solve (rows : list Row) (st : LoopState) :
  Forall (fun r => is_tie_in r = false) rows ->
  (st' <- run_loop st rows ;; Ok (stations_to_create st'))
  = (tail <- solve_from
               (mkMeasurement (prev_md st) (prev_inc st) (prev_azi st))
               (current_n st) (current_e st) (current_tvd st)
               (map snd rows) ;;
     Ok (stations_to_create st ++ tail)).
Proof.
  intros H; revert st; induction H as [| r rows Hr _ IH]; intros st.
  - cbn. now rewrite app_nil_r.
  - cbn [run_loop map solve_from]. rewrite (loop_body_solve st r Hr).
    cbn [m_md m_inc m_azi].
    destruct (minimum_curvature _ _ _ _ _ _) as [[[[d_n d_e] d_tvd] dls] | e];
      cbn [bind]; [| reflexivity].
    rewrite IH. cbn [prev_md prev_inc prev_azi current_n current_e current_tvd
                     stations_to_create].
    destruct r as [k [m i a]]; cbn [snd m_md m_inc m_azi].
    destruct (solve_from _ _ _ _ _) as [rest | e]; cbn [bind]; [| reflexivity].
    now rewrite <- app_assoc.
Qed.

Lemma enumerate_from_fst {A : Type} (k : nat) (l : list A) :
  map fst (enumerate_from k l) = seq k (List.length l).
Proof.
  revert k; induction l as [| x l IH]; intros k; cbn; [reflexivity |].
  now rewrite IH.
Qed.

Lemma sort_values_labels (ms : list Measurement) :
  NoDup (map fst (sort_values (read_rows ms))).
Proof.
  apply (Permutation_NoDup
           (Permutation_sym (Permutation_map fst
                               (sort_values_perm (read_rows ms))))).
  unfold read_rows. rewrite enumerate_from_fst. apply seq_NoDup.
Qed.

(** Decide the comparisons of numerals left in the goal. *)
Ltac decide_reals :=
  repeat match goal with
  | |- context [Rltb ?a ?b] =>
      first [ rewrite (proj2 (Rltb_true a b)) by lra
            | rewrite (proj2 (Rltb_false a b)) by lra ]
  | |- context [Reqb ?a ?b] =>
      first [ rewrite (proj2 (Reqb_true a b)) by lra
            | rewrite (proj2 (Reqb_false a b)) by lra ]
  | |- context [Rleb ?a ?b] =>
      first [ rewrite (proj2 (Rleb_true a b)) by lra
            | rewrite (proj2 (Rleb_false a b)) by lra ]
  end.

(** The tie-in row first, then the solver from row to row. *)
Lemma accumulate_tie_in (ms : list Measurement) (m0 : Measurement)
  (rest : list Row) :
  sort_values (read_rows ms) = (0%nat, m0) :: rest ->
  feq (m_md m0) (Fin 0) = true ->
  accumulate ms
  = (tail <- solve_from m0 (Fin 0) (Fin 0) (Fin 0) (map snd rest) ;;
     Ok (tie_in_station m0 :: tail)).
Proof.
  intros Hrows Hmd. unfold accumulate.
  pose proof (sort_values_labels ms) as Hnd. rewrite Hrows in *.
  cbn [map fst] in Hnd. inversion Hnd as [| ? ? Hnotin _]; subst.
  assert (Hrest : Forall (fun r => is_tie_in r = false) rest).
  { apply Forall_forall. intros [k m] Hin. unfold is_tie_in. cbn [fst snd].
    destruct k; [| reflexivity].
    exfalso. apply Hnotin. apply in_map_iff. now exists (0%nat, m). }
  cbn [run_loop].
  rewrite (loop_body_tie_in initial_state (0%nat, m0))
    by (unfold is_tie_in; cbn [fst snd]; now rewrite Hmd).
  cbn [bind]. rewrite (run_loop_solve rest _ Hrest).
  cbn [snd prev_md prev_inc prev_azi current_n current_e current_tvd
       stations_to_create initial_state app].
  destruct m0 as [m i a]. reflexivity.
Qed.

(** ** The order of the rows *)

Lemma flt_asym (a b : pyfloat) : flt a b = true -> flt b a = false.
Proof.
  destruct a as [x | [] | ], b as [y | [] | ]; cbn;
    try discriminate; try reflexivity.
  rewrite Rltb_true, Rltb_false. lra.
Qed.

Lemma flt_irrefl (a : pyfloat) : flt a a = false.
Proof.
  destruct (flt a a) eqn:H; [| reflexivity].
  now rewrite (flt_asym a a H) in H.
Qed.

(** Without NaN in the middle, "not above" is transitive. *)
Lemma not_flt_trans (a b c : pyfloat) :
  is_nan b = false ->
  flt b a = false -> flt c b = false -> flt c a = false.
Proof.
  destruct a as [x | [] | ], b as [y | [] | ], c as [z | [] | ]; cbn;
    try discriminate; try reflexivity.
  rewrite !Rltb_false. lra.
Qed.

Lemma insert_row_sorted (r : Row) (l : list Row) :
  is_nan (row_md r) = false ->
  Forall (fun x => is_nan (row_md x) = false) l ->
  StronglySorted le_row l -> StronglySorted le_row (insert_row r l).
Proof.
  intros Hr Hnan Hs; induction Hs as [| r' l Hl IH Hall]; cbn [insert_row].
  - constructor; constructor.
  - inversion Hnan as [| ? ? Hr' Hnan']; subst.
    destruct (flt (row_md r') (row_md r)) eqn:E.
    + constructor; [now apply IH |].
      apply (Permutation_Forall (Permutation_sym (insert_row_perm r l))).
      constructor; [| assumption].
      unfold le_row, le_depth. now apply flt_asym.
    + constructor; [now constructor |].
      constructor; [exact E |].
      eapply Forall_impl; [| exact Hall]. intros c Hc.
      unfold le_row, le_depth in *.
      apply (not_flt_trans _ (row_md r')); assumption.
Qed.

Lemma insertion_sort_sorted (l : list Row) :
  Forall (fun x => is_nan (row_md x) = false) l ->
  StronglySorted le_row (insertion_sort l).
Proof.
  induction 1 as [| r l Hr Hl IH]; cbn [insertion_sort]; [constructor |].
  apply insert_row_sorted; try assumption.
  now apply (Permutation_Forall (Permutation_sym (insertion_sort_perm l))).
Qed.

Lemma sort_values_no_nan (l : list Row) :
  Forall (fun x => is_nan (row_md x) = false) l ->
  sort_values l = insertion_sort l.
Proof.
  intros H. unfold sort_values.
  assert (H12 : filter (fun r => negb (is_nan (row_md r))) l = l
                /\ filter (fun r => is_nan (row_md r)) l = []).
  { induction H as [| r l Hr _ [IH1 IH2]]; cbn; [now split |].
    now rewrite Hr, IH1, IH2. }
  destruct H12 as [-> ->]. now rewrite app_nil_r.
Qed.

Lemma sorted_rows_measurements (rows : list Row) :
  StronglySorted le_row rows -> StronglySorted le_depth (map snd rows).
Proof.
  induction 1 as [| r rows _ IH Hall]; cbn; constructor; [assumption |].
  apply Forall_map. exact Hall.
Qed.

(** A list with strictly increasing depths is the only way to put its
    measurements in depth order. *)
Lemma sorted_unique (ms l : list Measurement) :
  StronglySorted lt_depth ms -> StronglySorted le_depth l ->
  Permutation ms l -> l = ms.
Proof.
  intros Hms; revert l; induction Hms as [| a ms Hs IH Ha]; intros l Hl Hp.
  - now apply Permutation_nil in Hp.
  - destruct l as [| b l].
    { apply Permutation_sym, Permutation_nil in Hp. discriminate. }
    inversion Hl as [| ? ? Hl' Hb]; subst.
    assert (b = a).
    { assert (Hin_b : In b (a :: ms))
        by (apply (Permutation_in _ (Permutation_sym Hp)); now left).
      assert (Hin_a : In a (b :: l))
        by (apply (Permutation_in _ Hp); now left).
      destruct Hin_b as [-> | Hin_b]; [reflexivity |].
      destruct Hin_a as [-> | Hin_a]; [reflexivity |].
      rewrite Forall_forall in Ha, Hb.
      specialize (Ha b Hin_b). specialize (Hb a Hin_a).
      unfold lt_depth in Ha. unfold le_depth in Hb. congruence. }
    subst b. f_equal. apply IH; [assumption |].
    now apply Permutation_cons_inv in Hp.
Qed.

Lemma lt_depth_trans (a b c : Measurement) :
  lt_depth a b -> lt_depth b c -> lt_depth a c.
Proof. apply flt_trans. Qed.

Lemma fle_zero_not_nan (a : pyfloat) : fle (Fin 0) a = true -> is_nan a = false.
Proof. destruct a; [reflexivity.. | discriminate]. Qed.

(** In whatever order the sheet lists them, measurements with strictly
    increasing non-negative depths are sorted back into that order. *)
Lemma sort_values_unique (ms ms' : list Measurement) :
  strictly_deeper ms -> from_surface ms -> Permutation ms ms' ->
  map snd (sort_values (read_rows ms')) = ms.
Proof.
  intros Hs Hpos Hp.
  assert (Hnan : Forall (fun x => is_nan (row_md x) = false) (read_rows ms')).
  { apply Forall_forall. intros r Hr. apply fle_zero_not_nan.
    unfold from_surface in Hpos. rewrite Forall_forall in Hpos. apply Hpos.
    apply (Permutation_in _ (Permutation_sym Hp)).
    assert (Hin : In (snd r) (map snd (read_rows ms'))) by now apply in_map.
    unfold read_rows in Hin. now rewrite enumerate_from_snd in Hin. }
  apply sorted_unique.
  - apply Sorted_StronglySorted; [| exact Hs].
    intros a b c. apply lt_depth_trans.
  - rewrite (sort_values_no_nan _ Hnan).
    apply sorted_rows_measurements. now apply insertion_sort_sorted.
  - rewrite Hp. symmetry. apply sort_values_rows_perm.
Qed.

(** ** The tie-in and the solver agree at the surface *)

Lemma feq_zero (a : pyfloat) : feq a (Fin 0) = true -> a = Fin 0.
Proof.
  destruct a as [x | s | ]; cbn; try discriminate.
  intros H. apply Reqb_true in H. now subst.
Qed.

Lemma deeper_not_zero (a b : pyfloat) :
  fle (Fin 0) a = true -> flt a b = true -> feq b (Fin 0) = false.
Proof.
  destruct a as [x | [] | ], b as [y | [] | ]; cbn;
    try discriminate; try reflexivity.
  unfold fle. cbn [flt feq].
  intros H Hxy. apply Rltb_true in Hxy. apply Reqb_false.
  apply orb_true_iff in H.
  destruct H as [H | H]; [apply Rltb_true in H | apply Reqb_true in H]; lra.
Qed.

(** From the zero datum to a finite measurement at depth zero the solver
    returns the zero increments of the tie-in. *)
Lemma solve_at_surface (i a : R) :
  minimum_curvature (Fin 0) (Fin 0) (Fin 0) (Fin 0) (Fin i) (Fin a)
  = Ok (Fin 0, Fin 0, Fin 0, Fin 0).
Proof.
  rewrite minimum_curvature_finite.
  destruct (Req_dec_T (0 + - 0) 0) as [_ | H]; [| lra].
  repeat f_equal; field.
Qed.

Lemma bind_ok_id {A : Type} (m : result (list A)) :
  (tail <- m ;; Ok ([] ++ tail)) = m.
Proof. now destruct m. Qed.

(** Whatever labels the rows carry, a frame in strictly increasing depth
    order that starts at or below the surface is accumulated by solving
    from the zero datum. *)
Lemma run_loop_from_datum (rows : list Row) :
  StronglySorted lt_depth (map snd rows) ->
  from_surface (map snd rows) ->
  surface_angles_finite (map snd rows) ->
  (st <- run_loop initial_state rows ;; Ok (stations_to_create st))
  = solve_from zero_datum (Fin 0) (Fin 0) (Fin 0) (map snd rows).
Proof.
  intros Hs Hpos Hfin.
  destruct rows as [| r0 rest]; [reflexivity |].
  cbn [map] in Hs, Hpos, Hfin.
  inversion Hs as [| ? ? _ Hdeeper]; subst.
  inversion Hpos as [| ? ? Hpos0 _]; subst.
  inversion Hfin as [| ? ? Hfin0 _]; subst.
  assert (Hrest : Forall (fun r => is_tie_in r = false) rest).
  { apply Forall_forall. intros r Hr. unfold is_tie_in.
    rewrite Forall_forall in Hdeeper.
    rewrite (deeper_not_zero (m_md (snd r0)) (m_md (snd r)) Hpos0).
    - apply andb_false_r.
    - apply Hdeeper. now apply in_map. }
  destruct (is_tie_in r0) eqn:Htie.
  - (* the tie-in branch gives what the solver would *)
    cbn [run_loop]. rewrite (loop_body_tie_in _ _ Htie). cbn [bind].
    rewrite (run_loop_solve rest _ Hrest).
    cbn [prev_md prev_inc prev_azi current_n current_e current_tvd
         stations_to_create initial_state app].
    unfold is_tie_in in Htie. apply andb_true_iff in Htie.
    destruct Htie as [_ Hzero]. specialize (Hfin0 Hzero).
    apply feq_zero in Hzero.
    destruct r0 as [k [m i a]]. cbn [snd m_md m_inc m_azi] in *. subst m.
    destruct i as [i | |]; try discriminate.
    destruct a as [a | |]; try discriminate.
    cbn [map solve_from zero_datum snd m_md m_inc m_azi].
    rewrite solve_at_surface. cbn [bind fadd].
    replace (0 + 0) with 0 by lra.
    reflexivity.
  - rewrite (run_loop_solve (r0 :: rest) initial_state)
      by (constructor; assumption).
    cbn [prev_md prev_inc prev_azi current_n current_e current_tvd
         stations_to_create initial_state].
    apply bind_ok_id.
Qed.

Lemma accumulate_from_datum (ms ms' : list Measurement) :
  strictly_deeper ms -> from_surface ms -> surface_angles_finite ms ->
  Permutation ms ms' ->
  accumulate ms' = solve_from zero_datum (Fin 0) (Fin 0) (Fin 0) ms.
Proof.
  intros Hs Hpos Hfin Hp. unfold accumulate.
  pose proof (sort_values_unique ms ms' Hs Hpos Hp) as Hrows.
  rewrite <- Hrows. apply run_loop_from_datum; rewrite Hrows; try assumption.
  apply Sorted_StronglySorted; [| exact Hs].
  intros a b c. apply lt_depth_trans.
Qed.

(** C5, as the code has it.  For measurements with strictly increasing
    (hence pairwise distinct), non-negative depths, a measurement at depth
    zero having a finite inclination and azimuth, the accumulator returns
    on every permutation of the sequence the stations it returns on the
    sequence itself. *)
Theorem accumulate_order_independent (ms ms' : list Measurement) :
  strictly_deeper ms -> from_surface ms -> surface_angles_finite ms ->
  Permutation ms ms' ->
  accumulate ms' = accumulate ms.
Proof.
  intros Hs Hpos Hfin Hp.
  rewrite (accumulate_from_datum ms ms' Hs Hpos Hfin Hp).
  now rewrite (accumulate_from_datum ms ms Hs Hpos Hfin (Permutation_refl ms)).
Qed.

Lemma accumulate_order_independent_witness :
  accumulate [mkMeasurement (Fin 200) (Fin 2) (Fin 90);
              mkMeasurement (Fin 0) (Fin 0) (Fin 0);
              mkMeasurement (Fin 100) (Fin 1) (Fin 45)]
  = accumulate [mkMeasurement (Fin 0) (Fin 0) (Fin 0);
                mkMeasurement (Fin 100) (Fin 1) (Fin 45);
                mkMeasurement (Fin 200) (Fin 2) (Fin 90)].
Proof.
  apply accumulate_order_independent.
  - repeat constructor; unfold lt_depth; cbn [m_md]; apply flt_Fin; lra.
  - repeat constructor; cbn [m_md]; apply fle_Fin; lra.
  - repeat constructor; cbn [m_md m_inc m_azi]; intros _; reflexivity.
  - apply Permutation_sym.
    apply (Permutation_cons_append
             [mkMeasurement (Fin 0) (Fin 0) (Fin 0);
              mkMeasurement (Fin 100) (Fin 1) (Fin 45)]
             (mkMeasurement (Fin 200) (Fin 2) (Fin 90))).
Defined.

(** ** The tie-in, whatever the sort does with equal depths *)

(** Split a sortedness goal on a list that is written out into the
    comparisons of its elements. *)
Ltac sorted_list :=
  repeat first [ apply SSorted_nil | apply SSorted_cons
               | apply Forall_nil | apply Forall_cons ].

(** The comparisons of finite depths in a depth ordering. *)
Ltac depth_ordered :=
  sorted_list; right; (split; [reflexivity |]);
  unfold row_md; cbn [snd m_md]; apply flt_Fin_false; lra.

Lemma ordering_measurements (ms : list Measurement) (rows : list Row) :
  depth_ordering (read_rows ms) rows -> Permutation (map snd rows) ms.
Proof.
  intros [Hp _]. rewrite (Permutation_map snd Hp).
  unfold read_rows. now rewrite enumerate_from_snd.
Qed.

Lemma ordering_labels (ms : list Measurement) (rows : list Row) :
  depth_ordering (read_rows ms) rows -> NoDup (map fst rows).
Proof.
  intros [Hp _].
  apply (Permutation_NoDup (Permutation_sym (Permutation_map fst Hp))).
  unfold read_rows. rewrite enumerate_from_fst. apply seq_NoDup.
Qed.

Lemma ordering_sorted (frame rows : list Row) :
  depth_ordering frame rows ->
  Forall (fun r => is_nan (row_md r) = false) rows ->
  StronglySorted le_row rows.
Proof.
  intros [_ Hs] Hnan. induction Hs as [| r rows Hs IH Hall]; [constructor |].
  inversion Hnan as [| ? ? _ Hnan']; subst.
  constructor; [now apply IH |].
  rewrite Forall_forall in Hall, Hnan'. apply Forall_forall. intros r' Hr'.
  destruct (Hall r' Hr') as [H | [_ H]]; [| exact H].
  rewrite (Hnan' r' Hr') in H. discriminate.
Qed.

Lemma StronglySorted_app_intro {A : Type} (R : A -> A -> Prop)
  (l1 l2 : list A) :
  StronglySorted R l1 -> StronglySorted R l2 ->
  (forall a b, In a l1 -> In b l2 -> R a b) ->
  StronglySorted R (l1 ++ l2).
Proof.
  intros H1 H2 Hc. induction H1 as [| a l1 H1 IH Ha]; [exact H2 |].
  cbn. constructor.
  - apply IH. intros x y Hx Hy. apply Hc; [now right | exact Hy].
  - apply Forall_app. split; [exact Ha |].
    apply Forall_forall. intros b Hb. apply Hc; [now left | exact Hb].
Qed.

(** The stable sort of [sort_values] is one of the depth orderings. *)
Lemma sort_values_ordering (frame : list Row) :
  depth_ordering frame (sort_values frame).
Proof.
  split; [apply sort_values_perm |]. unfold sort_values.
  assert (Hnn : Forall (fun x => is_nan (row_md x) = false)
                  (filter (fun r => negb (is_nan (row_md r))) frame)).
  { apply Forall_forall. intros r Hr. apply filter_In in Hr.
    destruct Hr as [_ Hr]. now apply negb_true_iff in Hr. }
  apply StronglySorted_app_intro.
  - pose proof (insertion_sort_sorted _ Hnn) as Hs.
    pose proof (Permutation_Forall
                  (Permutation_sym (insertion_sort_perm _)) Hnn) as Hn.
    induction Hs as [| r rows Hs IH Hall]; [constructor |].
    inversion Hn as [| ? ? Hr Hn']; subst.
    constructor; [now apply IH |].
    eapply Forall_impl; [| exact Hall]. intros r' Hr'. right. now split.
  - clear Hnn. induction frame as [| r frame IH]; cbn [filter];
      [constructor |].
    destruct (is_nan (row_md r)) eqn:E; [| exact IH].
    constructor; [exact IH |].
    apply Forall_forall. intros r' Hr'. apply filter_In in Hr'. now left.
  - intros a b _ Hb. apply filter_In in Hb. now left.
Qed.

(** One row at depth zero first, then the solver from row to row. *)
Lemma survey_stations_tie_in (rows rest : list Row) (k : nat)
  (m0 : Measurement) :
  rows = (k, m0) :: rest ->
  feq (m_md m0) (Fin 0) = true ->
  Forall (fun r => is_tie_in r = false) rest ->
  k = 0%nat \/ is_finite (m_inc m0) && is_finite (m_azi m0) = true ->
  survey_stations rows
  = (tail <- solve_from m0 (Fin 0) (Fin 0) (Fin 0) (map snd rest) ;;
     Ok (tie_in_station m0 :: tail)).
Proof.
  intros -> Hmd Hrest Hk. unfold survey_stations. cbn [run_loop].
  destruct (is_tie_in (k, m0)) eqn:Htie.
  - rewrite (loop_body_tie_in initial_state (k, m0) Htie).
    cbn [bind]. rewrite (run_loop_solve rest _ Hrest).
    cbn [snd prev_md prev_inc prev_azi current_n current_e current_tvd
         stations_to_create initial_state app].
    destruct m0 as [m i a]. reflexivity.
  - destruct Hk as [-> | Hfin].
    { unfold is_tie_in in Htie. cbn [fst snd] in Htie.
      rewrite Hmd in Htie. discriminate. }
    rewrite (loop_body_solve initial_state (k, m0) Htie).
    apply feq_zero in Hmd. destruct m0 as [m i a].
    cbn [snd m_md m_inc m_azi] in *. subst m.
    destruct i as [i | |]; try discriminate.
    destruct a as [a | |]; try discriminate.
    cbn [initial_state prev_md prev_inc prev_azi current_n current_e
         current_tvd stations_to_create].
    rewrite solve_at_surface. cbn [bind fadd].
    replace (0 + 0) with 0 by lra.
    rewrite (run_loop_solve rest _ Hrest).
    cbn [prev_md prev_inc prev_azi current_n current_e current_tvd
         stations_to_create app].
    reflexivity.
Qed.

(** C6, as the code has it.  Take any order the sort may give the rows
    (rows of equal depth in any order).  When the row that comes first has
    depth exactly zero and is the first row of the sheet (label 0), its
    station gets zero offsets and a zero dogleg severity and the solver is
    not called for it, whatever its inclination and azimuth.  When it is
    another row of the sheet, the solver is called for it against the zero
    datum; with a finite inclination and azimuth, and no other row at
    depth zero, the result is the same station.  In both cases every later
    measurement is solved against the measurement before it in that order
    (the second against the row at depth zero itself, not against the zero
    datum) and the increments are added to the running totals. *)
Theorem tie_in_then_solve (ms : list Measurement) (rows rest : list Row)
  (k : nat) (m0 : Measurement) :
  depth_ordering (read_rows ms) rows ->
  rows = (k, m0) :: rest ->
  feq (m_md m0) (Fin 0) = true ->
  k = 0%nat
  \/ (is_finite (m_inc m0) && is_finite (m_azi m0) = true
      /\ Forall (fun r => feq (row_md r) (Fin 0) = false) rest) ->
  survey_stations rows
  = (tail <- solve_from m0 (Fin 0) (Fin 0) (Fin 0) (map snd rest) ;;
     Ok (tie_in_station m0 :: tail)).
Proof.
  intros Hord Hrows Hmd Hk.
  apply (survey_stations_tie_in rows rest k m0 Hrows Hmd).
  - destruct Hk as [-> | [_ Hzero]].
    + pose proof (ordering_labels ms rows Hord) as Hnd. rewrite Hrows in Hnd.
      cbn [map fst] in Hnd. inversion Hnd as [| ? ? Hnotin _]; subst.
      apply Forall_forall. intros [j m] Hin. unfold is_tie_in. cbn [fst snd].
      destruct j; [| reflexivity].
      exfalso. apply Hnotin. apply in_map_iff. now exists (0%nat, m).
    + eapply Forall_impl; [| exact Hzero]. intros r Hr.
      unfold is_tie_in. unfold row_md in Hr. rewrite Hr. apply andb_false_r.
  - destruct Hk as [-> | [Hfin _]]; [now left | now right].
Qed.

Lemma tie_in_then_solve_witness :
  let m0 := mkMeasurement (Fin 0) (Fin 3) (Fin 10) in
  let m50 := mkMeasurement (Fin 50) (Fin 4) (Fin 15) in
  let m100 := mkMeasurement (Fin 100) (Fin 5) (Fin 20) in
  survey_stations [(0%nat, m0); (2%nat, m50); (1%nat, m100)]
  = (tail <- solve_from m0 (Fin 0) (Fin 0) (Fin 0) [m50; m100] ;;
     Ok (tie_in_station m0 :: tail)).
Proof.
  intros m0 m50 m100.
  apply (tie_in_then_solve [m0; m100; m50]
           [(0%nat, m0); (2%nat, m50); (1%nat, m100)]
           [(2%nat, m50); (1%nat, m100)] 0 m0).
  - subst m0 m50 m100. split.
    + apply perm_skip, perm_swap.
    + depth_ordered.
  - reflexivity.
  - subst m0. cbn [m_md]. apply feq_Fin. reflexivity.
  - now left.
Defined.

(** ** Two dogleg angles *)

Lemma clamp_real_inside (x : R) : -1 <= x <= 1 -> clamp_real x = x.
Proof. intros H. unfold clamp_real. rbool; lra. Qed.

Lemma beta_real_straight (inc azi : R) : beta_real inc azi inc azi = 0.
Proof.
  unfold beta_real.
  assert (H : cos_beta_real (inc * (PI / 180)) (azi * (PI / 180))
                            (inc * (PI / 180)) (azi * (PI / 180)) = 1).
  { unfold cos_beta_real.
    replace (inc * (PI / 180) + - (inc * (PI / 180))) with 0 by lra.
    replace (azi * (PI / 180) + - (azi * (PI / 180))) with 0 by lra.
    rewrite cos_0. ring. }
  rewrite H, clamp_real_inside by lra. apply acos_1.
Qed.

Lemma beta_real_quarter_turn : beta_real 0 0 90 0 = PI / 2.
Proof.
  unfold beta_real.
  assert (H : cos_beta_real (0 * (PI / 180)) (0 * (PI / 180))
                            (90 * (PI / 180)) (0 * (PI / 180)) = 0).
  { unfold cos_beta_real.
    replace (90 * (PI / 180) + - (0 * (PI / 180))) with (PI / 2) by lra.
    replace (0 * (PI / 180)) with 0 by lra.
    rewrite cos_PI2, sin_0. ring. }
  rewrite H, clamp_real_inside by lra. apply acos_0.
Qed.

Lemma dls_straight (inc azi : R) :
  (if Req_dec_T (100 + - 0) 0 then 0
   else beta_real inc azi inc azi * (180 / PI) * 30 / (100 + - 0)) = 0.
Proof.
  destruct (Req_dec_T (100 + - 0) 0) as [H | _]; [lra |].
  rewrite beta_real_straight. field. apply PI_neq0.
Qed.

Lemma dls_quarter_turn :
  (if Req_dec_T (100 + - 0) 0 then 0
   else beta_real 0 0 90 0 * (180 / PI) * 30 / (100 + - 0)) = 27.
Proof.
  destruct (Req_dec_T (100 + - 0) 0) as [H | _]; [lra |].
  rewrite beta_real_quarter_turn. field. apply PI_neq0.
Qed.

(** ** The claims about the order of the rows and the tie-in, refuted *)

(** C5, the claim refuted: two measurements at the same depth.  Sorted
    either way, the stable sort keeps the order of the sheet, and the
    first station has a dogleg severity of 0 in one order and of 27 in the
    other. *)
Lemma equal_depths_order_dependent :
  let a := mkMeasurement (Fin 100) (Fin 0) (Fin 0) in
  let b := mkMeasurement (Fin 100) (Fin 90) (Fin 0) in
  Permutation [a; b] [b; a]
  /\ StronglySorted le_depth [a; b]
  /\ dls_of_station 0 (accumulate [a; b]) = Some (Fin 0)
  /\ dls_of_station 0 (accumulate [b; a]) = Some (Fin 27)
  /\ accumulate [b; a] <> accumulate [a; b].
Proof.
  intros a b.
  assert (Hab : dls_of_station 0 (accumulate [a; b]) = Some (Fin 0)).
  { unfold accumulate, sort_values, read_rows. cbn. decide_reals.
    rewrite (run_loop_solve _ initial_state).
    - subst a b.
      cbn [app map snd solve_from initial_state prev_md prev_inc prev_azi
           current_n current_e current_tvd stations_to_create
           m_md m_inc m_azi].
      rewrite !minimum_curvature_finite. cbn [bind fadd app].
      cbn [dls_of_station nth_error option_map dls].
      now rewrite dls_straight.
    - repeat constructor; unfold is_tie_in; cbn; decide_reals;
        now rewrite ?andb_false_r. }
  assert (Hba : dls_of_station 0 (accumulate [b; a]) = Some (Fin 27)).
  { unfold accumulate, sort_values, read_rows. cbn. decide_reals.
    rewrite (run_loop_solve _ initial_state).
    - subst a b.
      cbn [app map snd solve_from initial_state prev_md prev_inc prev_azi
           current_n current_e current_tvd stations_to_create
           m_md m_inc m_azi].
      rewrite !minimum_curvature_finite. cbn [bind fadd app].
      cbn [dls_of_station nth_error option_map dls].
      now rewrite dls_quarter_turn.
    - repeat constructor; unfold is_tie_in; cbn; decide_reals;
        now rewrite ?andb_false_r. }
  split; [apply perm_swap |].
  split.
  { repeat constructor. unfold le_depth. cbn. now decide_reals. }
  split; [exact Hab |]. split; [exact Hba |].
  intros E. rewrite E, Hab in Hba. injection Hba. lra.
Qed.

(** C6, the claim refuted, twice.  (1) The surface row, with empty
    inclination and azimuth cells, is the second row of the sheet: it
    comes first in depth order and has depth zero, yet the solver is
    called for it and its offsets are NaN, not zero.  (2) After a tie-in
    row at inclination 90, the next measurement is solved against that
    row (dogleg severity 0), not against the zero datum (which would give
    27). *)
Lemma tie_in_claim_refuted :
  (let ms := [mkMeasurement (Fin 100) (Fin 0) (Fin 0);
              mkMeasurement (Fin 0) NaN NaN] in
   option_map row_md (hd_error (sort_values (read_rows ms))) = Some (Fin 0)
   /\ accumulate ms
      = Ok [mkStation (Fin 0) NaN NaN NaN NaN NaN (Fin 0);
            mkStation (Fin 100) (Fin 0) (Fin 0) NaN NaN NaN NaN])
  /\ (let m0 := mkMeasurement (Fin 0) (Fin 90) (Fin 0) in
      let m1 := mkMeasurement (Fin 100) (Fin 90) (Fin 0) in
      let claimed :=
        tail <- solve_from zero_datum (Fin 0) (Fin 0) (Fin 0) [m1] ;;
        Ok (tie_in_station m0 :: tail) in
      dls_of_station 1 (accumulate [m0; m1]) = Some (Fin 0)
      /\ dls_of_station 1 claimed = Some (Fin 27)
      /\ accumulate [m0; m1] <> claimed).
Proof.
  split.
  - intros ms; subst ms.
    assert (Hrows : sort_values (read_rows
                      [mkMeasurement (Fin 100) (Fin 0) (Fin 0);
                       mkMeasurement (Fin 0) NaN NaN])
                    = [(1%nat, mkMeasurement (Fin 0) NaN NaN);
                       (0%nat, mkMeasurement (Fin 100) (Fin 0) (Fin 0))]).
    { unfold sort_values, read_rows. cbn. decide_reals. reflexivity. }
    assert (H1 : minimum_curvature (Fin 0) (Fin 0) (Fin 0) (Fin 0) NaN NaN
                 = Ok (NaN, NaN, NaN, Fin 0)).
    { unfold minimum_curvature, cos_beta_raw, displacements, ratio_factor,
        dogleg_severity, py_div, fdiv. cbn. decide_reals. reflexivity. }
    assert (H2 : minimum_curvature (Fin 0) NaN NaN (Fin 100) (Fin 0) (Fin 0)
                 = Ok (NaN, NaN, NaN, NaN)).
    { unfold minimum_curvature, cos_beta_raw, displacements, ratio_factor,
        dogleg_severity, py_div, fdiv. cbn. decide_reals. reflexivity. }
    split; [now rewrite Hrows |].
    unfold accumulate. rewrite Hrows. cbn [run_loop].
    rewrite loop_body_solve by reflexivity.
    cbn [snd m_md m_inc m_azi initial_state prev_md prev_inc prev_azi
         current_n current_e current_tvd stations_to_create].
    rewrite H1. cbn [bind fadd app].
    rewrite loop_body_solve
      by (unfold is_tie_in; cbn; decide_reals; reflexivity).
    cbn [snd m_md m_inc m_azi prev_md prev_inc prev_azi
         current_n current_e current_tvd stations_to_create].
    rewrite H2. reflexivity.
  - intros m0 m1 claimed; subst m0 m1 claimed.
    assert (Hcode :
      dls_of_station 1
        (accumulate [mkMeasurement (Fin 0) (Fin 90) (Fin 0);
                     mkMeasurement (Fin 100) (Fin 90) (Fin 0)])
      = Some (Fin 0)).
    { rewrite (accumulate_tie_in _ (mkMeasurement (Fin 0) (Fin 90) (Fin 0))
                 [(1%nat, mkMeasurement (Fin 100) (Fin 90) (Fin 0))]).
      - cbn [map snd solve_from m_md m_inc m_azi].
        rewrite minimum_curvature_finite. cbn [bind fadd].
        cbn [dls_of_station nth_error option_map dls].
        now rewrite dls_straight.
      - unfold sort_values, read_rows. cbn. decide_reals. reflexivity.
      - cbn. decide_reals. reflexivity. }
    assert (Hclaim :
      dls_of_station 1
        (tail <- solve_from zero_datum (Fin 0) (Fin 0) (Fin 0)
                   [mkMeasurement (Fin 100) (Fin 90) (Fin 0)] ;;
         Ok (tie_in_station (mkMeasurement (Fin 0) (Fin 90) (Fin 0)) :: tail))
      = Some (Fin 27)).
    { cbn [solve_from zero_datum m_md m_inc m_azi].
      rewrite minimum_curvature_finite. cbn [bind fadd].
      cbn [dls_of_station nth_error option_map dls].
      now rewrite dls_quarter_turn. }
    split; [exact Hcode |]. split; [exact Hclaim |].
    intros E. rewrite E, Hclaim in Hcode. injection Hcode. lra.
Qed.

(** * Further properties of the engine *)

(** ** The station solver on finite measurements *)

Lemma cos_beta_real_dot (i1 a1 i2 a2 : R) :
  cos_beta_real i1 a1 i2 a2
  = cos i1 * cos i2 + sin i1 * sin i2 * cos (a2 - a1).
Proof.
  unfold cos_beta_real.
  replace (i2 + - i1) with (i2 - i1) by lra.
  replace (a2 + - a1) with (a2 - a1) by lra.
  rewrite (cos_minus i2 i1). ring.
Qed.

(** Line 19 computes the cosine of the angle between two unit vectors: in
    exact arithmetic it cannot leave [-1, 1]. *)
Lemma cos_beta_real_range (i1 a1 i2 a2 : R) :
  -1 <= cos_beta_real i1 a1 i2 a2 <= 1.
Proof.
  rewrite cos_beta_real_dot.
  pose proof (sin2_cos2 i1) as H1. pose proof (sin2_cos2 i2) as H2.
  unfold Rsqr in H1, H2.
  pose proof (COS_bound (a2 - a1)) as [Hl Hu].
  generalize dependent (cos (a2 - a1)). intros c Hl Hu.
  generalize dependent (sin i1). generalize dependent (sin i2).
  generalize dependent (cos i1). generalize dependent (cos i2).
  intros c2 c1 s2 H2 s1 H1.
  assert (Hp : 0 <= (1 - c) * ((s1 + s2) * (s1 + s2))).
  { apply Rmult_le_pos; [lra | apply (Rle_0_sqr (s1 + s2))]. }
  assert (Hm : 0 <= (1 + c) * ((s1 - s2) * (s1 - s2))).
  { apply Rmult_le_pos; [lra | apply (Rle_0_sqr (s1 - s2))]. }
  assert (Hp' : 0 <= (1 + c) * ((s1 + s2) * (s1 + s2))).
  { apply Rmult_le_pos; [lra | apply (Rle_0_sqr (s1 + s2))]. }
  assert (Hm' : 0 <= (1 - c) * ((s1 - s2) * (s1 - s2))).
  { apply Rmult_le_pos; [lra | apply (Rle_0_sqr (s1 - s2))]. }
  pose proof (Rle_0_sqr (c1 - c2)) as Hc.
  pose proof (Rle_0_sqr (c1 + c2)) as Hc'.
  unfold Rsqr in Hc, Hc'.
  split; lra.
Qed.

Lemma clamp_real_cos_beta (i1 a1 i2 a2 : R) :
  clamp_real (cos_beta_real i1 a1 i2 a2) = cos_beta_real i1 a1 i2 a2.
Proof. apply clamp_real_inside, cos_beta_real_range. Qed.

Lemma cos_beta_real_sym (i1 a1 i2 a2 : R) :
  cos_beta_real i2 a2 i1 a1 = cos_beta_real i1 a1 i2 a2.
Proof.
  rewrite !cos_beta_real_dot.
  replace (a1 - a2) with (- (a2 - a1)) by lra. rewrite cos_neg. ring.
Qed.

Lemma beta_real_sym (inc1 azi1 inc2 azi2 : R) :
  beta_real inc2 azi2 inc1 azi1 = beta_real inc1 azi1 inc2 azi2.
Proof. unfold beta_real. now rewrite cos_beta_real_sym. Qed.

Lemma ratio_real_zero : ratio_real 0 = 1.
Proof. unfold ratio_real. decide_reals. reflexivity. Qed.

(** Equality of two solver results, component by component. *)
Ltac solver_equal :=
  match goal with
  | |- Ok (Fin ?a, Fin ?b, Fin ?c, Fin ?d)
       = Ok (Fin ?a', Fin ?b', Fin ?c', Fin ?d') =>
      replace a with a' by (try reflexivity; field);
      replace b with b' by (try reflexivity; field);
      replace c with c' by (try reflexivity; field);
      replace d with d' by (try reflexivity; field);
      reflexivity
  end.

(** X1.  A segment of zero length moves nothing: when the two depths are
    equal (and everything is finite) the three displacements and the
    dogleg severity are all zero, whatever the four angles. *)
Theorem zero_length_segment (depth inc1 azi1 inc2 azi2 : R) :
  minimum_curvature (Fin depth) (Fin inc1) (Fin azi1)
                    (Fin depth) (Fin inc2) (Fin azi2)
  = Ok (Fin 0, Fin 0, Fin 0, Fin 0).
Proof.
  rewrite minimum_curvature_finite.
  destruct (Req_dec_T (depth + - depth) 0) as [_ | H]; [| lra].
  repeat f_equal; field.
Qed.

(** X2.  A straight segment: with the same inclination and azimuth at both
    stations the dogleg angle is zero, the ratio factor is 1, the dogleg
    severity is 0 and the displacement is the depth difference along the
    unit vector of that direction; a vertical hole only gains depth. *)
Theorem straight_segment (md1 md2 inc azi : R) :
  let i := inc * (PI / 180) in
  let a := azi * (PI / 180) in
  minimum_curvature (Fin md1) (Fin inc) (Fin azi) (Fin md2) (Fin inc) (Fin azi)
  = Ok (Fin ((md2 - md1) * (sin i * cos a)),
        Fin ((md2 - md1) * (sin i * sin a)),
        Fin ((md2 - md1) * cos i),
        Fin 0).
Proof.
  intros i a. rewrite minimum_curvature_finite.
  rewrite beta_real_straight, ratio_real_zero. fold i a.
  assert (Hd : (if Req_dec_T (md2 + - md1) 0 then 0
                else 0 * (180 / PI) * 30 / (md2 + - md1)) = 0).
  { destruct (Req_dec_T (md2 + - md1) 0); [reflexivity |].
    unfold Rdiv. now rewrite !Rmult_0_l. }
  rewrite Hd. solver_equal.
Qed.

(** X3.  Solving a segment backwards negates the result: the dogleg angle
    is the same in both directions, so the three displacements and the
    dogleg severity change sign.  In particular the dogleg severity is
    negative, not an absolute rate, when the second depth is the smaller
    one. *)
Theorem reversed_segment (md1 inc1 azi1 md2 inc2 azi2 : R) :
  exists d_n d_e d_tvd dls,
    minimum_curvature (Fin md1) (Fin inc1) (Fin azi1)
                      (Fin md2) (Fin inc2) (Fin azi2)
    = Ok (Fin d_n, Fin d_e, Fin d_tvd, Fin dls)
    /\ minimum_curvature (Fin md2) (Fin inc2) (Fin azi2)
                         (Fin md1) (Fin inc1) (Fin azi1)
       = Ok (Fin (- d_n), Fin (- d_e), Fin (- d_tvd), Fin (- dls)).
Proof.
  rewrite !minimum_curvature_finite. rewrite (beta_real_sym inc1 azi1 inc2 azi2).
  do 4 eexists. split; [reflexivity |].
  assert (Hd : (if Req_dec_T (md1 + - md2) 0 then 0
                else beta_real inc1 azi1 inc2 azi2 * (180 / PI) * 30
                     / (md1 + - md2))
               = - (if Req_dec_T (md2 + - md1) 0 then 0
                    else beta_real inc1 azi1 inc2 azi2 * (180 / PI) * 30
                         / (md2 + - md1))).
  { destruct (Req_dec_T (md1 + - md2) 0), (Req_dec_T (md2 + - md1) 0);
      try lra.
    field. repeat split; try lra. apply PI_neq0. }
  rewrite Hd. solver_equal.
Qed.

(** *** How far a segment can reach *)

Lemma beta_real_cos (inc1 azi1 inc2 azi2 : R) :
  cos (beta_real inc1 azi1 inc2 azi2)
  = cos_beta_real (inc1 * (PI / 180)) (azi1 * (PI / 180))
                  (inc2 * (PI / 180)) (azi2 * (PI / 180)).
Proof.
  unfold beta_real. rewrite clamp_real_cos_beta.
  apply cos_acos, cos_beta_real_range.
Qed.

(** The squared length of the sum of the two unit vectors. *)
Lemma unit_sum_square (i1 a1 i2 a2 : R) :
  (sin i1 * cos a1 + sin i2 * cos a2) * (sin i1 * cos a1 + sin i2 * cos a2)
  + (sin i1 * sin a1 + sin i2 * sin a2) * (sin i1 * sin a1 + sin i2 * sin a2)
  + (cos i1 + cos i2) * (cos i1 + cos i2)
  = 2 + 2 * cos_beta_real i1 a1 i2 a2.
Proof.
  rewrite cos_beta_real_dot, (cos_minus a2 a1).
  pose proof (sin2_cos2 i1) as H1. pose proof (sin2_cos2 i2) as H2.
  pose proof (sin2_cos2 a1) as H3. pose proof (sin2_cos2 a2) as H4.
  unfold Rsqr in *.
  generalize dependent (sin i1). generalize dependent (sin i2).
  generalize dependent (cos i1). generalize dependent (cos i2).
  generalize dependent (sin a1). generalize dependent (sin a2).
  generalize dependent (cos a1). generalize dependent (cos a2).
  intros ca2 ca1 sa2 H4 sa1 H3 c2 c1 s2 H2 s1 H1.
  replace (2 + 2 * (c1 * c2 + s1 * s2 * (ca2 * ca1 + sa2 * sa1)))
    with ((s1 * s1 + c1 * c1) + (s2 * s2 + c2 * c2)
          + 2 * (c1 * c2 + s1 * s2 * (ca2 * ca1 + sa2 * sa1)))
    by (rewrite H1, H2; ring).
  replace (s1 * s1) with (s1 * s1 * (sa1 * sa1 + ca1 * ca1))
    by (rewrite H3; ring).
  replace (s2 * s2) with (s2 * s2 * (sa2 * sa2 + ca2 * ca2))
    by (rewrite H4; ring).
  ring.
Qed.

Lemma half_angle_cos (b : R) : 2 + 2 * cos b = 4 * (cos (b / 2) * cos (b / 2)).
Proof.
  replace b with (2 * (b / 2)) at 1 by field.
  rewrite cos_2a_cos. ring.
Qed.

(** The ratio factor times the cosine of the half angle is
    [sin (b/2) / (b/2)] at most: never above 1 in absolute value. *)
Lemma ratio_cos_bound (b : R) :
  0 <= b <= PI ->
  (ratio_real b * cos (b / 2)) * (ratio_real b * cos (b / 2)) <= 1.
Proof.
  intros [Hb0 Hbpi]. unfold ratio_real.
  destruct (Rltb b (1 / 10000)) eqn:Hsmall.
  - pose proof (COS_bound (b / 2)) as [Hl Hu].
    rewrite Rmult_1_l. nra.
  - apply Rltb_false in Hsmall.
    destruct (Req_dec_T (cos (b / 2)) 0) as [Hz | Hnz].
    + rewrite Hz, Rmult_0_r. lra.
    + rewrite (proj2 (Reqb_false (b / 2) (PI / 2)))
        by (intros E; apply Hnz; rewrite E; apply cos_PI2).
      assert (Hq : 2 / b * tan (b / 2) * cos (b / 2) = 2 / b * sin (b / 2)).
      { unfold tan. field. split; [lra | assumption]. }
      rewrite Hq.
      assert (Hs0 : 0 <= sin (b / 2)) by (apply sin_ge_0; lra).
      assert (Hs1 : sin (b / 2) < b / 2) by (apply sin_lt_x; lra).
      assert (Hinv : 0 < 2 / b) by (apply Rdiv_lt_0_compat; lra).
      assert (Hq0 : 0 <= 2 / b * sin (b / 2)) by (apply Rmult_le_pos; lra).
      assert (Hq1 : 2 / b * sin (b / 2) <= 1).
      { replace 1 with (2 / b * (b / 2)) by (field; lra).
        apply Rmult_le_compat_l; lra. }
      nra.
Qed.

(** The straight-line distance of a segment is at most its length. *)
Lemma minimum_curvature_chord (md1 inc1 azi1 md2 inc2 azi2 : R) :
  exists d_n d_e d_tvd dls,
    minimum_curvature (Fin md1) (Fin inc1) (Fin azi1)
                      (Fin md2) (Fin inc2) (Fin azi2)
    = Ok (Fin d_n, Fin d_e, Fin d_tvd, Fin dls)
    /\ d_n * d_n + d_e * d_e + d_tvd * d_tvd <= (md2 - md1) * (md2 - md1).
Proof.
  rewrite minimum_curvature_finite.
  do 4 eexists. split; [reflexivity |].
  pose proof (unit_sum_square (inc1 * (PI / 180)) (azi1 * (PI / 180))
                (inc2 * (PI / 180)) (azi2 * (PI / 180))) as Hsum.
  rewrite <- beta_real_cos, half_angle_cos in Hsum.
  pose proof (ratio_cos_bound _ (beta_real_bound inc1 azi1 inc2 azi2)) as Hr.
  set (b := beta_real inc1 azi1 inc2 azi2) in *.
  generalize dependent (ratio_real b). intros rf Hr.
  generalize dependent (cos (b / 2)). intros ch Hsum Hr.
  generalize dependent (sin (inc1 * (PI / 180)) * cos (azi1 * (PI / 180))
                        + sin (inc2 * (PI / 180)) * cos (azi2 * (PI / 180))).
  intros vn.
  generalize dependent (sin (inc1 * (PI / 180)) * sin (azi1 * (PI / 180))
                        + sin (inc2 * (PI / 180)) * sin (azi2 * (PI / 180))).
  intros ve.
  generalize dependent (cos (inc1 * (PI / 180)) + cos (inc2 * (PI / 180))).
  intros vt Hsum.
  set (d := md2 + - md1).
  replace (md2 - md1) with d by (unfold d; lra).
  replace (d / 2 * vn * rf * (d / 2 * vn * rf)
           + d / 2 * ve * rf * (d / 2 * ve * rf)
           + d / 2 * vt * rf * (d / 2 * vt * rf))
    with (d * d * (rf * rf) * ((vn * vn + ve * ve + vt * vt) / 4)) by field.
  rewrite Hsum.
  replace (d * d * (rf * rf) * (4 * (ch * ch) / 4))
    with (d * d * (rf * ch * (rf * ch))) by field.
  assert (Hd : 0 <= d * d) by (apply (Rle_0_sqr d)).
  nra.
Qed.

(** X5.  The straight-line distance between two stations never exceeds
    the measured depth between them: for finite measurements with
    inclinations in [0, 180] and azimuths in [0, 360] whose dogleg is at
    most a right angle, the squares of the three displacements add up to
    at most [(md2 - md1)^2], in exact arithmetic.  (At a dogleg of
    180 degrees the ratio factor of line 31 is of the order of 1e16 and
    the coded result is rounding noise times it.) *)
Theorem chord_within_measured_depth (md1 inc1 azi1 md2 inc2 azi2 : R) :
  gentle inc1 azi1 inc2 azi2 ->
  exists d_n d_e d_tvd dls,
    minimum_curvature (Fin md1) (Fin inc1) (Fin azi1)
                      (Fin md2) (Fin inc2) (Fin azi2)
    = Ok (Fin d_n, Fin d_e, Fin d_tvd, Fin dls)
    /\ d_n * d_n + d_e * d_e + d_tvd * d_tvd <= (md2 - md1) * (md2 - md1).
Proof. intros _. apply minimum_curvature_chord. Qed.

Lemma chord_within_measured_depth_witness :
  exists d_n d_e d_tvd dls,
    minimum_curvature (Fin 100) (Fin 0) (Fin 0) (Fin 200) (Fin 90) (Fin 0)
    = Ok (Fin d_n, Fin d_e, Fin d_tvd, Fin dls)
    /\ d_n * d_n + d_e * d_e + d_tvd * d_tvd <= (200 - 100) * (200 - 100).
Proof.
  apply (chord_within_measured_depth 100 0 0 200 90 0).
  unfold gentle, survey_angles. rewrite beta_real_quarter_turn.
  repeat split; lra.
Defined.

Lemma ratio_real_nonneg (b : R) : 0 <= b <= PI -> 0 <= ratio_real b.
Proof.
  intros [Hb0 Hbpi]. unfold ratio_real.
  destruct (Rltb b (1 / 10000)) eqn:Hsmall; [lra |].
  apply Rltb_false in Hsmall.
  apply Rmult_le_pos.
  - apply Rlt_le, Rdiv_lt_0_compat; lra.
  - destruct (Rle_lt_or_eq_dec _ _ Hbpi) as [Hlt | ->].
    + rewrite (proj2 (Reqb_false (b / 2) (PI / 2))) by lra.
      apply Rlt_le, tan_gt_0; lra.
    + rewrite Reqb_refl. unfold tan_half_pi. lra.
Qed.

(** X6.  Going deeper never loses vertical depth while the hole points
    downwards: for finite measurements with [md1 <= md2] and both
    inclinations between 0 and 90 degrees, the TVD increment is not
    negative. *)
Theorem tvd_increment_nonnegative (md1 inc1 azi1 md2 inc2 azi2 : R) :
  md1 <= md2 -> 0 <= inc1 <= 90 -> 0 <= inc2 <= 90 ->
  exists d_n d_e d_tvd dls,
    minimum_curvature (Fin md1) (Fin inc1) (Fin azi1)
                      (Fin md2) (Fin inc2) (Fin azi2)
    = Ok (Fin d_n, Fin d_e, Fin d_tvd, Fin dls)
    /\ 0 <= d_tvd.
Proof.
  intros Hmd Hi1 Hi2. rewrite minimum_curvature_finite.
  do 4 eexists. split; [reflexivity |].
  pose proof PI_RGT_0 as Hpi.
  assert (Hc1 : 0 <= cos (inc1 * (PI / 180))) by (apply cos_ge_0; nra).
  assert (Hc2 : 0 <= cos (inc2 * (PI / 180))) by (apply cos_ge_0; nra).
  pose proof (ratio_real_nonneg _ (beta_real_bound inc1 azi1 inc2 azi2)) as Hr.
  apply Rmult_le_pos; [| exact Hr].
  apply Rmult_le_pos; lra.
Qed.

Lemma tvd_increment_nonnegative_witness :
  exists d_n d_e d_tvd dls,
    minimum_curvature (Fin 100) (Fin 10) (Fin 45) (Fin 200) (Fin 30) (Fin 60)
    = Ok (Fin d_n, Fin d_e, Fin d_tvd, Fin dls)
    /\ 0 <= d_tvd.
Proof. apply tvd_increment_nonnegative; lra. Defined.

(** ** What the accumulator hands back *)

Lemma loop_body_stations (st st' : LoopState) (r : Row) :
  loop_body st r = Ok st' ->
  map raw_of (stations_to_create st')
  = map raw_of (stations_to_create st) ++ [snd r].
Proof.
  unfold loop_body.
  destruct (Nat.eqb (fst r) 0 && feq (m_md (snd r)) (Fin 0)).
  - intros [= <-]. cbn [stations_to_create]. rewrite map_app. cbn.
    now destruct r as [k [m i a]].
  - destruct (minimum_curvature _ _ _ _ _ _) as [[[[dn de] dt] dls] | e];
      cbn [bind]; [| discriminate].
    intros [= <-]. cbn [stations_to_create]. rewrite map_app. cbn.
    now destruct r as [k [m i a]].
Qed.

Lemma run_loop_stations (rows : list Row) (st st' : LoopState) :
  run_loop st rows = Ok st' ->
  map raw_of (stations_to_create st')
  = map raw_of (stations_to_create st) ++ map snd rows.
Proof.
  revert st; induction rows as [| r rows IH]; intros st; cbn [run_loop map].
  - intros [= <-]. now rewrite app_nil_r.
  - destruct (loop_body st r) as [st1 | e] eqn:Hb; cbn [bind]; [| discriminate].
    intros H. rewrite (IH _ H), (loop_body_stations _ _ _ Hb), <- app_assoc.
    reflexivity.
Qed.

Lemma survey_stations_rows (rows : list Row) (sts : list TrajectoryStation) :
  survey_stations rows = Ok sts -> map raw_of sts = map snd rows.
Proof.
  unfold survey_stations.
  destruct (run_loop initial_state rows) as [st | e] eqn:H; cbn [bind];
    [| discriminate].
  intros [= <-]. now rewrite (run_loop_stations _ _ _ H).
Qed.

Lemma accumulate_rows (ms : list Measurement) (sts : list TrajectoryStation) :
  accumulate ms = Ok sts ->
  map raw_of sts = map snd (sort_values (read_rows ms)).
Proof. exact (survey_stations_rows (sort_values (read_rows ms)) sts). Qed.

Lemma beta_real_vertical (azi1 azi2 : R) : beta_real 0 azi1 0 azi2 = 0.
Proof.
  unfold beta_real.
  assert (H : cos_beta_real (0 * (PI / 180)) (azi1 * (PI / 180))
                            (0 * (PI / 180)) (azi2 * (PI / 180)) = 1).
  { unfold cos_beta_real. rewrite !Rmult_0_l.
    replace (0 + - 0) with 0 by lra. rewrite cos_0, sin_0. ring. }
  rewrite H, clamp_real_inside by lra. apply acos_1.
Qed.

Lemma minimum_curvature_vertical (md1 azi1 md2 azi2 : R) :
  minimum_curvature (Fin md1) (Fin 0) (Fin azi1) (Fin md2) (Fin 0) (Fin azi2)
  = Ok (Fin 0, Fin 0, Fin (md2 - md1), Fin 0).
Proof.
  rewrite minimum_curvature_finite.
  rewrite beta_real_vertical, ratio_real_zero.
  assert (Hd : (if Req_dec_T (md2 + - md1) 0 then 0
                else 0 * (180 / PI) * 30 / (md2 + - md1)) = 0).
  { destruct (Req_dec_T (md2 + - md1) 0); [reflexivity |].
    unfold Rdiv. now rewrite !Rmult_0_l. }
  rewrite Hd, !Rmult_0_l, sin_0, cos_0. solver_equal.
Qed.

Lemma vertical_inv (m : Measurement) :
  vertical m = true ->
  exists d a, m = mkMeasurement (Fin d) (Fin 0) (Fin a).
Proof.
  destruct m as [[d | |] [i | |] [a | |]]; cbn; try discriminate.
  intros H. apply Reqb_true in H. subst i. now exists d, a.
Qed.

Lemma run_loop_vertical (rows : list Row) (p a : R)
  (done : list TrajectoryStation) :
  Forall (fun r => vertical (snd r) = true) rows ->
  StronglySorted le_row rows ->
  Forall (fun r => fle (Fin p) (row_md r) = true) rows ->
  0 <= p ->
  (st <- run_loop (mkLoop (Fin 0) (Fin 0) (Fin p) (Fin p) (Fin 0) (Fin a) done)
                  rows ;;
   Ok (stations_to_create st))
  = Ok (done ++ map vertical_station (map snd rows)).
Proof.
  revert p a done.
  induction rows as [| r rows IH]; intros p a done Hv Hs Hp Hp0.
  - cbn. now rewrite app_nil_r.
  - inversion Hv as [| ? ? Hv0 Hv']; subst.
    inversion Hs as [| ? ? Hs' Hle]; subst.
    inversion Hp as [| ? ? Hp1 Hp']; subst.
    destruct r as [k m]. cbn [snd] in Hv0.
    destruct (vertical_inv m Hv0) as (d & a' & ->).
    unfold row_md in Hp1. cbn [snd m_md] in Hp1. apply fle_Fin in Hp1.
    assert (Hnext : Forall (fun r => fle (Fin d) (row_md r) = true) rows).
    { apply Forall_forall. intros r Hr.
      rewrite Forall_forall in Hle, Hv'. specialize (Hle r Hr).
      specialize (Hv' r Hr). destruct r as [k' m'].
      cbn [snd] in Hv'. destruct (vertical_inv m' Hv') as (d' & a'' & ->).
      unfold le_row, le_depth in Hle. unfold row_md.
      cbn [snd m_md] in *. apply fle_Fin. now apply flt_Fin_false in Hle. }
    cbn [run_loop map snd]. unfold loop_body.
    cbn [fst snd m_md m_inc m_azi current_n current_e current_tvd prev_md
         prev_inc prev_azi stations_to_create].
    destruct (Nat.eqb k 0 && feq (Fin d) (Fin 0)) eqn:Htie.
    + apply andb_true_iff in Htie. destruct Htie as [_ Hz].
      apply feq_Fin in Hz. subst d. assert (p = 0) by lra. subst p.
      cbn [bind]. rewrite (IH 0 a' _ Hv' Hs' Hnext Hp0).
      rewrite <- app_assoc. reflexivity.
    + rewrite minimum_curvature_vertical. cbn [bind fadd].
      replace (0 + 0) with 0 by lra.
      replace (p + (d - p)) with d by lra.
      rewrite (IH d a' _ Hv' Hs' Hnext) by lra.
      rewrite <- app_assoc. reflexivity.
Qed.

Lemma survey_stations_vertical (ms : list Measurement) (rows : list Row) :
  depth_ordering (read_rows ms) rows ->
  forallb vertical ms = true -> from_surface ms ->
  survey_stations rows = Ok (map vertical_station (map snd rows)).
Proof.
  intros Hord Hv Hpos. rewrite forallb_forall in Hv.
  pose proof (ordering_measurements ms rows Hord) as Hp.
  assert (Hin : forall r, In r rows -> In (snd r) ms).
  { intros r Hr. apply (Permutation_in _ Hp). now apply in_map. }
  assert (Hnan : Forall (fun x => is_nan (row_md x) = false) rows).
  { apply Forall_forall. intros r Hr.
    destruct (vertical_inv _ (Hv _ (Hin r Hr))) as (d & a & E).
    unfold row_md. now rewrite E. }
  apply (run_loop_vertical _ 0 0 []).
  - apply Forall_forall. intros r Hr. apply Hv. now apply Hin.
  - exact (ordering_sorted _ _ Hord Hnan).
  - apply Forall_forall. intros r Hr. unfold from_surface in Hpos.
    rewrite Forall_forall in Hpos. apply Hpos. now apply Hin.
  - lra.
Qed.

(** A sheet of a vertical hole with repeated depths, its rows in an order
    the sort of pandas gives them (the reverse of the sheet), and the
    stations of the loop. *)
Lemma tied_sheet_ordering :
  depth_ordering
    (read_rows [mkMeasurement (Fin 100) (Fin 0) (Fin 10);
                mkMeasurement (Fin 100) (Fin 0) (Fin 20);
                mkMeasurement (Fin 0) (Fin 0) (Fin 30);
                mkMeasurement (Fin 0) (Fin 0) (Fin 40)])
    [(3%nat, mkMeasurement (Fin 0) (Fin 0) (Fin 40));
     (2%nat, mkMeasurement (Fin 0) (Fin 0) (Fin 30));
     (1%nat, mkMeasurement (Fin 100) (Fin 0) (Fin 20));
     (0%nat, mkMeasurement (Fin 100) (Fin 0) (Fin 10))].
Proof.
  split.
  - apply Permutation_sym.
    exact (Permutation_rev
             (read_rows [mkMeasurement (Fin 100) (Fin 0) (Fin 10);
                         mkMeasurement (Fin 100) (Fin 0) (Fin 20);
                         mkMeasurement (Fin 0) (Fin 0) (Fin 30);
                         mkMeasurement (Fin 0) (Fin 0) (Fin 40)])).
  - depth_ordered.
Qed.

Lemma tied_sheet_stations :
  survey_stations
    [(3%nat, mkMeasurement (Fin 0) (Fin 0) (Fin 40));
     (2%nat, mkMeasurement (Fin 0) (Fin 0) (Fin 30));
     (1%nat, mkMeasurement (Fin 100) (Fin 0) (Fin 20));
     (0%nat, mkMeasurement (Fin 100) (Fin 0) (Fin 10))]
  = Ok [mkStation (Fin 0) (Fin 0) (Fin 40) (Fin 0) (Fin 0) (Fin 0) (Fin 0);
        mkStation (Fin 0) (Fin 0) (Fin 30) (Fin 0) (Fin 0) (Fin 0) (Fin 0);
        mkStation (Fin 100) (Fin 0) (Fin 20) (Fin 100) (Fin 0) (Fin 0) (Fin 0);
        mkStation (Fin 100) (Fin 0) (Fin 10) (Fin 100) (Fin 0) (Fin 0) (Fin 0)].
Proof.
  rewrite (survey_stations_vertical _ _ tied_sheet_ordering).
  - reflexivity.
  - cbn. now decide_reals.
  - repeat constructor; cbn [m_md]; apply fle_Fin; lra.
Qed.

(** X7.  Take any order the sort may give the rows (rows of equal depth in
    any order).  When the loop raises nothing it has built one station per
    row: read back, the depth, inclination and azimuth of the stations are
    the rows in that order, so they are the measurements of the sheet,
    each exactly once. *)
Theorem stations_echo_measurements (ms : list Measurement)
  (rows : list Row) (sts : list TrajectoryStation) :
  depth_ordering (read_rows ms) rows ->
  survey_stations rows = Ok sts ->
  map raw_of sts = map snd rows
  /\ Permutation (map raw_of sts) ms
  /\ List.length sts = List.length ms.
Proof.
  intros Hord H. pose proof (survey_stations_rows rows sts H) as Hrows.
  split; [exact Hrows |].
  assert (Hp : Permutation (map raw_of sts) ms).
  { rewrite Hrows. now apply ordering_measurements. }
  split; [exact Hp |].
  rewrite <- (Permutation_length Hp). now rewrite length_map.
Qed.

Lemma stations_echo_measurements_witness :
  let ms := [mkMeasurement (Fin 100) (Fin 0) (Fin 10);
             mkMeasurement (Fin 100) (Fin 0) (Fin 20);
             mkMeasurement (Fin 0) (Fin 0) (Fin 30);
             mkMeasurement (Fin 0) (Fin 0) (Fin 40)] in
  let rows := [(3%nat, mkMeasurement (Fin 0) (Fin 0) (Fin 40));
               (2%nat, mkMeasurement (Fin 0) (Fin 0) (Fin 30));
               (1%nat, mkMeasurement (Fin 100) (Fin 0) (Fin 20));
               (0%nat, mkMeasurement (Fin 100) (Fin 0) (Fin 10))] in
  let sts :=
    [mkStation (Fin 0) (Fin 0) (Fin 40) (Fin 0) (Fin 0) (Fin 0) (Fin 0);
     mkStation (Fin 0) (Fin 0) (Fin 30) (Fin 0) (Fin 0) (Fin 0) (Fin 0);
     mkStation (Fin 100) (Fin 0) (Fin 20) (Fin 100) (Fin 0) (Fin 0) (Fin 0);
     mkStation (Fin 100) (Fin 0) (Fin 10) (Fin 100) (Fin 0) (Fin 0) (Fin 0)] in
  map raw_of sts = map snd rows
  /\ Permutation (map raw_of sts) ms
  /\ List.length sts = List.length ms.
Proof.
  intros ms rows sts.
  exact (stations_echo_measurements ms rows sts tied_sheet_ordering
           tied_sheet_stations).
Defined.

(** X8.  Take any order the sort may give the rows.  When no depth of the
    sheet is NaN and the loop raises nothing, the stations handed to
    [bulk_create] are in ascending depth order, whatever the order of the
    rows in the sheet. *)
Theorem stations_ascending (ms : list Measurement) (rows : list Row)
  (sts : list TrajectoryStation) :
  depth_ordering (read_rows ms) rows ->
  Forall (fun m => is_nan (m_md m) = false) ms ->
  survey_stations rows = Ok sts ->
  ascending sts.
Proof.
  intros Hord Hnan H. pose proof (survey_stations_rows rows sts H) as Hrows.
  assert (Hrn : Forall (fun x => is_nan (row_md x) = false) rows).
  { apply Forall_forall. intros r Hr. rewrite Forall_forall in Hnan.
    apply Hnan. apply (Permutation_in _ (ordering_measurements _ _ Hord)).
    now apply in_map. }
  pose proof (sorted_rows_measurements _ (ordering_sorted _ _ Hord Hrn)) as Hs.
  rewrite <- Hrows in Hs. clear - Hs. unfold ascending.
  induction sts as [| s sts IH]; [constructor |].
  cbn [map] in Hs. inversion Hs as [| ? ? Hs' Hall]; subst.
  constructor; [now apply IH |].
  rewrite Forall_forall in Hall. apply Forall_forall. intros b Hb.
  apply (Hall (raw_of b)). now apply in_map.
Qed.

Lemma stations_ascending_witness :
  ascending
    [mkStation (Fin 0) (Fin 0) (Fin 40) (Fin 0) (Fin 0) (Fin 0) (Fin 0);
     mkStation (Fin 0) (Fin 0) (Fin 30) (Fin 0) (Fin 0) (Fin 0) (Fin 0);
     mkStation (Fin 100) (Fin 0) (Fin 20) (Fin 100) (Fin 0) (Fin 0) (Fin 0);
     mkStation (Fin 100) (Fin 0) (Fin 10) (Fin 100) (Fin 0) (Fin 0) (Fin 0)].
Proof.
  apply (stations_ascending _ _ _ tied_sheet_ordering).
  - repeat constructor.
  - exact tied_sheet_stations.
Defined.



(** ** The 'Mechanical' sheet and the outcome of an import *)

Lemma py_float_raises (raw : cell) (e : exn) :
  py_float raw = Raise e -> e = ValueError \/ e = TypeError.
Proof.
  destruct raw as [s | x | b | t]; cbn.
  - unfold float_of_chars. destruct (read_literal _); [discriminate |].
    intros [= <-]. now left.
  - discriminate.
  - discriminate.
  - intros [= <-]. now right.
Qed.

Lemma py_div_1000 (x : pyfloat) : py_div x (Fin 1000) = Ok (fdiv x (Fin 1000)).
Proof.
  unfold py_div. cbn. rewrite (proj2 (Reqb_false 1000 0)) by lra. reflexivity.
Qed.

Lemma sanitize_diameter_ok (raw : cell) :
  exists d, sanitize_diameter raw = Ok d.
Proof.
  unfold sanitize_diameter, parse_diameter.
  destruct (py_float (decimal_point raw)) as [x | e] eqn:H; cbn [bind].
  - destruct (fgt x (Fin 100)); [rewrite py_div_1000 |]; eauto.
  - destruct (py_float_raises _ _ H) as [-> | ->]; eauto.
Qed.

Lemma replace_comma_idem (s : string) :
  replace_comma (replace_comma s) = replace_comma s.
Proof.
  unfold replace_comma. rewrite list_ascii_of_string_of_list_ascii, map_map.
  f_equal. apply map_ext. intros c.
  destruct (Ascii.eqb c ",") eqn:E; [reflexivity | now rewrite E].
Qed.

(** X10.  A diameter typed with a decimal comma is read as the same text
    typed with a decimal point: the sanitizer gives the two cells the same
    diameter, whatever the text. *)
Theorem comma_reads_as_point (s : string) :
  sanitize_diameter (CellStr s) = sanitize_diameter (CellStr (replace_comma s)).
Proof.
  unfold sanitize_diameter, parse_diameter, decimal_point.
  now rewrite replace_comma_idem.
Qed.

Section ImportFacts.

Variable repr_finite : R -> string.

Lemma sanitize_rows_ok (rows : list MechRow) :
  exists gs,
    sanitize_rows repr_finite rows = Ok gs
    /\ Forall2 (fun row g =>
                  item_type g = Item row
                  /\ start_md g = Top_MD row
                  /\ end_md g = Bottom_MD row
                  /\ sanitize_diameter (Diameter row) = Ok (diameter g)
                  /\ color g = py_str repr_finite (Color row)) rows gs.
Proof.
  induction rows as [| row rows (gs & Hgs & Hall)]; cbn [sanitize_rows].
  - exists []. split; [reflexivity | constructor].
  - unfold sanitize_row.
    destruct (sanitize_diameter_ok (Diameter row)) as (d & Hd).
    rewrite Hd, Hgs. cbn [bind]. eexists. split; [reflexivity |].
    constructor; [| exact Hall]. cbn. now rewrite Hd.
Qed.

End ImportFacts.

(** X11.  The loop over the rows of the 'Mechanical' sheet (lines 116-143)
    never raises.  Every row gives one geometry record, in sheet order,
    which carries over the item, the two depths and the text of the colour
    cell, with the sanitized diameter: a diameter that cannot be read is
    replaced, never raised.  (Whether [bulk_create] then takes the records
    is another matter: see [import_outcome].) *)
Theorem mechanical_rows_never_fail (repr_finite : R -> string)
  (rows : list MechRow) :
  exists gs,
    sanitize_rows repr_finite rows = Ok gs
    /\ Forall2 (fun row g =>
                  item_type g = Item row
                  /\ start_md g = Top_MD row
                  /\ end_md g = Bottom_MD row
                  /\ sanitize_diameter (Diameter row) = Ok (diameter g)
                  /\ color g = py_str repr_finite (Color row)) rows gs.
Proof. apply sanitize_rows_ok. Qed.










(** ** Records at the edges of the survey *)

Lemma interpolated_depth (sts : list TrajectoryStation) (d : pyfloat)
  (p : Point) :
  In p (interpolated sts d) -> p_m p = d.
Proof.
  rewrite interpolated_index.
  destruct (searchsorted (map md sts) d) as [| j]; [intros [] |].
  destruct (nth_error sts j), (nth_error sts (S j)); cbn [In];
    try contradiction.
  intros [<- | []]. reflexivity.
Qed.

Lemma in_range_inv (s e : R) (x : TrajectoryStation) :
  in_range (Fin s) (Fin e) x = true -> exists m, md x = Fin m /\ s <= m <= e.
Proof.
  unfold in_range, fge. intros H. apply andb_true_iff in H.
  destruct H as [H1 H2].
  destruct (md x) as [m | [] |]; try discriminate.
  exists m. split; [reflexivity |].
  apply fle_Fin in H1. apply fle_Fin in H2. lra.
Qed.

Lemma segment_none (sts : list TrajectoryStation) (s e : pyfloat) :
  Forall (fun t => in_range s e t = false) sts -> segment sts s e = [].
Proof.
  unfold segment. induction 1 as [| x l Hx _ IH]; [reflexivity |].
  cbn [filter]. now rewrite Hx.
Qed.

Lemma segment_all (sts : list TrajectoryStation) (s e : pyfloat) :
  Forall (fun t => in_range s e t = true) sts ->
  segment sts s e = map station_point sts.
Proof.
  unfold segment. induction 1 as [| x l Hx _ IH]; [reflexivity |].
  cbn [filter]. rewrite Hx. cbn [map]. now f_equal.
Qed.

Lemma searchsorted_all_below (sts : list TrajectoryStation) (d : R) :
  Forall (fun t => flt (md t) (Fin d) = true) sts ->
  searchsorted (map md sts) (Fin d) = List.length sts.
Proof.
  induction 1 as [| x l Hx _ IH]; [reflexivity |].
  cbn [map searchsorted List.length]. now rewrite np_lt_Fin, Hx, IH.
Qed.

(** Beyond the last station there is no pair of stations to interpolate
    between. *)
Lemma interpolated_beyond (sts : list TrajectoryStation) (d : R) :
  Forall (fun t => flt (md t) (Fin d) = true) sts ->
  interpolated sts (Fin d) = [].
Proof.
  intros H. rewrite interpolated_index, (searchsorted_all_below _ _ H).
  destruct sts as [| x l]; [reflexivity |].
  cbn [List.length].
  assert (Hn : nth_error (x :: l) (S (List.length l)) = None).
  { apply nth_error_None. cbn [List.length]. lia. }
  rewrite Hn. now destruct (nth_error (x :: l) (List.length l)).
Qed.

(** Before the first station there is none either. *)
Lemma interpolated_before (sts : list TrajectoryStation) (d : R) :
  Forall (fun t => flt (md t) (Fin d) = false) sts ->
  interpolated sts (Fin d) = [].
Proof.
  intros H. destruct sts as [| x l]; [reflexivity |].
  inversion H; subst. now apply interpolated_above.
Qed.

Lemma flt_not_fle (a b : pyfloat) : flt a b = true -> fle b a = false.
Proof.
  unfold fle.
  destruct a as [x | [] | ], b as [y | [] | ]; cbn;
    try discriminate; try reflexivity.
  rewrite Rltb_true. intros H.
  rewrite (proj2 (Rltb_false y x)), (proj2 (Reqb_false y x)) by lra.
  reflexivity.
Qed.

Lemma ascending_last (sts : list TrajectoryStation) (l : TrajectoryStation) :
  ascending sts -> last_error sts = Some l ->
  Forall (fun t => flt (md l) (md t) = false) sts.
Proof.
  unfold ascending. induction 1 as [| x rest Hs IH Hx]; [discriminate |].
  destruct rest as [| y rest'].
  - intros [= <-]. constructor; [apply flt_irrefl | constructor].
  - intros Hl. change (last_error (y :: rest') = Some l) in Hl.
    constructor; [| now apply IH].
    rewrite Forall_forall in Hx. apply Hx. now apply last_error_In.
Qed.

Lemma path_points_inverted (sts : list TrajectoryStation) (s e : R) :
  e < s -> (List.length (path_points sts (Fin s) (Fin e)) <= 1)%nat.
Proof.
  intros Hes. unfold path_points, path_start.
  rewrite segment_none.
  2:{ apply Forall_forall. intros t _.
      destruct (in_range (Fin s) (Fin e) t) eqn:E; [| reflexivity].
      destruct (in_range_inv _ _ _ E) as (m & _ & Hm). lra. }
  rewrite app_nil_r.
  pose proof (interpolated_short sts (Fin s)) as Hlen.
  destruct (last_error (interpolated sts (Fin s))) as [p |] eqn:Hl.
  - rewrite (interpolated_depth _ _ _ (last_error_In _ _ Hl)).
    rewrite (proj2 (flt_Fin_false s e)) by lra. now rewrite app_nil_r.
  - now rewrite app_nil_r.
Qed.

Lemma path_points_outside (sts : list TrajectoryStation) (s e : R) :
  s <= e ->
  Forall (fun t => flt (md t) (Fin s) = true) sts
  \/ Forall (fun t => flt (Fin e) (md t) = true) sts ->
  path_points sts (Fin s) (Fin e) = [].
Proof.
  intros Hse H. unfold path_points, path_start.
  assert (Hseg : segment sts (Fin s) (Fin e) = []).
  { apply segment_none. apply Forall_forall. intros t Ht.
    unfold in_range, fge.
    destruct H as [H | H]; rewrite Forall_forall in H; specialize (H t Ht).
    - now rewrite (flt_not_fle _ _ H).
    - rewrite (flt_not_fle _ _ H). apply andb_false_r. }
  assert (Hint : interpolated sts (Fin s) = []).
  { destruct H as [H | H].
    - now apply interpolated_beyond.
    - apply interpolated_before. apply Forall_forall. intros t Ht.
      rewrite Forall_forall in H. specialize (H t Ht).
      destruct (md t) as [m | [] |]; try reflexivity; try discriminate.
      apply flt_Fin in H. apply flt_Fin_false. lra. }
  rewrite Hseg, Hint. reflexivity.
Qed.

Lemma path_points_all (sts : list TrajectoryStation) (s e : R) :
  ascending sts ->
  Forall (fun t => in_range (Fin s) (Fin e) t = true) sts ->
  path_points sts (Fin s) (Fin e) = map station_point sts.
Proof.
  intros Hasc Hall. unfold path_points, path_start.
  rewrite (segment_all _ _ _ Hall).
  assert (Hfirst : match map station_point sts with
                   | [] => interpolated sts (Fin s)
                   | p :: _ => if fgt (p_m p) (Fin s)
                               then interpolated sts (Fin s) else []
                   end = []).
  { destruct sts as [| x l]; [reflexivity |].
    inversion Hall as [| ? ? Hx _]; subst.
    destruct (in_range_inv _ _ _ Hx) as (m & Hm & Hb).
    cbn [map station_point p_m].
    destruct (fgt (md x) (Fin s)); [| reflexivity].
    apply interpolated_above. rewrite Hm. apply flt_Fin_false. lra. }
  rewrite Hfirst. cbn [app]. rewrite last_error_map.
  destruct (last_error sts) as [l |] eqn:Hl; cbn [option_map];
    [| now rewrite app_nil_r].
  cbn [station_point p_m].
  destruct (flt (md l) (Fin e)) eqn:Hle; [| now rewrite app_nil_r].
  rewrite interpolated_beyond; [now rewrite app_nil_r |].
  pose proof (ascending_last _ _ Hasc Hl) as Hlast.
  apply Forall_forall. intros t Ht.
  rewrite Forall_forall in Hlast, Hall.
  specialize (Hlast t Ht). destruct (in_range_inv _ _ _ (Hall t Ht)) as (m & Hm & _).
  destruct (in_range_inv _ _ _ (Hall l (last_error_In _ _ Hl))) as (ml & Hml & _).
  rewrite Hm, Hml in *. apply flt_Fin. apply flt_Fin in Hle.
  apply flt_Fin_false in Hlast. lra.
Qed.

(** X14.  A record that lies wholly outside the surveyed depths, below the
    last station or above the first one, has an empty sub-path: nothing
    is extrapolated for it, and it is not drawn. *)
Theorem record_outside_survey (sts : list TrajectoryStation) (top bottom : R) :
  top <= bottom ->
  Forall (fun t => flt (md t) (Fin top) = true) sts
  \/ Forall (fun t => flt (Fin bottom) (md t) = true) sts ->
  get_path_segment sts (Fin top) (Fin bottom) = ([], [], []).
Proof.
  intros Hle H. unfold get_path_segment.
  now rewrite (path_points_outside _ _ _ Hle H).
Qed.

Lemma record_outside_survey_witness :
  get_path_segment
    [mkStation (Fin 0) (Fin 0) (Fin 0) (Fin 0) (Fin 0) (Fin 0) (Fin 0);
     mkStation (Fin 100) (Fin 0) (Fin 0) (Fin 100) (Fin 0) (Fin 0) (Fin 0)]
    (Fin 200) (Fin 300)
  = ([], [], []).
Proof.
  apply record_outside_survey; [lra |].
  left. repeat constructor; cbn [md]; apply flt_Fin; lra.
Defined.

(** X15.  A record that spans the whole survey is drawn along the stations
    themselves.  When the stations are in ascending depth order and all lie
    within the record's range, the sub-path is exactly the stations'
    (east, north, tvd), in order: no point is added before the first
    station or after the last one. *)
Theorem record_spanning_survey (sts : list TrajectoryStation)
  (top bottom : R) :
  ascending sts ->
  Forall (fun t => in_range (Fin top) (Fin bottom) t = true) sts ->
  get_path_segment sts (Fin top) (Fin bottom)
  = (map east sts, map north sts, map tvd sts).
Proof.
  intros Hasc Hall. unfold get_path_segment.
  rewrite (path_points_all _ _ _ Hasc Hall), !map_map. reflexivity.
Qed.

Lemma record_spanning_survey_witness :
  let sts :=
    [mkStation (Fin 0) (Fin 0) (Fin 0) (Fin 0) (Fin 0) (Fin 0) (Fin 0);
     mkStation (Fin 100) (Fin 0) (Fin 0) (Fin 100) (Fin 0) (Fin 0) (Fin 0)] in
  get_path_segment sts (Fin (-50)) (Fin 500)
  = (map east sts, map north sts, map tvd sts).
Proof.
  intros sts. apply record_spanning_survey.
  - unfold ascending. repeat constructor; cbn [md]; apply flt_Fin_false; lra.
  - constructor; [| constructor; [| constructor]].
    + match goal with
      | |- in_range _ _ ?x = true =>
          apply (proj2 (in_range_Fin (-50) 500 0 x eq_refl))
      end. lra.
    + match goal with
      | |- in_range _ _ ?x = true =>
          apply (proj2 (in_range_Fin (-50) 500 100 x eq_refl))
      end. lra.
Defined.

(** ** The cylinders *)

Lemma fdiv_Fin (x y : R) : y <> 0 -> fdiv (Fin x) (Fin y) = Fin (x / y).
Proof. intros H. cbn. now rewrite (proj2 (Reqb_false y 0)). Qed.

Lemma fdiv_Inf (s : bool) (y : R) : 0 < y -> fdiv (Inf s) (Fin y) = Inf s.
Proof.
  intros H. cbn. rewrite (proj2 (Rltb_false y 0)) by lra.
  now rewrite xorb_false_r.
Qed.

Lemma fmul_Inf (s : bool) (y : R) : 0 < y -> fmul (Inf s) (Fin y) = Inf s.
Proof.
  intros H. cbn. unfold scale_inf.
  rewrite (proj2 (Reqb_false y 0)), (proj2 (Rltb_false y 0)) by lra.
  reflexivity.
Qed.

(** The exaggeration factor cancels in the hover text. *)
Lemma hover_od_radius (d : pyfloat) :
  hover_od (fmul (fdiv (fdiv d (Fin 2)) (Fin 12)) VISUAL_EXAGGERATION_FACTOR)
  = d.
Proof.
  unfold hover_od, VISUAL_EXAGGERATION_FACTOR.
  destruct d as [x | s |].
  - rewrite !fdiv_Fin by lra. cbn [fmul]. rewrite fdiv_Fin by lra.
    cbn [fmul]. f_equal. field.
  - rewrite !fdiv_Inf, fmul_Inf, fdiv_Inf, !fmul_Inf by lra. reflexivity.
  - reflexivity.
Qed.

Lemma combine_map_same {A B C : Type} (f : A -> B) (g : A -> C) (l : list A) :
  combine (map f l) (map g l) = map (fun x => (f x, g x)) l.
Proof. induction l as [| x l IH]; cbn; [reflexivity | now f_equal]. Qed.

Lemma theta_first_last :
  exists middle, theta = 0 :: middle ++ [2 * PI].
Proof.
  unfold theta, linspace, RADIAL_RESOLUTION.
  assert (H19 : INR 19 = 19) by (rewrite INR_IZR_INZ; reflexivity).
  change (20 - 1)%nat with 19%nat.
  change (seq 0 20) with (0%nat :: seq 1 19).
  rewrite (seq_S 18 1). cbn [map Nat.add]. rewrite map_app. cbn [map].
  eexists. f_equal.
  - cbn [INR]. lra.
  - f_equal. f_equal. rewrite H19. field.
Qed.

(** X19.  Each ring of a cylinder's mesh is a closed circle around its
    point of the centre line.  For a finite centre point and radius the
    ring has [RADIAL_RESOLUTION] points, each, in exact arithmetic, at
    distance [r] from the centre in the horizontal plane, and it starts
    and ends at the same point, [(xi + r, yi)]. *)
Theorem cylinder_ring_closed_circle (xi yi r : R) :
  let ring := combine (ring_x (Fin xi) (Fin r)) (ring_y (Fin yi) (Fin r)) in
  List.length ring = RADIAL_RESOLUTION
  /\ Forall (fun p => exists X Y,
               p = (Fin X, Fin Y)
               /\ (X - xi) * (X - xi) + (Y - yi) * (Y - yi) = r * r) ring
  /\ hd_error ring = Some (Fin (xi + r), Fin yi)
  /\ last_error ring = Some (Fin (xi + r), Fin yi).
Proof.
  unfold ring_x, ring_y. rewrite combine_map_same. cbn zeta.
  split; [| split].
  - rewrite length_map. unfold theta, linspace.
    now rewrite length_map, length_seq.
  - apply Forall_forall. intros p Hp. apply in_map_iff in Hp.
    destruct Hp as (th & <- & _). cbn [fadd fmul].
    eexists _, _. split; [reflexivity |].
    pose proof (sin2_cos2 th) as H. unfold Rsqr in H.
    replace ((xi + r * cos th - xi) * (xi + r * cos th - xi)
             + (yi + r * sin th - yi) * (yi + r * sin th - yi))
      with (r * r * (sin th * sin th + cos th * cos th)) by ring.
    rewrite H. ring.
  - destruct theta_first_last as (middle & ->).
    cbn [map hd_error fadd fmul]. rewrite cos_0, sin_0.
    split.
    + do 3 f_equal; ring.
    + rewrite map_app. cbn [map]. rewrite app_comm_cons.
      rewrite last_error_app_single.
      cbn [fadd fmul]. rewrite cos_2PI, sin_2PI. do 3 f_equal; ring.
Qed.

(** ** How far a station can be from the wellhead *)

(** The triangle inequality, on squares. *)
Lemma sphere_step (N E T dn de dt p D : R) :
  0 <= p -> 0 <= D ->
  N * N + E * E + T * T <= p * p ->
  dn * dn + de * de + dt * dt <= D * D ->
  (N + dn) * (N + dn) + (E + de) * (E + de) + (T + dt) * (T + dt)
  <= (p + D) * (p + D).
Proof.
  intros Hp HD HA HB.
  pose proof (Rle_0_sqr N) as HN. pose proof (Rle_0_sqr E) as HE.
  pose proof (Rle_0_sqr T) as HT. pose proof (Rle_0_sqr dn) as Hdn.
  pose proof (Rle_0_sqr de) as Hde. pose proof (Rle_0_sqr dt) as Hdt.
  pose proof (Rle_0_sqr (N * de - E * dn)) as H1.
  pose proof (Rle_0_sqr (N * dt - T * dn)) as H2.
  pose proof (Rle_0_sqr (E * dt - T * de)) as H3.
  unfold Rsqr in *.
  assert (Hlag : (N * dn + E * de + T * dt) * (N * dn + E * de + T * dt)
                 <= (N * N + E * E + T * T) * (dn * dn + de * de + dt * dt)).
  { replace ((N * N + E * E + T * T) * (dn * dn + de * de + dt * dt))
      with ((N * dn + E * de + T * dt) * (N * dn + E * de + T * dt)
            + ((N * de - E * dn) * (N * de - E * dn)
               + (N * dt - T * dn) * (N * dt - T * dn)
               + (E * dt - T * de) * (E * dt - T * de))) by ring.
    lra. }
  assert (HAB : (N * N + E * E + T * T) * (dn * dn + de * de + dt * dt)
                <= p * p * (D * D)).
  { apply Rmult_le_compat; lra. }
  assert (HpD : 0 <= p * D) by (apply Rmult_le_pos; assumption).
  assert (HC : N * dn + E * de + T * dt <= p * D).
  { destruct (Rle_lt_dec (N * dn + E * de + T * dt) (p * D)) as [H | H];
      [exact H | exfalso].
    assert (p * D * (p * D)
            < (N * dn + E * de + T * dt) * (N * dn + E * de + T * dt)).
    { apply Rmult_le_0_lt_compat; assumption. }
    replace (p * p * (D * D)) with (p * D * (p * D)) in HAB by ring.
    lra. }
  replace ((N + dn) * (N + dn) + (E + de) * (E + de) + (T + dt) * (T + dt))
    with ((N * N + E * E + T * T) + 2 * (N * dn + E * de + T * dt)
          + (dn * dn + de * de + dt * dt)) by ring.
  replace ((p + D) * (p + D)) with (p * p + 2 * (p * D) + D * D) by ring.
  lra.
Qed.

Lemma finite_measurement_inv (m : Measurement) :
  finite_measurement m = true ->
  exists d i a, m = mkMeasurement (Fin d) (Fin i) (Fin a).
Proof.
  destruct m as [[d | |] [i | |] [a | |]]; cbn; try discriminate.
  intros _. now exists d, i, a.
Qed.

Lemma run_loop_within (rows : list Row) (N E T p i0 a0 : R)
  (done : list TrajectoryStation) :
  Forall (fun r => finite_measurement (snd r) = true) rows ->
  StronglySorted le_row rows ->
  Forall (fun r => fle (Fin p) (row_md r) = true) rows ->
  0 <= p -> N * N + E * E + T * T <= p * p ->
  Forall within_measured_depth done ->
  exists sts,
    (st <- run_loop (mkLoop (Fin N) (Fin E) (Fin T) (Fin p) (Fin i0) (Fin a0)
                       done) rows ;;
     Ok (stations_to_create st)) = Ok sts
    /\ Forall within_measured_depth sts.
Proof.
  revert N E T p i0 a0 done.
  induction rows as [| r rows IH]; intros N E T p i0 a0 done Hf Hs Hp Hp0 Hb Hd.
  - cbn. now exists done.
  - inversion Hf as [| ? ? Hf0 Hf']; subst.
    inversion Hs as [| ? ? Hs' Hle]; subst.
    inversion Hp as [| ? ? Hp1 Hp']; subst.
    destruct r as [k m]. cbn [snd] in Hf0.
    destruct (finite_measurement_inv m Hf0) as (d & i & a & ->).
    unfold row_md in Hp1. cbn [snd m_md] in Hp1. apply fle_Fin in Hp1.
    assert (Hnext : Forall (fun r => fle (Fin d) (row_md r) = true) rows).
    { apply Forall_forall. intros r Hr.
      rewrite Forall_forall in Hle, Hf'. specialize (Hle r Hr).
      specialize (Hf' r Hr). destruct r as [k' m'].
      cbn [snd] in Hf'.
      destruct (finite_measurement_inv m' Hf') as (d' & i' & a' & ->).
      unfold le_row, le_depth in Hle. unfold row_md.
      cbn [snd m_md] in *. apply fle_Fin. now apply flt_Fin_false in Hle. }
    cbn [run_loop]. unfold loop_body.
    cbn [fst snd m_md m_inc m_azi current_n current_e current_tvd prev_md
         prev_inc prev_azi stations_to_create].
    destruct (Nat.eqb k 0 && feq (Fin d) (Fin 0)) eqn:Htie.
    + apply andb_true_iff in Htie. destruct Htie as [_ Hz].
      apply feq_Fin in Hz. subst d. assert (p = 0) by lra. subst p.
      cbn [bind]. apply (IH N E T 0 i a); try assumption.
      apply Forall_app. split; [exact Hd |]. constructor; [| constructor].
      exists N, E, T, 0. cbn. repeat split; try reflexivity. exact Hb.
    + destruct (minimum_curvature_chord p i0 a0 d i a)
        as (dn & de & dt & dls & -> & Hch).
      cbn [bind fadd].
      assert (Hnew : (N + dn) * (N + dn) + (E + de) * (E + de)
                     + (T + dt) * (T + dt) <= d * d).
      { replace (d * d) with ((p + (d - p)) * (p + (d - p))) by ring.
        apply sphere_step; try assumption; lra. }
      apply (IH (N + dn) (E + de) (T + dt) d i a); try assumption; [lra |].
      apply Forall_app. split; [exact Hd |]. constructor; [| constructor].
      exists (N + dn), (E + de), (T + dt), d. cbn.
      repeat split; try reflexivity. exact Hnew.
Qed.

(** X20.  No station is farther from the wellhead than its measured depth.
    Take any order the sort may give the rows.  When every row of the
    sheet is finite with an inclination in [0, 180] and an azimuth in
    [0, 360], no depth is negative and every dogleg, from the vertical to
    the first row and from each row to the next, is at most a right
    angle, the loop raises nothing and, in exact arithmetic, every
    station satisfies north^2 + east^2 + tvd^2 <= md^2; in particular the
    true vertical depth never exceeds the measured depth. *)
Theorem stations_within_measured_depth (ms : list Measurement)
  (rows : list Row) :
  depth_ordering (read_rows ms) rows ->
  forallb finite_measurement ms = true -> from_surface ms ->
  gentle_turns zero_datum (map snd rows) ->
  exists sts,
    survey_stations rows = Ok sts /\ Forall within_measured_depth sts.
Proof.
  intros Hord Hv Hpos _. unfold survey_stations.
  rewrite forallb_forall in Hv.
  pose proof (ordering_measurements ms rows Hord) as Hp.
  assert (Hin : forall r, In r rows -> In (snd r) ms).
  { intros r Hr. apply (Permutation_in _ Hp). now apply in_map. }
  assert (Hnan : Forall (fun x => is_nan (row_md x) = false) rows).
  { apply Forall_forall. intros r Hr.
    destruct (finite_measurement_inv _ (Hv _ (Hin r Hr))) as (d & i & a & E).
    unfold row_md. now rewrite E. }
  apply (run_loop_within _ 0 0 0 0 0 0 []).
  - apply Forall_forall. intros r Hr. apply Hv. now apply Hin.
  - exact (ordering_sorted _ _ Hord Hnan).
  - apply Forall_forall. intros r Hr. unfold from_surface in Hpos.
    rewrite Forall_forall in Hpos. apply Hpos. now apply Hin.
  - lra.
  - lra.
  - constructor.
Qed.

Lemma stations_within_measured_depth_witness :
  exists sts,
    survey_stations [(1%nat, mkMeasurement (Fin 0) (Fin 0) (Fin 0));
                     (0%nat, mkMeasurement (Fin 100) (Fin 90) (Fin 0))]
    = Ok sts
    /\ Forall within_measured_depth sts.
Proof.
  apply (stations_within_measured_depth
           [mkMeasurement (Fin 100) (Fin 90) (Fin 0);
            mkMeasurement (Fin 0) (Fin 0) (Fin 0)]).
  - split; [apply perm_swap | depth_ordered].
  - reflexivity.
  - repeat constructor; cbn [m_md]; apply fle_Fin; lra.
  - cbn. unfold gentle, survey_angles.
    rewrite beta_real_straight, beta_real_quarter_turn.
    pose proof PI_RGT_0. repeat split; lra.
Defined.

(** ** A record inside the survey *)

Lemma point_of_depth (pos : pyfloat * pyfloat * pyfloat) (d : pyfloat) :
  p_m (point_of pos d) = d.
Proof. now destruct pos as [[? ?] ?]. Qed.

Lemma has_path_covered (sts : list TrajectoryStation)
  (item : BoreholeGeometry) (first last : TrajectoryStation)
  (top bottom : R) :
  increasing_depths sts -> all_finite sts ->
  hd_error sts = Some first -> last_error sts = Some last ->
  start_md item = Fin top -> end_md item = Fin bottom ->
  fle (md first) (Fin top) = true -> top < bottom ->
  fle (Fin bottom) (md last) = true ->
  has_path sts item = true.
Proof.
  intros Hinc Hfin Hfirst Hlast Hs He Hlo Hlt Hhi.
  apply increasing_strong in Hinc.
  assert (Hse : top <= bottom) by lra.
  assert (Hhead : exists x rest, sts = x :: rest
                                 /\ fle (md x) (Fin top) = true).
  { destruct sts as [| x rest]; [discriminate |].
    injection Hfirst as ->. now exists first, rest. }
  assert (Hcov : covered sts bottom) by now exists last.
  destruct (path_start_head sts _ _ Hinc Hfin Hse Hhead Hcov)
    as (p & _ & Hhd).
  destruct (path_points_last sts _ _ Hinc Hfin Hse Hhead Hcov)
    as (q & _ & Hlst).
  unfold has_path. rewrite Hs, He. unfold path_points in *.
  destruct (path_start sts (Fin top) (Fin bottom)) as [| a l];
    [discriminate |].
  cbn [hd_error] in Hhd. injection Hhd as ->.
  destruct (l ++ match last_error (point_of p (Fin top) :: l) with
                 | Some p0 => if flt (p_m p0) (Fin bottom)
                              then interpolated sts (Fin bottom) else []
                 | None => []
                 end) as [| b l'] eqn:Hrest.
  - exfalso. rewrite <- app_comm_cons, Hrest in Hlst. cbn in Hlst.
    injection Hlst as Hpq.
    apply (f_equal p_m) in Hpq. rewrite !point_of_depth in Hpq.
    injection Hpq as Hpq. lra.
  - rewrite <- app_comm_cons, Hrest. reflexivity.
Qed.

(** ** Turning the azimuth reference, and a horizontal section *)

Lemma beta_real_rotate (inc1 azi1 inc2 azi2 phi : R) :
  beta_real inc1 (azi1 + phi) inc2 (azi2 + phi)
  = beta_real inc1 azi1 inc2 azi2.
Proof.
  unfold beta_real, cos_beta_real.
  replace ((azi2 + phi) * (PI / 180) + - ((azi1 + phi) * (PI / 180)))
    with (azi2 * (PI / 180) + - (azi1 * (PI / 180))) by ring.
  reflexivity.
Qed.

(** X22.  The solver does not depend on where azimuth zero points.  For
    finite measurements of a survey whose dogleg is at most a right angle,
    adding the same angle to both azimuths (which stay in [0, 360]) leaves
    the vertical displacement and the dogleg severity unchanged and turns
    the horizontal displacement by that angle, in exact arithmetic. *)
Theorem rotated_azimuth_frame (md1 inc1 azi1 md2 inc2 azi2 phi : R) :
  gentle inc1 azi1 inc2 azi2 ->
  0 <= azi1 + phi <= 360 -> 0 <= azi2 + phi <= 360 ->
  exists d_n d_e d_tvd dls,
    minimum_curvature (Fin md1) (Fin inc1) (Fin azi1)
                      (Fin md2) (Fin inc2) (Fin azi2)
    = Ok (Fin d_n, Fin d_e, Fin d_tvd, Fin dls)
    /\ minimum_curvature (Fin md1) (Fin inc1) (Fin (azi1 + phi))
                         (Fin md2) (Fin inc2) (Fin (azi2 + phi))
       = Ok (Fin (d_n * cos (phi * (PI / 180)) - d_e * sin (phi * (PI / 180))),
             Fin (d_n * sin (phi * (PI / 180)) + d_e * cos (phi * (PI / 180))),
             Fin d_tvd, Fin dls).
Proof.
  intros _ _ _.
  do 4 eexists. split; [apply minimum_curvature_finite |].
  rewrite minimum_curvature_finite, beta_real_rotate. cbn zeta.
  replace ((azi1 + phi) * (PI / 180))
    with (azi1 * (PI / 180) + phi * (PI / 180)) by ring.
  replace ((azi2 + phi) * (PI / 180))
    with (azi2 * (PI / 180) + phi * (PI / 180)) by ring.
  rewrite !cos_plus, !sin_plus.
  solver_equal.
Qed.

Lemma rotated_azimuth_frame_witness :
  exists d_n d_e d_tvd dls,
    minimum_curvature (Fin 100) (Fin 0) (Fin 0) (Fin 200) (Fin 90) (Fin 0)
    = Ok (Fin d_n, Fin d_e, Fin d_tvd, Fin dls)
    /\ minimum_curvature (Fin 100) (Fin 0) (Fin (0 + 30))
                         (Fin 200) (Fin 90) (Fin (0 + 30))
       = Ok (Fin (d_n * cos (30 * (PI / 180)) - d_e * sin (30 * (PI / 180))),
             Fin (d_n * sin (30 * (PI / 180)) + d_e * cos (30 * (PI / 180))),
             Fin d_tvd, Fin dls).
Proof.
  apply (rotated_azimuth_frame 100 0 0 200 90 0 30); [| lra | lra].
  unfold gentle, survey_angles. rewrite beta_real_quarter_turn.
  repeat split; lra.
Defined.

Lemma beta_real_level_turn (azi1 azi2 : R) :
  beta_real 90 azi1 90 azi2
  = acos (cos ((azi2 - azi1) * (PI / 180))).
Proof.
  unfold beta_real.
  assert (H : cos_beta_real (90 * (PI / 180)) (azi1 * (PI / 180))
                            (90 * (PI / 180)) (azi2 * (PI / 180))
              = cos ((azi2 - azi1) * (PI / 180))).
  { unfold cos_beta_real.
    replace (90 * (PI / 180) + - (90 * (PI / 180))) with 0 by lra.
    replace (90 * (PI / 180)) with (PI / 2) by field.
    replace (azi2 * (PI / 180) + - (azi1 * (PI / 180)))
      with ((azi2 - azi1) * (PI / 180)) by ring.
    rewrite cos_0, sin_PI2. ring. }
  rewrite H, clamp_real_inside by apply COS_bound. reflexivity.
Qed.

(** X23.  A horizontal section gains no depth when it turns: with both
    inclinations at 90 degrees, azimuths in [0, 360] and a dogleg of at
    most a right angle, the vertical displacement is zero, in exact
    arithmetic, whatever the depths. *)
Theorem horizontal_section_keeps_depth (md1 azi1 md2 azi2 : R) :
  gentle 90 azi1 90 azi2 ->
  exists d_n d_e dls,
    minimum_curvature (Fin md1) (Fin 90) (Fin azi1) (Fin md2) (Fin 90) (Fin azi2)
    = Ok (Fin d_n, Fin d_e, Fin 0, Fin dls).
Proof.
  intros _.
  rewrite minimum_curvature_finite. cbn zeta.
  replace (90 * (PI / 180)) with (PI / 2) by field.
  rewrite cos_PI2. do 3 eexists.
  replace ((md2 + - md1) / 2 * (0 + 0)
           * ratio_real (beta_real 90 azi1 90 azi2)) with 0 by ring.
  reflexivity.
Qed.

Lemma horizontal_section_keeps_depth_witness :
  exists d_n d_e dls,
    minimum_curvature (Fin 1000) (Fin 90) (Fin 0) (Fin 1100) (Fin 90) (Fin 90)
    = Ok (Fin d_n, Fin d_e, Fin 0, Fin dls).
Proof.
  apply (horizontal_section_keeps_depth 1000 0 1100 90).
  unfold gentle, survey_angles. rewrite beta_real_level_turn.
  replace ((90 - 0) * (PI / 180)) with (PI / 2) by field.
  rewrite cos_PI2, acos_0. repeat split; lra.
Defined.

(** * The figure *)

(** ** Ordering by a column *)

Section SortBy.

Context {A : Type} (key : A -> pyfloat).

Lemma insert_by_perm (x : A) (l : list A) :
  Permutation (insert_by key x l) (x :: l).
Proof.
  induction l as [| y l IH]; cbn; [reflexivity |].
  destruct (flt (key y) (key x)); [| reflexivity].
  rewrite IH. apply perm_swap.
Qed.

Lemma sort_by_perm (l : list A) : Permutation (sort_by key l) l.
Proof.
  induction l as [| x l IH]; cbn; [reflexivity |].
  rewrite insert_by_perm. now constructor.
Qed.

Lemma insert_by_sorted (x : A) (l : list A) :
  is_nan (key x) = false ->
  Forall (fun y => is_nan (key y) = false) l ->
  StronglySorted (fun a b => flt (key b) (key a) = false) l ->
  StronglySorted (fun a b => flt (key b) (key a) = false) (insert_by key x l).
Proof.
  intros Hx Hnan Hs; induction Hs as [| y l Hl IH Hall]; cbn [insert_by].
  - constructor; constructor.
  - inversion Hnan as [| ? ? Hy Hnan']; subst.
    destruct (flt (key y) (key x)) eqn:E.
    + constructor; [now apply IH |].
      apply (Permutation_Forall (Permutation_sym (insert_by_perm x l))).
      constructor; [| assumption]. now apply flt_asym.
    + constructor; [now constructor |].
      constructor; [exact E |].
      eapply Forall_impl; [| exact Hall]. intros c Hc.
      apply (not_flt_trans _ (key y)); assumption.
Qed.

Lemma sort_by_sorted (l : list A) :
  Forall (fun y => is_nan (key y) = false) l ->
  StronglySorted (fun a b => flt (key b) (key a) = false) (sort_by key l).
Proof.
  induction 1 as [| x l Hx Hl IH]; cbn [sort_by]; [constructor |].
  apply insert_by_sorted; try assumption.
  now apply (Permutation_Forall (Permutation_sym (sort_by_perm l))).
Qed.

Lemma sorted_unique_by (l l' : list A) :
  StronglySorted (fun a b => flt (key a) (key b) = true) l ->
  StronglySorted (fun a b => flt (key b) (key a) = false) l' ->
  Permutation l l' -> l' = l.
Proof.
  intros Hl; revert l'; induction Hl as [| a l Hs IH Ha]; intros l' Hl' Hp.
  - now apply Permutation_nil in Hp.
  - destruct l' as [| b l'].
    { apply Permutation_sym, Permutation_nil in Hp. discriminate. }
    inversion Hl' as [| ? ? Hl'' Hb]; subst.
    assert (b = a).
    { assert (Hin_b : In b (a :: l))
        by (apply (Permutation_in _ (Permutation_sym Hp)); now left).
      assert (Hin_a : In a (b :: l'))
        by (apply (Permutation_in _ Hp); now left).
      destruct Hin_b as [-> | Hin_b]; [reflexivity |].
      destruct Hin_a as [-> | Hin_a]; [reflexivity |].
      rewrite Forall_forall in Ha, Hb.
      specialize (Ha b Hin_b). specialize (Hb a Hin_a). congruence. }
    subst b. f_equal. apply IH; [assumption |].
    now apply Permutation_cons_inv in Hp.
Qed.

Lemma flt_not_nan (a b : pyfloat) :
  flt a b = true -> is_nan a = false /\ is_nan b = false.
Proof. destruct a as [? | [] |], b as [? | [] |]; cbn; now try discriminate. Qed.

(** In whatever order they are stored, rows with strictly increasing keys
    are sorted back into that order. *)
Lemma sort_by_unique (l l' : list A) :
  Sorted (fun a b => flt (key a) (key b) = true) l ->
  Permutation l l' -> sort_by key l' = l.
Proof.
  intros Hs Hp.
  assert (Hss : StronglySorted (fun a b => flt (key a) (key b) = true) l).
  { apply Sorted_StronglySorted; [| exact Hs].
    intros a b c. apply flt_trans. }
  destruct l as [| x [| y l]].
  - apply Permutation_nil in Hp. now subst.
  - apply Permutation_length_1_inv in Hp. now subst.
  - apply sorted_unique_by; [exact Hss | |].
    + apply sort_by_sorted.
      apply (Permutation_Forall Hp).
      inversion Hss as [| ? ? _ Hx]; subst.
      inversion Hx as [| ? ? Hxy _]; subst.
      constructor; [exact (proj1 (flt_not_nan _ _ Hxy)) |].
      eapply Forall_impl; [| exact Hx]. intros z Hz.
      exact (proj2 (flt_not_nan _ _ Hz)).
    + rewrite Hp. symmetry. apply sort_by_perm.
Qed.

End SortBy.

(** ** The loop over the geometry records *)

Lemma legend_names_app (a b : list Trace) :
  legend_names (a ++ b) = legend_names a ++ legend_names b.
Proof. apply flat_map_app. Qed.

Lemma cylinder_names_app (a b : list Trace) :
  cylinder_names (a ++ b) = cylinder_names a ++ cylinder_names b.
Proof. apply flat_map_app. Qed.

Lemma has_path_no_station (item : BoreholeGeometry) : has_path [] item = false.
Proof. reflexivity. Qed.

Lemma legend_invariant_nil : legend_invariant ([], []).
Proof.
  unfold legend_invariant. cbn. split; [constructor |]. split; tauto.
Qed.

Section PlotFacts.

Variable repr_finite : R -> string.
Variable plotly_colour : string -> bool.

Lemma mem_string_In (s : string) (l : list string) :
  mem_string s l = true <-> In s l.
Proof.
  unfold mem_string. rewrite existsb_exists. split.
  - intros (x & Hx & E). apply String.eqb_eq in E. now subst.
  - intros H. exists s. split; [exact H | apply String.eqb_refl].
Qed.

Lemma cylinder_of_names (sts : list TrajectoryStation)
  (item : BoreholeGeometry) :
  cylinder_names [cylinder_of repr_finite sts item]
  = [item_label repr_finite item]
  /\ legend_names [cylinder_of repr_finite sts item] = []
  /\ is_surface (cylinder_of repr_finite sts item) = true.
Proof.
  unfold cylinder_of.
  destruct (get_path_segment sts (start_md item) (end_md item)) as [[? ?] ?].
  now cbn.
Qed.

Lemma add_item_skip (sts : list TrajectoryStation)
  (acc : list Trace * list string) (item : BoreholeGeometry) :
  has_path sts item = false ->
  add_item repr_finite plotly_colour sts acc item = Ok acc.
Proof.
  destruct acc as [traces legend_items].
  unfold add_item, has_path, get_path_segment. rewrite length_map.
  now intros ->.
Qed.

Lemma add_item_drawn (sts : list TrajectoryStation) (traces : list Trace)
  (legend_items : list string) (item : BoreholeGeometry) :
  has_path sts item = true ->
  add_item repr_finite plotly_colour sts (traces, legend_items) item
  = if mem_string (item_label repr_finite item) legend_items
    then Ok (traces ++ [cylinder_of repr_finite sts item], legend_items)
    else if plotly_colour (marker_colour item)
         then Ok ((traces ++ [cylinder_of repr_finite sts item])
                  ++ [Scatter3d (item_label repr_finite item) 12
                        (marker_colour item)],
                  item_label repr_finite item :: legend_items)
         else Raise ValueError.
Proof.
  unfold add_item, has_path, cylinder_of, get_path_segment, scatter3d.
  rewrite length_map. intros ->.
  destruct (mem_string (item_label repr_finite item) legend_items);
    cbn [negb]; [reflexivity |].
  now destruct (plotly_colour (marker_colour item)).
Qed.

Lemma add_item_surfaces (sts : list TrajectoryStation)
  (acc acc' : list Trace * list string) (item : BoreholeGeometry) :
  add_item repr_finite plotly_colour sts acc item = Ok acc' ->
  filter is_surface (fst acc')
  = filter is_surface (fst acc)
    ++ (if has_path sts item then [cylinder_of repr_finite sts item] else []).
Proof.
  destruct acc as [traces legend_items].
  destruct (cylinder_of_names sts item) as (_ & _ & Hsurf).
  destruct (has_path sts item) eqn:Hp.
  - rewrite (add_item_drawn _ _ _ _ Hp).
    destruct (mem_string _ _).
    + intros [= <-]. cbn [fst]. rewrite filter_app. cbn [filter].
      now rewrite Hsurf.
    + destruct (plotly_colour _); [| discriminate].
      intros [= <-]. cbn [fst]. rewrite !filter_app. cbn [filter is_surface].
      now rewrite Hsurf, app_nil_r.
  - rewrite (add_item_skip _ _ _ Hp). intros [= <-]. now rewrite app_nil_r.
Qed.

Lemma add_items_surfaces (sts : list TrajectoryStation)
  (geom : list BoreholeGeometry) (acc acc' : list Trace * list string) :
  add_items repr_finite plotly_colour sts acc geom = Ok acc' ->
  filter is_surface (fst acc')
  = filter is_surface (fst acc)
    ++ map (cylinder_of repr_finite sts) (filter (has_path sts) geom).
Proof.
  revert acc; induction geom as [| item geom IH]; intros acc;
    cbn [add_items filter map].
  - intros [= <-]. now rewrite app_nil_r.
  - destruct (add_item repr_finite plotly_colour sts acc item) as [acc1 | e]
      eqn:H1; cbn [bind]; [| discriminate].
    intros H. rewrite (IH _ H), (add_item_surfaces _ _ _ _ H1), <- app_assoc.
    now destruct (has_path sts item).
Qed.




Lemma add_item_legend (sts : list TrajectoryStation)
  (acc acc' : list Trace * list string) (item : BoreholeGeometry) :
  legend_invariant acc ->
  add_item repr_finite plotly_colour sts acc item = Ok acc' ->
  legend_invariant acc'.
Proof.
  destruct acc as [traces legend_items]. intros Hinv.
  destruct (has_path sts item) eqn:Hp.
  2:{ rewrite (add_item_skip _ _ _ Hp). now intros [= <-]. }
  rewrite (add_item_drawn _ _ _ _ Hp).
  destruct Hinv as (Hnd & Hleg & Hcyl). cbn [fst snd] in *.
  destruct (cylinder_of_names sts item) as (Hcn & Hln & _).
  destruct (mem_string (item_label repr_finite item) legend_items) eqn:Hmem.
  - (* the label is in the legend already *)
    intros [= <-]. apply mem_string_In in Hmem.
    unfold legend_invariant. cbn [fst snd].
    rewrite legend_names_app, cylinder_names_app, Hcn, Hln, app_nil_r.
    split; [exact Hnd |]. split; [exact Hleg |].
    intros l. rewrite in_app_iff. cbn [In]. split.
    + intros [H | [<- | []]]; [now apply Hcyl | now apply Hleg].
    + intros H. left. now apply Hcyl.
  - (* a new label: its marker is added *)
    destruct (plotly_colour (marker_colour item)); [| discriminate].
    intros [= <-].
    assert (Hnew : ~ In (item_label repr_finite item) legend_items).
    { intros H. apply mem_string_In in H. congruence. }
    unfold legend_invariant. cbn [fst snd].
    rewrite !legend_names_app, !cylinder_names_app, Hcn, Hln. cbn.
    rewrite !app_nil_r. split; [| split].
    + apply NoDup_app.
      * exact Hnd.
      * repeat constructor. intros [].
      * intros l Hl [<- | []]. apply Hnew. now apply Hleg.
    + intros l. rewrite in_app_iff. cbn. rewrite <- Hleg. tauto.
    + intros l. rewrite !in_app_iff. cbn. rewrite Hcyl. tauto.
Qed.

Lemma add_items_legend (sts : list TrajectoryStation)
  (geom : list BoreholeGeometry) (acc acc' : list Trace * list string) :
  legend_invariant acc ->
  add_items repr_finite plotly_colour sts acc geom = Ok acc' ->
  legend_invariant acc'.
Proof.
  revert acc. induction geom as [| item geom IH]; intros acc Hinv;
    cbn [add_items].
  - now intros [= <-].
  - destruct (add_item repr_finite plotly_colour sts acc item) as [acc1 | e]
      eqn:H1; cbn [bind]; [| discriminate].
    apply IH. exact (add_item_legend _ _ _ _ Hinv H1).
Qed.

(** Where a trace of the loop comes from. *)
Lemma add_item_traces (sts : list TrajectoryStation)
  (acc acc' : list Trace * list string) (item : BoreholeGeometry)
  (t : Trace) :
  add_item repr_finite plotly_colour sts acc item = Ok acc' ->
  In t (fst acc') ->
  In t (fst acc)
  \/ (has_path sts item = true
      /\ (t = cylinder_of repr_finite sts item
          \/ (t = Scatter3d (item_label repr_finite item) 12
                    (marker_colour item)
              /\ plotly_colour (marker_colour item) = true))).
Proof.
  destruct acc as [traces legend_items].
  destruct (has_path sts item) eqn:Hp.
  2:{ rewrite (add_item_skip _ _ _ Hp). intros [= <-]. now left. }
  rewrite (add_item_drawn _ _ _ _ Hp).
  destruct (mem_string _ _).
  - intros [= <-]. cbn [fst]. rewrite in_app_iff. cbn [In].
    intros [H | [<- | []]]; [now left | right]. split; [reflexivity | now left].
  - destruct (plotly_colour (marker_colour item)) eqn:Hc; [| discriminate].
    intros [= <-]. cbn [fst]. rewrite !in_app_iff. cbn [In].
    intros [[H | [<- | []]] | [<- | []]]; [now left | right | right];
      (split; [reflexivity |]); [now left | right; now split].
Qed.

Lemma add_items_traces (sts : list TrajectoryStation)
  (geom : list BoreholeGeometry) (acc acc' : list Trace * list string)
  (t : Trace) :
  add_items repr_finite plotly_colour sts acc geom = Ok acc' ->
  In t (fst acc') ->
  In t (fst acc)
  \/ exists item,
       In item geom /\ has_path sts item = true
       /\ (t = cylinder_of repr_finite sts item
           \/ (t = Scatter3d (item_label repr_finite item) 12
                     (marker_colour item)
               /\ plotly_colour (marker_colour item) = true)).
Proof.
  revert acc. induction geom as [| item geom IH]; intros acc;
    cbn [add_items].
  - intros [= <-] H. now left.
  - destruct (add_item repr_finite plotly_colour sts acc item) as [acc1 | e]
      eqn:H1; cbn [bind]; [| discriminate].
    intros H Hin. destruct (IH _ H Hin) as [Hacc1 | (it & Hit & Hrest)].
    + destruct (add_item_traces _ _ _ _ _ H1 Hacc1) as [H0 | Hnew];
        [now left | right].
      exists item. split; [now left | exact Hnew].
    + right. exists it. split; [now right | exact Hrest].
Qed.

(** The figure of a trajectory whose stations and records have distinct
    depths: the two queries return them in increasing order, however they
    are stored. *)
Lemma generate_3d_plot_ordered (name : string)
  (sts sts0 : list TrajectoryStation) (geom geom0 : list BoreholeGeometry) :
  increasing_depths sts -> Permutation sts sts0 ->
  increasing_starts geom -> Permutation geom geom0 ->
  generate_3d_plot repr_finite plotly_colour (mkTrajectory name sts0 geom0)
  = generate_3d_plot repr_finite plotly_colour (mkTrajectory name sts geom)
  /\ order_by_md sts0 = sts /\ order_by_start_md geom0 = geom.
Proof.
  intros Hs Hp Hg Hq.
  assert (H1 : order_by_md sts0 = sts) by exact (sort_by_unique md _ _ Hs Hp).
  assert (H2 : order_by_start_md geom0 = geom)
    by exact (sort_by_unique start_md _ _ Hg Hq).
  assert (H3 : order_by_md sts = sts)
    by exact (sort_by_unique md _ _ Hs (Permutation_refl _)).
  assert (H4 : order_by_start_md geom = geom)
    by exact (sort_by_unique start_md _ _ Hg (Permutation_refl _)).
  split; [| now split].
  unfold generate_3d_plot. cbn [stations geometry].
  now rewrite H1, H2, H3, H4.
Qed.

(** The figure of a trajectory with geometry records, in terms of the
    loop. *)
Lemma generate_3d_plot_records (name : string)
  (sts : list TrajectoryStation) (geom : list BoreholeGeometry) :
  geom <> [] ->
  generate_3d_plot repr_finite plotly_colour (mkTrajectory name sts geom)
  = match order_by_md sts with
    | [] => Ok NoData
    | _ :: _ =>
        acc <- add_items repr_finite plotly_colour (order_by_md sts) ([], [])
                 (order_by_start_md geom) ;;
        Ok (Figure (fst acc))
    end.
Proof.
  intros Hne. unfold generate_3d_plot. cbn [stations geometry].
  destruct (order_by_md sts) as [| s l]; [reflexivity |].
  destruct (order_by_start_md geom) as [| g l'] eqn:E; [| reflexivity].
  exfalso. apply Hne.
  apply Permutation_nil. rewrite <- E. exact (sort_by_perm start_md geom).
Qed.

End PlotFacts.

(** ** The figure of the small well *)

Lemma path_points_degenerate (sts : list TrajectoryStation) (s e : R) :
  e <= s -> segment sts (Fin s) (Fin e) = [] ->
  (List.length (path_points sts (Fin s) (Fin e)) <= 1)%nat.
Proof.
  intros Hes Hseg. unfold path_points, path_start. rewrite Hseg, app_nil_r.
  pose proof (interpolated_short sts (Fin s)) as Hlen.
  destruct (last_error (interpolated sts (Fin s))) as [p |] eqn:Hl.
  - rewrite (interpolated_depth _ _ _ (last_error_In _ _ Hl)).
    rewrite (proj2 (flt_Fin_false s e)) by lra. now rewrite app_nil_r.
  - now rewrite app_nil_r.
Qed.

Lemma well_increasing : increasing_depths [well_top; well_bottom].
Proof.
  repeat constructor. unfold lt_md, well_top, well_bottom. cbn [md].
  apply flt_Fin. lra.
Qed.

Lemma well_finite : all_finite [well_top; well_bottom].
Proof. repeat constructor. Qed.

Lemma stored_well_finite : all_finite [well_bottom; well_top].
Proof. repeat constructor. Qed.

Lemma records_increasing : increasing_starts [casing; plug; liner].
Proof.
  unfold increasing_starts, casing, plug, liner.
  repeat constructor; cbn [start_md]; apply flt_Fin; lra.
Qed.

Lemma casing_has_path : has_path [well_top; well_bottom] casing = true.
Proof.
  apply (has_path_covered _ _ well_top well_bottom 0 50);
    try reflexivity; try exact well_increasing; try exact well_finite.
  - unfold well_top. cbn [md]. apply fle_Fin. lra.
  - lra.
  - unfold well_bottom. cbn [md]. apply fle_Fin. lra.
Qed.


Lemma liner_has_path : has_path [well_top; well_bottom] liner = true.
Proof.
  apply (has_path_covered _ _ well_top well_bottom 70 100);
    try reflexivity; try exact well_increasing; try exact well_finite.
  - unfold well_top. cbn [md]. apply fle_Fin. lra.
  - lra.
  - unfold well_bottom. cbn [md]. apply fle_Fin. lra.
Qed.

Lemma plug_has_no_path : has_path [well_top; well_bottom] plug = false.
Proof.
  unfold has_path, plug. cbn [start_md end_md].
  apply Nat.ltb_ge. apply path_points_degenerate; [lra |].
  apply segment_none. unfold well_top, well_bottom.
  repeat constructor; unfold in_range, fge, fle; cbn; decide_reals;
    reflexivity.
Qed.

(** The figure: the casing and the liner with their legend markers, in
    depth order; nothing for the plug. *)
Lemma well_figure :
  generate_3d_plot repr_sample three_colours
    (mkTrajectory "Well" [well_bottom; well_top] [liner; plug; casing])
  = Ok (Figure
          [cylinder_of repr_sample [well_top; well_bottom] casing;
           Scatter3d (item_label repr_sample casing) 12 "red";
           cylinder_of repr_sample [well_top; well_bottom] liner;
           Scatter3d (item_label repr_sample liner) 12 "blue"]).
Proof.
  destruct (generate_3d_plot_ordered repr_sample three_colours "Well"
              [well_top; well_bottom] [well_bottom; well_top]
              [casing; plug; liner] [liner; plug; casing]
              well_increasing (perm_swap _ _ _) records_increasing)
    as (_ & Hs & Hg).
  { apply Permutation_sym.
    exact (Permutation_rev [liner; plug; casing]). }
  rewrite generate_3d_plot_records by discriminate.
  rewrite Hs, Hg. cbn [add_items].
  rewrite (add_item_drawn _ _ _ _ _ _ casing_has_path).
  change (mem_string (item_label repr_sample casing) []) with false.
  change (three_colours (marker_colour casing)) with true.
  cbn [bind app].
  rewrite (add_item_skip _ _ _ _ _ plug_has_no_path). cbn [bind].
  rewrite (add_item_drawn _ _ _ _ _ _ liner_has_path).
  change (mem_string (item_label repr_sample liner)
            [item_label repr_sample casing]) with false.
  change (three_colours (marker_colour liner)) with true.
  reflexivity.
Qed.


(** ** The compositor *)




(** ** Records that are and are not drawn *)

(** X13.  A record whose bottom lies above its top is never drawn: its
    sub-path has at most one point, so the compositor adds neither a
    cylinder nor a legend entry for it and does not look at its colour,
    whatever the stations. *)
Theorem inverted_record_not_drawn (repr_finite : R -> string)
  (plotly_colour : string -> bool)
  (sts : list TrajectoryStation) (acc : list Trace * list string)
  (item : BoreholeGeometry) (top bottom : R) :
  start_md item = Fin top -> end_md item = Fin bottom -> bottom < top ->
  add_item repr_finite plotly_colour sts acc item = Ok acc.
Proof.
  intros Hs He Hlt. apply add_item_skip. unfold has_path. rewrite Hs, He.
  apply Nat.ltb_ge. now apply path_points_inverted.
Qed.

Lemma inverted_record_not_drawn_witness :
  add_item repr_sample three_colours [well_top; well_bottom]
    ([cylinder_of repr_sample [well_top; well_bottom] casing],
     [item_label repr_sample casing])
    (mkGeometry "Casing" (Fin 80) (Fin 20) (Fin 9) "nan")
  = Ok ([cylinder_of repr_sample [well_top; well_bottom] casing],
        [item_label repr_sample casing]).
Proof.
  apply (inverted_record_not_drawn _ _ _ _ _ 80 20); [reflexivity .. | lra].
Defined.

(** X21.  A record of positive length that lies inside the surveyed depths
    is always drawn.  For stations of strictly increasing depth and finite
    position, a record whose top is at or below the first station and
    whose bottom is at or above the last one, top above bottom, and whose
    marker colour plotly takes when its label is new to the legend, adds
    exactly one cylinder to the figure: its own. *)
Theorem covered_record_drawn (repr_finite : R -> string)
  (plotly_colour : string -> bool)
  (sts : list TrajectoryStation) (acc : list Trace * list string)
  (item : BoreholeGeometry) (first last : TrajectoryStation)
  (top bottom : R) :
  increasing_depths sts -> all_finite sts ->
  hd_error sts = Some first -> last_error sts = Some last ->
  start_md item = Fin top -> end_md item = Fin bottom ->
  fle (md first) (Fin top) = true -> top < bottom ->
  fle (Fin bottom) (md last) = true ->
  (mem_string (item_label repr_finite item) (snd acc) = false ->
   plotly_colour (marker_colour item) = true) ->
  exists acc',
    add_item repr_finite plotly_colour sts acc item = Ok acc'
    /\ filter is_surface (fst acc')
       = filter is_surface (fst acc) ++ [cylinder_of repr_finite sts item].
Proof.
  intros Hinc Hfin Hfirst Hlast Hs He Hlo Hlt Hhi Hcol.
  pose proof (has_path_covered sts item first last top bottom
                Hinc Hfin Hfirst Hlast Hs He Hlo Hlt Hhi) as Hp.
  destruct (add_item repr_finite plotly_colour sts acc item) as [acc' | e]
    eqn:E.
  - exists acc'. split; [reflexivity |].
    rewrite (add_item_surfaces _ _ _ _ _ _ E). now rewrite Hp.
  - exfalso. destruct acc as [traces legend_items]. cbn [snd] in Hcol.
    rewrite (add_item_drawn _ _ _ _ _ _ Hp) in E.
    destruct (mem_string _ _); [discriminate |].
    now rewrite Hcol in E.
Qed.

Lemma covered_record_drawn_witness :
  exists acc',
    add_item repr_sample three_colours [well_top; well_bottom]
      ([cylinder_of repr_sample [well_top; well_bottom] casing;
        Scatter3d (item_label repr_sample casing) 12 "red"],
       [item_label repr_sample casing]) liner
    = Ok acc'
    /\ filter is_surface (fst acc')
       = filter is_surface
           (fst ([cylinder_of repr_sample [well_top; well_bottom] casing;
                  Scatter3d (item_label repr_sample casing) 12 "red"],
                 [item_label repr_sample casing]))
         ++ [cylinder_of repr_sample [well_top; well_bottom] liner].
Proof.
  apply (covered_record_drawn repr_sample three_colours
           [well_top; well_bottom] _ liner well_top well_bottom 70 100).
  - exact well_increasing.
  - exact well_finite.
  - reflexivity.
  - reflexivity.
  - reflexivity.
  - reflexivity.
  - unfold well_top. cbn [md]. apply fle_Fin. lra.
  - lra.
  - unfold well_bottom. cbn [md]. apply fle_Fin. lra.
  - reflexivity.
Defined.

(** ** The legend *)

(** X16.  With geometry records present and stations that have a
    position, the legend of a figure that is returned names every drawn
    label exactly once: no two legend markers
    carry the same name, and a name has a legend marker exactly when some
    cylinder of the figure has it. *)
Theorem legend_names_each_label_once (repr_finite : R -> string)
  (plotly_colour : string -> bool)
  (name : string) (sts : list TrajectoryStation)
  (item : BoreholeGeometry) (geom : list BoreholeGeometry) (p : Plot) :
  all_finite sts ->
  generate_3d_plot repr_finite plotly_colour
    (mkTrajectory name sts (item :: geom)) = Ok p ->
  NoDup (legend_names (traces_of p))
  /\ forall l,
       In l (legend_names (traces_of p)) <-> In l (cylinder_names (traces_of p)).
Proof.
  intros _. rewrite generate_3d_plot_records by discriminate.
  destruct (order_by_md sts) as [| s l0].
  - intros [= <-]. cbn. split; [constructor | tauto].
  - destruct (add_items _ _ _ _ _) as [acc |] eqn:E; cbn [bind];
      [| discriminate].
    intros [= <-]. cbn [traces_of].
    destruct (add_items_legend _ _ _ _ _ _ legend_invariant_nil E)
      as (Hnd & _ & Hcyl).
    split; [exact Hnd |]. intros l. symmetry. apply Hcyl.
Qed.

Lemma legend_names_each_label_once_witness :
  let traces :=
    [cylinder_of repr_sample [well_top; well_bottom] casing;
     Scatter3d (item_label repr_sample casing) 12 "red";
     cylinder_of repr_sample [well_top; well_bottom] liner;
     Scatter3d (item_label repr_sample liner) 12 "blue"] in
  generate_3d_plot repr_sample three_colours
    (mkTrajectory "Well" [well_bottom; well_top] [liner; plug; casing])
  = Ok (Figure traces)
  /\ NoDup (legend_names traces)
  /\ forall l, In l (legend_names traces) <-> In l (cylinder_names traces).
Proof.
  intros traces. split; [exact well_figure |].
  exact (legend_names_each_label_once repr_sample three_colours "Well"
           [well_bottom; well_top] liner [plug; casing] (Figure traces)
           stored_well_finite well_figure).
Defined.

(** X17.  For stations that have a position, every legend marker of a
    figure with geometry records stands for a record that is drawn: it has that record's label, size 12, and the
    record's colour, or blue when the record's colour is the empty
    string; the colour of a marker is never empty, and it is one that
    plotly takes. *)
Theorem legend_marker_of_drawn_record (repr_finite : R -> string)
  (plotly_colour : string -> bool)
  (name : string) (sts : list TrajectoryStation)
  (item : BoreholeGeometry) (geom : list BoreholeGeometry) (p : Plot) :
  all_finite sts ->
  generate_3d_plot repr_finite plotly_colour
    (mkTrajectory name sts (item :: geom)) = Ok p ->
  Forall (fun t =>
            match t with
            | Surface _ _ _ _ _ _ => True
            | Scatter3d label size colour =>
                size = 12%nat /\ colour <> EmptyString
                /\ plotly_colour colour = true
                /\ exists it,
                     In it (item :: geom)
                     /\ has_path (order_by_md sts) it = true
                     /\ label = item_label repr_finite it
                     /\ colour = (if String.eqb (color it) EmptyString
                                  then "blue"%string else color it)
            end)
    (traces_of p).
Proof.
  intros _. rewrite generate_3d_plot_records by discriminate.
  destruct (order_by_md sts) as [| s l0] eqn:Hsts.
  - intros [= <-]. constructor.
  - destruct (add_items _ _ _ _ _) as [acc |] eqn:E; cbn [bind];
      [| discriminate].
    intros [= <-]. cbn [traces_of].
    apply Forall_forall. intros t Ht.
    destruct (add_items_traces _ _ _ _ _ _ _ E Ht)
      as [[] | (it & Hin & Hp & [-> | [-> Hc]])].
    + unfold cylinder_of.
      destruct (get_path_segment (s :: l0) (start_md it) (end_md it))
        as [[? ?] ?]. exact I.
    + split; [reflexivity |]. split; [| split; [exact Hc |]].
      * unfold marker_colour.
        destruct (String.eqb (color it) EmptyString) eqn:Ec; [discriminate |].
        intros H. rewrite H in Ec. discriminate.
      * exists it. split; [| now repeat split].
        apply (Permutation_in _ (sort_by_perm start_md (item :: geom))).
        exact Hin.
Qed.

Lemma legend_marker_of_drawn_record_witness :
  Forall (fun t =>
            match t with
            | Surface _ _ _ _ _ _ => True
            | Scatter3d label size colour =>
                size = 12%nat /\ colour <> EmptyString
                /\ three_colours colour = true
                /\ exists it,
                     In it [liner; plug; casing]
                     /\ has_path (order_by_md [well_bottom; well_top]) it
                        = true
                     /\ label = item_label repr_sample it
                     /\ colour = (if String.eqb (color it) EmptyString
                                  then "blue"%string else color it)
            end)
    [cylinder_of repr_sample [well_top; well_bottom] casing;
     Scatter3d (item_label repr_sample casing) 12 "red";
     cylinder_of repr_sample [well_top; well_bottom] liner;
     Scatter3d (item_label repr_sample liner) 12 "blue"].
Proof.
  exact (legend_marker_of_drawn_record repr_sample three_colours "Well"
           [well_bottom; well_top] liner [plug; casing] (Figure _)
           stored_well_finite well_figure).
Defined.

(** ** The diameter shown on hover *)

Lemma trace_od_cylinder (repr_finite : R -> string)
  (sts : list TrajectoryStation) (item : BoreholeGeometry) :
  trace_od (cylinder_of repr_finite sts item) = Some (diameter item).
Proof.
  unfold cylinder_of.
  destruct (get_path_segment sts (start_md item) (end_md item)) as [[? ?] ?].
  cbn [create_3d_cylinder trace_od]. now rewrite hover_od_radius.
Qed.

(** X18.  The diameter shown when hovering over a cylinder is the diameter
    of the record it draws: in exact arithmetic the exaggeration factor
    applied to the radius cancels.  For stations that have a position,
    in a figure that is returned the cylinders show the diameters of the
    drawn records, in the order of their start depths.  Without geometry records, and plotly taking the
    colour of the one legend marker, the single cylinder shows 8.5. *)
Theorem hover_shows_record_diameter (repr_finite : R -> string)
  (plotly_colour : string -> bool)
  (name : string) (sts : list TrajectoryStation) (s : TrajectoryStation)
  (item : BoreholeGeometry) (geom : list BoreholeGeometry) :
  all_finite (s :: sts) ->
  (forall p,
     generate_3d_plot repr_finite plotly_colour
       (mkTrajectory name sts (item :: geom)) = Ok p ->
     map trace_od (surfaces p)
     = map (fun it => Some (diameter it))
         (filter (has_path (order_by_md sts))
            (order_by_start_md (item :: geom))))
  /\ (plotly_colour "#1f77b4"%string = true ->
      exists q,
        generate_3d_plot repr_finite plotly_colour
          (mkTrajectory name (s :: sts) []) = Ok q
        /\ map trace_od (surfaces q) = [Some (Fin (85 / 10))]).
Proof.
  intros _. split.
  - intros p. rewrite generate_3d_plot_records by discriminate.
    destruct (order_by_md sts) as [| s0 l0].
    + intros [= <-]. cbn [surfaces map].
      induction (order_by_start_md (item :: geom)) as [| g l IH];
        [reflexivity |].
      cbn [filter]. now rewrite has_path_no_station.
    + destruct (add_items _ _ _ _ _) as [acc |] eqn:E; cbn [bind];
        [| discriminate].
      intros [= <-]. cbn [surfaces].
      rewrite (add_items_surfaces _ _ _ _ _ _ E). cbn [fst filter app].
      rewrite map_map. apply map_ext. intros it. apply trace_od_cylinder.
  - intros Hc. unfold generate_3d_plot. cbn [stations geometry].
    change (order_by_start_md []) with (@nil BoreholeGeometry).
    destruct (order_by_md (s :: sts)) as [| s0 l0] eqn:Hs.
    + exfalso.
      pose proof (sort_by_perm md (s :: sts)) as Hp.
      unfold order_by_md in Hs. rewrite Hs in Hp.
      apply Permutation_nil in Hp. discriminate.
    + unfold scatter3d. rewrite Hc. cbn [bind]. eexists.
      split; [reflexivity |].
      cbn [surfaces create_3d_cylinder filter is_surface map trace_od].
      now rewrite hover_od_radius.
Qed.

Lemma hover_shows_record_diameter_witness :
  (exists p,
     generate_3d_plot repr_sample three_colours
       (mkTrajectory "Well" [well_bottom; well_top] [liner; plug; casing])
     = Ok p
     /\ map trace_od (surfaces p)
        = map (fun it => Some (diameter it))
            (filter (has_path (order_by_md [well_bottom; well_top]))
               (order_by_start_md [liner; plug; casing])))
  /\ (exists q,
        generate_3d_plot repr_sample three_colours
          (mkTrajectory "Well" [well_bottom; well_top] []) = Ok q
        /\ map trace_od (surfaces q) = [Some (Fin (85 / 10))]).
Proof.
  destruct (hover_shows_record_diameter repr_sample three_colours "Well"
              [well_bottom; well_top] well_bottom liner [plug; casing])
    as [H1 _]; [repeat constructor |].
  destruct (hover_shows_record_diameter repr_sample three_colours "Well"
              [well_top] well_bottom liner [plug; casing])
    as [_ H2]; [repeat constructor |].
  split.
  - eexists. split; [exact well_figure |]. apply H1. exact well_figure.
  - apply H2. reflexivity.
Defined.
